(** * aging-gan: the data preparation and the CycleGAN training loop

    A shallow embedding of [src/aging_gan/data.py] and
    [src/aging_gan/train.py].

    Conventions of the embedding:
    - Python exceptions are the constructors of [exn]; a function that can
      raise returns a [result].
    - Python floats that hold losses, FID values and learning-rate
      multipliers are exact rationals ([Qc], with Leibniz equality):
      rounding, infinities and NaN are not represented; a division of two
      ints whose quotient is beyond the range of a float raises, as in
      Python.
    - Tensors, network parameters, the Adam update, automatic
      differentiation and the FID accumulator belong to external libraries;
      they are the fields of the classes [Data.Runtime] and [Train.Torch],
      and the code's own control flow around them is what is modelled. *)

From Stdlib Require Import ZArith QArith Qcanon Ascii.
From stdpp Require Import base numbers list strings sorting functions gmap.

Local Open Scope Z_scope.

(** ** Exceptions and the error monad *)

Inductive exn : Set :=
  | FileNotFoundError
  | ValueError
  | KeyError
  | IndexError
  | ZeroDivisionError
  | OverflowError
  | RuntimeError.

Inductive result (A : Type) : Type :=
  | Ok (a : A)
  | Raise (e : exn).

Arguments Ok {A} a.
Arguments Raise {A} e.

#[global] Instance result_ret : MRet result := λ A a, Ok a.
#[global] Instance result_bind : MBind result := λ A B f m,
  match m with
  | Ok a => f a
  | Raise e => Raise e
  end.

(** [d[k]] on a Python dict. *)
Definition dict_get {A} (d : gmap string A) (k : string) : result A :=
  match d !! k with
  | Some v => Ok v
  | None => Raise KeyError
  end.

(** ** State that survives an exception

    A computation over mutable objects of type [S]: it returns or raises, and
    either way leaves the objects as it last wrote them. *)

Definition M (S A : Type) : Type := S → result A * S.

#[global] Instance M_ret {S} : MRet (M S) := λ A a s, (Ok a, s).
#[global] Instance M_bind {S} : MBind (M S) := λ A B f m s,
  match m s with
  | (Ok a, s') => f a s'
  | (Raise e, s') => (Raise e, s')
  end.

Definition liftR {S A} (r : result A) : M S A := λ s, (r, s).

(** A [for] loop whose body updates the loop variables [a]. *)
Fixpoint for_each `{MBind T, MRet T} {A B} (body : A → B → T A) (l : list B) (a : A) : T A :=
  match l with
  | [] => mret a
  | b :: l' => a' ← body a b; for_each body l' a'
  end.

(** * data.py *)

Module Data.

(** [s.split(sep)[0]] for a one-character separator: the part of [s] before
    the first occurrence of [sep], all of [s] when there is none. *)
Fixpoint split_head (sep : Ascii.ascii) (s : string) : string :=
  match s with
  | EmptyString => EmptyString
  | String c r => if Ascii.eqb c sep then EmptyString else String c (split_head sep r)
  end.

Definition ends_with (suffix s : string) : bool :=
  String.prefix (String.rev suffix) (String.rev s).

(** [root.glob("*.jpg")] over the names found in the dataset directory. *)
Definition glob_jpg (listing : list string) : list string :=
  filter (λ name, Is_true (ends_with ".jpg" name)) listing.

(** [sorted(...)] on names. *)
Definition sorted (names : list string) : list string :=
  merge_sort String.le names.

(** The dataset object; [root] and [transform] play no part in what follows. *)
Record UTKFace : Type := { files : list string }.

(** [UTKFace.__init__]. *)
Definition UTKFace_init (listing : list string) : result UTKFace :=
  let files := sorted (glob_jpg listing) in
  if bool_decide (files = []) then Raise FileNotFoundError
  else Ok {| files := files |}.

Definition UTKFace_len (ds : UTKFace) : nat := length (files ds).

(** What [make_unpaired_loader] hands to [DataLoader]: the two index lists of
    the [Unpaired] dataset and the loader's options. *)
Record DataLoader : Type := {
  part_y : list nat;
  part_o : list nat;
  batch_size : Z;
  shuffle : bool;
  drop_last : bool
}.

(** [DataLoader(paired, batch_size=..., shuffle=..., drop_last=..., ...)]:
    the constructor builds a [RandomSampler] when [shuffle] is set, which
    raises [ValueError] on an empty dataset, and then a [BatchSampler],
    which raises [ValueError] for a batch size that is not positive. The
    dataset [paired] has the length of the longer part. The number of
    workers is taken positive, as every default of the code has it. *)
Definition DataLoader_init (part_y part_o : list nat) (batch_size : Z)
    (shuffle drop_last : bool) : result DataLoader :=
  if shuffle && bool_decide (Nat.max (length part_y) (length part_o) = 0%nat)
  then Raise ValueError
  else if bool_decide (batch_size ≤ 0) then Raise ValueError
  else Ok {| part_y := part_y; part_o := part_o; batch_size := batch_size;
             shuffle := shuffle; drop_last := drop_last |}.

(** [Unpaired.__len__] and the indices read by [Unpaired.__getitem__]. *)
Definition Unpaired_len (dl : DataLoader) : nat :=
  Nat.max (length (part_y dl)) (length (part_o dl)).

Definition Unpaired_getitem (dl : DataLoader) (idx : nat) : option (nat * nat) :=
  if bool_decide (part_y dl = [] ∨ part_o dl = []) then None
  else
    a ← part_y dl !! (idx mod length (part_y dl))%nat;
    b ← part_o dl !! (idx mod length (part_o dl))%nat;
    Some (a, b).

(** What the loader takes from the Python runtime and from torch: the
    builtin [int] on a string ([None]: it raises [ValueError]), and
    [torch.Generator] with [manual_seed] and [torch.randperm]. *)
Class Runtime : Type := {
  py_int : string → option Z;
  rng : Type;
  manual_seed : Z → rng;
  randperm : nat → rng → list nat * rng
}.

Section Loader.

Context `{Runtime}.

Definition age_of (f : string) : result Z :=
  match py_int (split_head "_"%char f) with
  | Some a => Ok a
  | None => Raise ValueError
  end.

(** The loop of [make_unpaired_loader] over [enumerate(full_ds.files)]. *)
Fixpoint bucket_loop (young_max old_min : Z) (fs : list string) (i : nat)
    (young_idx old_idx : list nat) : result (list nat * list nat) :=
  match fs with
  | [] => Ok (young_idx, old_idx)
  | f :: fs' =>
      age ← age_of f;
      if (age <=? young_max) && (age >=? 18) then
        bucket_loop young_max old_min fs' (S i) (young_idx ++ [i]) old_idx
      else if age >=? old_min then
        bucket_loop young_max old_min fs' (S i) young_idx (old_idx ++ [i])
      else
        bucket_loop young_max old_min fs' (S i) young_idx old_idx
  end.

(** [idxs[perm]]: indexing a tensor by a tensor of positions. *)
Definition index_by (idxs perm : list nat) : result (list nat) :=
  match mapM (λ j, idxs !! j) perm with
  | Some l => Ok l
  | None => Raise IndexError
  end.

(** [int(0.8 * n)] and [int(0.9 * n)]: for every length a directory can
    hold, the truncated float product is the integer quotient. *)
Definition int_frac (tenths n : nat) : nat := (tenths * n / 10)%nat.

(** [split_indices], with the generator threaded through. *)
Definition split_indices (idxs : list nat) (g : rng)
    : result (gmap string (list nat)) * rng :=
  let '(perm, g') := randperm (length idxs) g in
  (shuffled ← index_by idxs perm;
   let n := length shuffled in
   let train := int_frac 8 n in
   let valid := int_frac 9 n in
   Ok ({[ "train" := take train shuffled;
          "valid" := drop train (take valid shuffled);
          "test" := drop valid shuffled ]} : gmap string (list nat)),
   g').

(** [make_unpaired_loader]. *)
Definition make_unpaired_loader (listing : list string) (split : string)
    (batch_size : Z) (seed : Z) (young_max old_min : Z) : result DataLoader :=
  full_ds ← UTKFace_init listing;
  let g := manual_seed seed in
  '(young_idx, old_idx) ← bucket_loop young_max old_min (files full_ds) 0 [] [];
  if bool_decide (young_idx = [] ∨ old_idx = []) then Raise ValueError
  else
    let '(dy, g1) := split_indices young_idx g in
    dy ← dy;
    part_y ← dict_get dy split;
    let '(do, g2) := split_indices old_idx g1 in
    do ← do;
    part_o ← dict_get do split;
    let limit := Nat.min (length part_y) (length part_o) in
    DataLoader_init (take limit part_y) (take limit part_o) batch_size
      (bool_decide (split = "train")) (bool_decide (split = "train")).

Definition default_young_max : Z := 28.
Definition default_old_min : Z := 40.

(** [prepare_dataset]: three loaders, thresholds left at their defaults. *)
Definition prepare_dataset (listing : list string)
    (train_batch_size eval_batch_size seed : Z)
    : result (DataLoader * DataLoader * DataLoader) :=
  train_loader ← make_unpaired_loader listing "train" train_batch_size seed
                   default_young_max default_old_min;
  val_loader ← make_unpaired_loader listing "valid" eval_batch_size seed
                 default_young_max default_old_min;
  test_loader ← make_unpaired_loader listing "test" eval_batch_size seed
                  default_young_max default_old_min;
  Ok (train_loader, val_loader, test_loader).

End Loader.

End Data.

(** * train.py *)

Module Train.

(** ** Numbers *)

(** The least magnitude that no longer rounds to a double: the largest
    double is [2^1024 - 2^971], and from half a step above it on a value
    rounds to infinity. *)
Definition float_overflow : Z := 2 ^ 1024 - 2 ^ 970.

(** [a / b] on two Python ints: true division. A zero divisor is tested
    first; a quotient too large for a float raises [OverflowError]. *)
Definition true_div (a b : Z) : result Qc :=
  if bool_decide (b = 0) then Raise ZeroDivisionError
  else if bool_decide (float_overflow * Z.abs b ≤ Z.abs a) then Raise OverflowError
  else Ok (Qc_of_Z a / Qc_of_Z b)%Qc.

(** [a / n] for a float [a] and an int [n], as in [metrics[k] /= n_batches]. *)
Definition float_div (a : Qc) (n : Z) : result Qc :=
  if bool_decide (n = 0) then Raise ZeroDivisionError
  else Ok (a / Qc_of_Z n)%Qc.

(** The builtin [max(a, b)]: [b] when [b > a], otherwise [a]. *)
Definition py_max (a b : Qc) : Qc :=
  if bool_decide (a < b)%Qc then b else a.

(** ** The four modules *)

Inductive module_name : Set := G | F | DX | DY.

#[global] Instance module_name_eq_dec : EqDecision module_name.
Proof. solve_decision. Defined.

(** ** Schedules: [make_schedulers] *)

(** The closure [_lr_lambda] of [make_schedulers], for [cfg.num_train_epochs =
    n_epochs]. *)
Definition _lr_lambda (n_epochs : Z) (epoch : Z) : result Qc :=
  let start_decay := n_epochs `div` 2 in
  if bool_decide (epoch < start_decay) then Ok 1%Qc
  else
    q ← true_div (n_epochs - epoch) (n_epochs - start_decay);
    Ok (py_max 0%Qc q).

(** A [LambdaLR]: the optimizer it drives and its multiplier function. *)
Record LambdaLR : Type := {
  optimizer : module_name;
  lr_lambda : Z → result Qc
}.

(** [LambdaLR(opt, lr_lambda=f)]: the constructor takes the scheduler's
    initial step, which calls [f] at epoch 0. *)
Definition LambdaLR_init (opt : module_name) (f : Z → result Qc) : result LambdaLR :=
  _ ← f 0;
  Ok {| optimizer := opt; lr_lambda := f |}.

Definition make_schedulers (n_epochs : Z)
    : result (LambdaLR * LambdaLR * LambdaLR * LambdaLR) :=
  sched_G ← LambdaLR_init G (_lr_lambda n_epochs);
  sched_F ← LambdaLR_init F (_lr_lambda n_epochs);
  sched_DX ← LambdaLR_init DX (_lr_lambda n_epochs);
  sched_DY ← LambdaLR_init DY (_lr_lambda n_epochs);
  Ok (sched_G, sched_F, sched_DX, sched_DY).

(** ** The optimization step: [perform_train_step] *)

(** [optim.Adam(M.parameters(), ...)]: an optimizer and the module whose
    parameters it was built over. *)
Record Adam : Type := { param_group : module_name }.

(** [initialize_optimizers]. *)
Definition initialize_optimizers : Adam * Adam * Adam * Adam :=
  let opt_G := {| param_group := G |} in
  let opt_F := {| param_group := F |} in
  let opt_DX := {| param_group := DX |} in
  let opt_DY := {| param_group := DY |} in
  (opt_G, opt_F, opt_DX, opt_DY).

(** A tensor: its value and the modules whose parameters its autograd graph
    reaches. *)
Record tensor (A : Type) : Type := { data : A; graph : list module_name }.

Arguments data {A} t.
Arguments graph {A} t.

(** The interface of the tensor library as the training code uses it.
    - tensor values, parameter sets, gradients and optimizer state;
    - the networks as functions of their parameters;
    - [torch.ones_like], [torch.zeros_like], [nn.MSELoss()], [nn.L1Loss()];
    - automatic differentiation: the gradient of the total generator loss
      with respect to a module, as a function of the four parameter sets,
      the batch and the three weights; the gradient of a discriminator loss
      with respect to that discriminator, as a function of its parameters,
      the real images and the (detached) fake images;
    - accumulation into [.grad], the clipping coefficient of
      [clip_grad_norm_], scaling of a gradient, and one Adam update;
    - [FrechetInceptionDistance]: its state, what [reset], [update] and
      [compute] do to it, and the rescaling [(t * 0.5 + 0.5).float()];
      [compute] raises [RuntimeError] on a state that is not [fid_ready]
      (the library asks for more than one real and more than one generated
      sample) and returns [fid_compute] otherwise. *)
Class Torch : Type := {
  image : Type;
  logits : Type;
  params : Type;
  gradient : Type;
  opt_state : Type;
  gen_forward : params → image → image;
  disc_forward : params → image → logits;
  ones_like : logits → logits;
  zeros_like : logits → logits;
  mse : logits → logits → Qc;
  l1 : image → image → Qc;
  grad_gen_total :
    (module_name → params) → image → image → Qc → Qc → Qc → module_name → gradient;
  grad_disc : params → image → image → gradient;
  grad_add : gradient → gradient → gradient;
  clip_coef : list gradient → Qc → Qc;
  grad_scale : Qc → gradient → gradient;
  adam : opt_state → params → gradient → params * opt_state;
  fid_state : Type;
  fid_reset : fid_state → fid_state;
  fid_update : image → bool → fid_state → fid_state;
  fid_compute : fid_state → Qc;
  fid_ready : fid_state → bool;
  to_unit_range : image → image
}.

Section Step.

Context `{Torch}.

Record module_state : Type := { weights : params; grad : option gradient }.

(** The mutable objects a step works on; [mutations] records, in order,
    every parameter set written by an optimizer. *)
Record world : Type := {
  model : module_name → module_state;
  optim : module_name → opt_state;
  mutations : list module_name
}.

Definition input {A} (a : A) : tensor A := {| data := a; graph := [] |}.

(** [t.detach()]. *)
Definition detach {A} (t : tensor A) : tensor A := input (data t).

(** [M(t)] for a generator and for a discriminator. *)
Definition call_gen (m : module_name) (w : world) (t : tensor image) : tensor image :=
  {| data := gen_forward (weights (model w m)) (data t); graph := m :: graph t |}.

Definition call_disc (m : module_name) (w : world) (t : tensor image) : tensor logits :=
  {| data := disc_forward (weights (model w m)) (data t); graph := m :: graph t |}.

Definition mse_loss (a b : tensor logits) : tensor Qc :=
  {| data := mse (data a) (data b); graph := graph a ++ graph b |}.

Definition l1_loss (a b : tensor image) : tensor Qc :=
  {| data := l1 (data a) (data b); graph := graph a ++ graph b |}.

Definition tadd (a b : tensor Qc) : tensor Qc :=
  {| data := (data a + data b)%Qc; graph := graph a ++ graph b |}.

Definition tscale (c : Qc) (a : tensor Qc) : tensor Qc :=
  {| data := (c * data a)%Qc; graph := graph a |}.

Definition set_model (m : module_name) (ms : module_state) (w : world) : world :=
  {| model := <[m := ms]> (model w); optim := optim w; mutations := mutations w |}.

(** [opt.zero_grad(set_to_none=True)]. *)
Definition zero_grad (opt : Adam) (w : world) : world :=
  let m := param_group opt in
  set_model m {| weights := weights (model w m); grad := None |} w.

(** [accelerator.backward(loss)]: every module the graph of [loss] reaches
    receives its gradient, added to what [.grad] already holds. *)
Definition deposit (g : gradient) (ms : module_state) : module_state :=
  {| weights := weights ms;
     grad := Some (match grad ms with
                   | None => g
                   | Some g0 => grad_add g0 g
                   end) |}.

Definition backward (loss : tensor Qc) (d : module_name → gradient) (w : world) : world :=
  {| model := λ m, if bool_decide (m ∈ graph loss)
                   then deposit (d m) (model w m) else model w m;
     optim := optim w;
     mutations := mutations w |}.

(** [accelerator.clip_grad_norm_(parameters, max_norm)]. *)
Definition clip_grad_norm_ (ms : list module_name) (max_norm : Qc) (w : world) : world :=
  let c := clip_coef (omap (λ m, grad (model w m)) ms) max_norm in
  {| model := λ m, if bool_decide (m ∈ ms)
                   then {| weights := weights (model w m);
                           grad := grad_scale c <$> grad (model w m) |}
                   else model w m;
     optim := optim w;
     mutations := mutations w |}.

(** [opt.step()]: parameters without a gradient are skipped. *)
Definition step (opt : Adam) (w : world) : world :=
  let m := param_group opt in
  match grad (model w m) with
  | None => w
  | Some g =>
      let '(p, s) := adam (optim w m) (weights (model w m)) g in
      {| model := <[m := {| weights := p; grad := Some g |}]> (model w);
         optim := <[m := s]> (optim w);
         mutations := mutations w ++ [m] |}
  end.

Definition current_weights (w : world) : module_name → params :=
  λ m, weights (model w m).

(** What the generator phase leaves for the rest of the step. *)
Record generator_phase : Type := {
  fake_x : tensor image;
  fake_y : tensor image;
  loss_f_adv : tensor Qc;
  loss_g_adv : tensor Qc;
  loss_cyc : tensor Qc;
  loss_id : tensor Qc;
  loss_gen_total : tensor Qc
}.

(** Lines "Update Generators" of [perform_train_step]. *)
Definition update_generators (opt_G opt_F : Adam) (real_data : image * image)
    (lambda_adv lambda_cyc lambda_id : Qc) (w : world) : generator_phase * world :=
  let x := input real_data.1 in
  let y := input real_data.2 in
  let w := zero_grad opt_G w in
  let w := zero_grad opt_F w in
  let fake_x := call_gen F w y in
  let fake_y := call_gen G w x in
  let rec_x := call_gen F w fake_y in
  let rec_y := call_gen G w fake_x in
  let fake_test_logits := call_disc DX w fake_x in
  let loss_f_adv :=
    tscale lambda_adv (mse_loss fake_test_logits (input (ones_like (data fake_test_logits)))) in
  let fake_test_logits := call_disc DY w fake_y in
  let loss_g_adv :=
    tscale lambda_adv (mse_loss fake_test_logits (input (ones_like (data fake_test_logits)))) in
  let loss_cyc := tscale lambda_cyc (tadd (l1_loss rec_x x) (l1_loss rec_y y)) in
  let loss_id :=
    tscale lambda_id (tadd (l1_loss (call_gen G w y) y) (l1_loss (call_gen F w x) x)) in
  let loss_gen_total := tadd (tadd (tadd loss_g_adv loss_f_adv) loss_cyc) loss_id in
  let w := backward loss_gen_total
             (grad_gen_total (current_weights w) (data x) (data y)
                lambda_adv lambda_cyc lambda_id) w in
  let w := clip_grad_norm_ [G; F] 1%Qc w in
  let w := step opt_G w in
  let w := step opt_F w in
  ({| fake_x := fake_x; fake_y := fake_y;
      loss_f_adv := loss_f_adv; loss_g_adv := loss_g_adv;
      loss_cyc := loss_cyc; loss_id := loss_id;
      loss_gen_total := loss_gen_total |}, w).

(** One discriminator update: [D] against [real] and the detached [fake]. *)
Definition update_discriminator (D : module_name) (opt_D : Adam)
    (real fake : tensor image) (w : world) : tensor Qc * world :=
  let w := zero_grad opt_D w in
  let real_logits := call_disc D w real in
  let real_loss := mse_loss real_logits (input (ones_like (data real_logits))) in
  let fake_logits := call_disc D w (detach fake) in
  let fake_loss := mse_loss fake_logits (input (zeros_like (data fake_logits))) in
  let loss_D := tscale (1 / 2)%Qc (tadd real_loss fake_loss) in
  let w := backward loss_D
             (λ _, grad_disc (current_weights w D) (data real) (data fake)) w in
  let w := clip_grad_norm_ [D] 1%Qc w in
  let w := step opt_D w in
  (loss_D, w).

(** Lines "Update Discriminators" of [perform_train_step]: DX, then DY. *)
Definition update_discriminators (opt_DX opt_DY : Adam) (real_data : image * image)
    (fake_x fake_y : tensor image) (w : world) : (tensor Qc * tensor Qc) * world :=
  let x := input real_data.1 in
  let y := input real_data.2 in
  let '(loss_DX, w) := update_discriminator DX opt_DX x fake_x w in
  let '(loss_DY, w) := update_discriminator DY opt_DY y fake_y w in
  ((loss_DX, loss_DY), w).

Definition perform_train_step (real_data : image * image)
    (lambda_adv lambda_cyc lambda_id : Qc)
    (opt_G opt_F opt_DX opt_DY : Adam) (w : world) : gmap string Qc * world :=
  let '(g, w) := update_generators opt_G opt_F real_data
                   lambda_adv lambda_cyc lambda_id w in
  let '((loss_DX, loss_DY), w) :=
    update_discriminators opt_DX opt_DY real_data (fake_x g) (fake_y g) w in
  (({[ "train/loss_DX" := data loss_DX;
       "train/loss_DY" := data loss_DY;
       "train/loss_f_adv" := data (loss_f_adv g);
       "train/loss_g_adv" := data (loss_g_adv g);
       "train/loss_cyc" := data (loss_cyc g);
       "train/loss_id" := data (loss_id g);
       "train/loss_gen_total" := data (loss_gen_total g) ]} : gmap string Qc), w).

End Step.

(** ** The evaluation pass: [evaluate_epoch] *)

Inductive fid_call : Set :=
  | CallReset
  | CallUpdate (real : bool)
  | CallCompute.

#[global] Instance fid_call_eq_dec : EqDecision fid_call.
Proof. solve_decision. Defined.

(** A metrics record by its eight values: the keys without the split, and
    the keys of a split. *)
Definition suffix_metrics (a1 a2 a3 a4 a5 a6 a7 a8 : Qc) : gmap string Qc :=
  {[ "/loss_DX" := a1;
     "/loss_DY" := a2;
     "/loss_f_adv" := a3;
     "/loss_g_adv" := a4;
     "/loss_cyc" := a5;
     "/loss_id" := a6;
     "/loss_gen_total" := a7;
     "/fid_val" := a8 ]}.

Definition split_metrics (split : string) (a1 a2 a3 a4 a5 a6 a7 a8 : Qc) : gmap string Qc :=
  kmap (String.app split) (suffix_metrics a1 a2 a3 a4 a5 a6 a7 a8).

Section Evaluate.

Context `{Torch}.

(** The [fid_metric] object: the accumulator and the method calls it has
    received so far. *)
Record fid_metric : Type := { acc : fid_state; calls : list fid_call }.

Definition fid_metric_reset : M fid_metric () := λ f,
  (Ok (), {| acc := fid_reset (acc f); calls := calls f ++ [CallReset] |}).

Definition fid_metric_update (imgs : image) (real : bool) : M fid_metric () := λ f,
  (Ok (), {| acc := fid_update imgs real (acc f);
             calls := calls f ++ [CallUpdate real] |}).

Definition fid_metric_compute : M fid_metric Qc := λ f,
  (if fid_ready (acc f) then Ok (fid_compute (acc f)) else Raise RuntimeError,
   {| acc := acc f; calls := calls f ++ [CallCompute] |}).

(** [d[k] += v]. *)
Definition dict_iadd (d : gmap string Qc) (k : string) (v : Qc) : result (gmap string Qc) :=
  old ← dict_get d k;
  Ok (<[k := (old + v)%Qc]> d).

Definition initial_metrics (split : string) : gmap string Qc :=
  {[ split +:+ "/loss_DX" := 0%Qc;
     split +:+ "/loss_DY" := 0%Qc;
     split +:+ "/loss_f_adv" := 0%Qc;
     split +:+ "/loss_g_adv" := 0%Qc;
     split +:+ "/loss_cyc" := 0%Qc;
     split +:+ "/loss_id" := 0%Qc;
     split +:+ "/loss_gen_total" := 0%Qc;
     split +:+ "/fid_val" := 0%Qc ]}.

(** The seven losses of one batch, as the loop body computes them from
    the parameters [θ] of the four modules. *)
Record batch_losses : Type := {
  b_loss_DX : Qc;
  b_loss_DY : Qc;
  b_loss_f_adv : Qc;
  b_loss_g_adv : Qc;
  b_loss_cyc : Qc;
  b_loss_id : Qc;
  b_loss_gen_total : Qc
}.

Definition forward_losses (θ : module_name → params)
    (lambda_adv lambda_cyc lambda_id : Qc) (batch : image * image) : batch_losses :=
  let '(x, y) := batch in
  let fake_x := gen_forward (θ F) y in
  let fake_y := gen_forward (θ G) x in
  let rec_x := gen_forward (θ F) fake_y in
  let rec_y := gen_forward (θ G) fake_x in
  let fake_test_logits := disc_forward (θ DX) fake_x in
  let loss_f_adv := (lambda_adv * mse fake_test_logits (ones_like fake_test_logits))%Qc in
  let fake_test_logits := disc_forward (θ DY) fake_y in
  let loss_g_adv := (lambda_adv * mse fake_test_logits (ones_like fake_test_logits))%Qc in
  let loss_cyc := (lambda_cyc * (l1 rec_x x + l1 rec_y y))%Qc in
  let loss_id :=
    (lambda_id * (l1 (gen_forward (θ G) y) y + l1 (gen_forward (θ F) x) x))%Qc in
  let loss_gen_total := (loss_g_adv + loss_f_adv + loss_cyc + loss_id)%Qc in
  let real_logits := disc_forward (θ DX) x in
  let real_loss := mse real_logits (ones_like real_logits) in
  let fake_logits := disc_forward (θ DX) fake_x in
  let fake_loss := mse fake_logits (zeros_like fake_logits) in
  let loss_DX := (1 / 2 * (real_loss + fake_loss))%Qc in
  let real_logits := disc_forward (θ DY) y in
  let real_loss := mse real_logits (ones_like real_logits) in
  let fake_logits := disc_forward (θ DY) fake_y in
  let fake_loss := mse fake_logits (zeros_like fake_logits) in
  let loss_DY := (1 / 2 * (real_loss + fake_loss))%Qc in
  {| b_loss_DX := loss_DX; b_loss_DY := loss_DY;
     b_loss_f_adv := loss_f_adv; b_loss_g_adv := loss_g_adv;
     b_loss_cyc := loss_cyc; b_loss_id := loss_id;
     b_loss_gen_total := loss_gen_total |}.

(** The sum over the batches of one of the losses. *)
Definition total_loss (proj : batch_losses → Qc) (ls : list batch_losses) : Qc :=
  foldr Qcplus 0%Qc (proj <$> ls).

(** What one batch does to the accumulator, and the calls a loader's
    batches make on it. *)
Definition fid_batch (θ : module_name → params) (st : fid_state) (batch : image * image)
    : fid_state :=
  fid_update (to_unit_range (gen_forward (θ G) batch.1)) false
    (fid_update (to_unit_range batch.2) true st).

Definition batch_calls (loader : list (image * image)) : list fid_call :=
  loader ≫= λ _, [CallUpdate true; CallUpdate false].

(** The body of [for x, y in tqdm(loader)]; the loop variables are
    [metrics] and [n_batches]. *)
Definition evaluate_batch (θ : module_name → params) (split : string)
    (lambda_adv lambda_cyc lambda_id : Qc)
    (vars : gmap string Qc * Z) (batch : image * image)
    : M fid_metric (gmap string Qc * Z) :=
  let '(metrics, n_batches) := vars in
  let ls := forward_losses θ lambda_adv lambda_cyc lambda_id batch in
  let y := batch.2 in
  let fake_y := gen_forward (θ G) batch.1 in
  _ ← fid_metric_update (to_unit_range y) true;
  _ ← fid_metric_update (to_unit_range fake_y) false;
  metrics ← liftR (dict_iadd metrics (split +:+ "/loss_DX") (b_loss_DX ls));
  metrics ← liftR (dict_iadd metrics (split +:+ "/loss_DY") (b_loss_DY ls));
  metrics ← liftR (dict_iadd metrics (split +:+ "/loss_f_adv") (b_loss_f_adv ls));
  metrics ← liftR (dict_iadd metrics (split +:+ "/loss_g_adv") (b_loss_g_adv ls));
  metrics ← liftR (dict_iadd metrics (split +:+ "/loss_cyc") (b_loss_cyc ls));
  metrics ← liftR (dict_iadd metrics (split +:+ "/loss_id") (b_loss_id ls));
  metrics ← liftR (dict_iadd metrics (split +:+ "/loss_gen_total") (b_loss_gen_total ls));
  mret (metrics, n_batches + 1).

(** The block under [torch.no_grad()]: reset, the loop over the batches,
    then compute; it leaves [metrics] and [n_batches]. *)
Definition accumulate_epoch (θ : module_name → params) (loader : list (image * image))
    (split : string) (lambda_adv lambda_cyc lambda_id : Qc)
    : M fid_metric (gmap string Qc * Z) :=
  let metrics := initial_metrics split in
  let n_batches := 0 in
  _ ← fid_metric_reset;
  '(metrics, n_batches) ←
    for_each (evaluate_batch θ split lambda_adv lambda_cyc lambda_id)
             loader (metrics, n_batches);
  fid_val ← fid_metric_compute;
  mret (<[split +:+ "/fid_val" := fid_val]> metrics, n_batches).

(** [d[k] /= n]. *)
Definition dict_idiv (n : Z) (d : gmap string Qc) (k : string) : result (gmap string Qc) :=
  v ← dict_get d k;
  q ← float_div v n;
  Ok (<[k := q]> d).

(** [for k in metrics: metrics[k] /= n_batches]. *)
Definition per_batch_average (metrics : gmap string Qc) (n_batches : Z)
    : result (gmap string Qc) :=
  for_each (dict_idiv n_batches) (map_to_list metrics).*1 metrics.

Definition evaluate_epoch (θ : module_name → params) (loader : list (image * image))
    (split : string) (lambda_adv lambda_cyc lambda_id : Qc)
    : M fid_metric (gmap string Qc) :=
  '(metrics, n_batches) ←
    accumulate_epoch θ loader split lambda_adv lambda_cyc lambda_id;
  liftR (per_batch_average metrics n_batches).

End Evaluate.

(** ** The run: [main] *)

(** The fields of [cfg] that [main] itself reads. *)
Record Config : Type := {
  num_train_epochs : Z;
  train_batch_size : Z;
  eval_batch_size : Z;
  seed : Z;
  set_seed : bool;
  do_test : bool;
  archive_and_terminate_ec2 : bool
}.

(** Calls [main] makes to its collaborators, in the order it makes them. *)
Inductive event : Type :=
  | WandbInit
  | SetSeed (seed : Z)
  | PrepareDataset
  | InitializeModels
  | InitializeOptimizers
  | AcceleratorPrepare
  | InitializeLossFunctions
  | MakeSchedulers
  | MakeFidMetric
  | PerformEpoch (epoch : Z)
  | SaveCheckpoint (epoch : Z) (kind : string)
  | ArchiveEc2
  | LoadCheckpoint (kind : string)
  | EvaluateTest
  | WriteTestMetrics
  | TerminateEc2.

#[global] Instance event_eq_dec : EqDecision event.
Proof. solve_decision. Defined.

(** What a run leaves behind: the calls made, and the checkpoint files with
    the epoch index each one stores. *)
Record run : Type := {
  trace : list event;
  checkpoints : gmap string Z
}.

Definition emit (e : event) : M run () := λ r,
  (Ok (), {| trace := trace r ++ [e]; checkpoints := checkpoints r |}).

(** Modelled from the spec: [save_checkpoint] of [aging_gan.utils], which is
    not part of the sources at hand. A checkpoint is a snapshot holding the
    epoch index; [best] and [current] are two named files, each write a total
    overwrite. *)
Definition save_checkpoint (epoch : Z) (kind : string) : M run () := λ r,
  (Ok (), {| trace := trace r ++ [SaveCheckpoint epoch kind];
             checkpoints := <[kind := epoch]> (checkpoints r) |}).

(** [torch.load] of a checkpoint file: it raises when the file is missing. *)
Definition load_checkpoint (kind : string) : M run Z := λ r,
  match checkpoints r !! kind with
  | Some epoch => (Ok epoch, {| trace := trace r ++ [LoadCheckpoint kind];
                                checkpoints := checkpoints r |})
  | None => (Raise FileNotFoundError, r)
  end.

(** [best_fid]: a float that starts as [float("inf")]. *)
Inductive best : Type :=
  | Inf
  | Finite (fid : Qc).

(** [fid < best_fid]. *)
Definition fid_lt (fid : Qc) (best_fid : best) : bool :=
  match best_fid with
  | Inf => true
  | Finite b => bool_decide (fid < b)%Qc
  end.

Definition when (b : bool) (m : M run ()) : M run () :=
  if b then m else mret ().

(** The body of [for epoch in range(1, cfg.num_train_epochs + 1)].
    [perform_epoch] trains and evaluates; the loop reads only the validation
    metrics it returns, given here per epoch by [val_metrics_of]. *)
Definition epoch_body (cfg : Config) (val_metrics_of : Z → gmap string Qc)
    (best_fid : best) (epoch : Z) : M run best :=
  _ ← emit (PerformEpoch epoch);
  let val_metrics := val_metrics_of epoch in
  fid ← liftR (dict_get val_metrics "val/fid_val");
  best_fid ←
    (if fid_lt fid best_fid then
       _ ← save_checkpoint epoch "best";
       _ ← when (archive_and_terminate_ec2 cfg) (emit ArchiveEc2);
       mret (Finite fid)
     else mret best_fid);
  _ ← when (bool_decide (epoch `mod` 5 = 0))
        (_ ← save_checkpoint epoch "current";
         when (archive_and_terminate_ec2 cfg) (emit ArchiveEc2));
  mret best_fid.

(** [range(1, n + 1)]. *)
Definition epochs (n : Z) : list Z := seqZ 1 n.

Definition epoch_loop (cfg : Config) (val_metrics_of : Z → gmap string Qc) : M run best :=
  for_each (epoch_body cfg val_metrics_of) (epochs (num_train_epochs cfg)) Inf.

(** [main], for the files found in the dataset directory. *)
Definition main `{Data.Runtime} (cfg : Config) (listing : list string)
    (val_metrics_of : Z → gmap string Qc) : M run () :=
  _ ← emit WandbInit;
  _ ← when (set_seed cfg) (emit (SetSeed (seed cfg)));
  _ ← emit PrepareDataset;
  loaders ← liftR (Data.prepare_dataset listing (train_batch_size cfg)
                     (eval_batch_size cfg) (seed cfg));
  _ ← emit InitializeModels;
  _ ← emit InitializeOptimizers;
  _ ← emit AcceleratorPrepare;
  _ ← emit InitializeLossFunctions;
  _ ← emit MakeSchedulers;
  _ ← liftR (make_schedulers (num_train_epochs cfg));
  _ ← emit MakeFidMetric;
  _ ← epoch_loop cfg val_metrics_of;
  _ ← when (do_test cfg)
        (_ ← load_checkpoint "best";
         _ ← emit EvaluateTest;
         _ ← emit WriteTestMetrics;
         when (archive_and_terminate_ec2 cfg) (emit ArchiveEc2));
  when (archive_and_terminate_ec2 cfg) (emit TerminateEc2).

(** ** Notions used to state the properties of the loop *)

(** Epoch [e] improves when its validation FID is strictly below that of
    every earlier epoch of the run. *)
Definition improves (fid : Z → Qc) (e : Z) : Prop :=
  ∀ e', 1 ≤ e' < e → (fid e < fid e')%Qc.

(** The calls one epoch adds to the trace and what it does to the checkpoint
    files, by whether its FID passed the comparison. *)
Definition archive_events (cfg : Config) : list event :=
  if archive_and_terminate_ec2 cfg then [ArchiveEc2] else [].

Definition epoch_events (cfg : Config) (improved : bool) (e : Z) : list event :=
  [PerformEpoch e]
  ++ (if improved then SaveCheckpoint e "best" :: archive_events cfg else [])
  ++ (if bool_decide (e `mod` 5 = 0) then SaveCheckpoint e "current" :: archive_events cfg
      else []).

Definition epoch_checkpoints (improved : bool) (e : Z) (c : gmap string Z) : gmap string Z :=
  let c := if improved then <["best" := e]> c else c in
  if bool_decide (e `mod` 5 = 0) then <["current" := e]> c else c.

(** [best_fid] tracks the epochs before [a]: a value is below it exactly when
    it is below the FID of each of them. *)
Definition tracks (fid : Z → Qc) (best_fid : best) (a : Z) : Prop :=
  ∀ q, fid_lt q best_fid = true ↔ ∀ e', 1 ≤ e' < a → (q < fid e')%Qc.

End Train.

(** * A small runtime to run the definitions on *)

Module Toy.

Definition digit (c : Ascii.ascii) : option Z :=
  let n := nat_of_ascii c in
  if (48 <=? n)%nat && (n <=? 57)%nat then Some (Z.of_nat (n - 48)) else None.

Fixpoint decimal_acc (s : string) (acc : Z) : option Z :=
  match s with
  | EmptyString => Some acc
  | String c r => d ← digit c; decimal_acc r (10 * acc + d)
  end.

(** [int] on a string of decimal digits. *)
Definition decimal (s : string) : option Z :=
  match s with
  | EmptyString => None
  | _ => decimal_acc s 0
  end.

(** Decimal [int], and a generator whose permutation is the identity. *)
#[export] Instance runtime : Data.Runtime := {|
  Data.py_int := decimal;
  Data.rng := ();
  Data.manual_seed := λ _, ();
  Data.randperm := λ n g, (seq 0 n, g)
|}.

(** A dataset directory with one file per age range and one stray file,
    and the dataset object [UTKFace] makes of it. *)
Definition listing4 : list string :=
  ["25_0_0_a.jpg"; "45_1_0_b.jpg"; "10_0_0_c.jpg"; "30_1_2_d.jpg"; "notes.txt"].

Definition files4 : Data.UTKFace :=
  {| Data.files := ["10_0_0_c.jpg"; "25_0_0_a.jpg"; "30_1_2_d.jpg"; "45_1_0_b.jpg"] |}.

(** The state of a small accumulator: the sums of the real and of the
    generated pixels, and the number of samples of each kind received. *)
Record fid_sums : Type := {
  real_sum : Qc;
  fake_sum : Qc;
  real_count : nat;
  fake_count : nat
}.

(** One-pixel images and one-weight networks: a generator adds its weight,
    a discriminator multiplies by it; the accumulator sums the real and the
    generated pixels and [compute] returns the squared difference of the
    sums, on the states [ready] accepts. *)
Definition make_torch (ready : fid_sums → bool) : Train.Torch := {|
  Train.image := Qc;
  Train.logits := Qc;
  Train.params := Qc;
  Train.gradient := Qc;
  Train.opt_state := nat;
  Train.gen_forward := λ p x, (p + x)%Qc;
  Train.disc_forward := λ p x, (p * x)%Qc;
  Train.ones_like := λ _, 1%Qc;
  Train.zeros_like := λ _, 0%Qc;
  Train.mse := λ a b, ((a - b) * (a - b))%Qc;
  Train.l1 := λ a b, if bool_decide (a < b)%Qc then (b - a)%Qc else (a - b)%Qc;
  Train.grad_gen_total := λ θ x y _ _ _ m, (θ m + x + y)%Qc;
  Train.grad_disc := λ p x y, (p + x - y)%Qc;
  Train.grad_add := Qcplus;
  Train.clip_coef := λ _ max_norm, max_norm;
  Train.grad_scale := Qcmult;
  Train.adam := λ s p g, ((p - g)%Qc, S s);
  Train.fid_state := fid_sums;
  Train.fid_reset := λ _,
    {| real_sum := 0%Qc; fake_sum := 0%Qc; real_count := 0; fake_count := 0 |};
  Train.fid_update := λ img real st,
    if real
    then {| real_sum := (real_sum st + img)%Qc; fake_sum := fake_sum st;
            real_count := S (real_count st); fake_count := fake_count st |}
    else {| real_sum := real_sum st; fake_sum := (fake_sum st + img)%Qc;
            real_count := real_count st; fake_count := S (fake_count st) |};
  Train.fid_compute := λ st,
    ((real_sum st - fake_sum st) * (real_sum st - fake_sum st))%Qc;
  Train.fid_ready := ready;
  Train.to_unit_range := λ img, (img * (1 / 2) + 1 / 2)%Qc
|}.

(** As the library has it: [compute] asks for two samples of each kind. *)
#[export] Instance torch : Train.Torch :=
  make_torch (λ st, (2 <=? real_count st)%nat && (2 <=? fake_count st)%nat).

(** A hand-made accumulator whose [compute] returns on every state. *)
Definition torch_total : Train.Torch := make_torch (λ _, true).

Definition θ0 : Train.module_name → Qc := λ m,
  match m with
  | Train.G => 1%Qc
  | Train.F => (- 1)%Qc
  | Train.DX => 1%Qc
  | Train.DY => 1%Qc
  end.

Definition fid0 : Train.fid_metric (H := torch) :=
  {| Train.acc := {| real_sum := 0%Qc; fake_sum := 0%Qc;
                     real_count := 0; fake_count := 0 |};
     Train.calls := [] |}.

Definition fid0_total : Train.fid_metric (H := torch_total) :=
  @Train.Build_fid_metric torch_total
    {| real_sum := 0%Qc; fake_sum := 0%Qc; real_count := 0; fake_count := 0 |} [].

Definition cfg (n : Z) : Train.Config := {|
  Train.num_train_epochs := n;
  Train.train_batch_size := 1;
  Train.eval_batch_size := 1;
  Train.seed := 42;
  Train.set_seed := false;
  Train.do_test := true;
  Train.archive_and_terminate_ec2 := false
|}.

Definition fresh : Train.run := {| Train.trace := []; Train.checkpoints := ∅ |}.

(** Validation metrics whose FID over the epochs 1 to 4 is 5, 3, 4, 2. *)
Definition fid4 (e : Z) : Qc :=
  Qc_of_Z (match e with 1 => 5 | 2 => 3 | 3 => 4 | 4 => 2 | _ => 0 end).

Definition val_metrics4 (e : Z) : gmap string Qc := {[ "val/fid_val" := fid4 e ]}.

(** Two validation batches. *)
Definition loader2 : list (Qc * Qc) := [(0%Qc, Qc_of_Z 3); (0%Qc, Qc_of_Z 5)].

End Toy.

(** * Further notions and code

    The slices of [split_indices], the training loop of [perform_epoch],
    and the notions the later properties are stated with. *)

Module Splits.
Import Data.

(** [torch.randperm(n)] returns a permutation of [0, ..., n-1]. *)
Definition randperm_ok `{Runtime} : Prop :=
  ∀ n g, (randperm n g).1 ≡ₚ seq 0 n.

(** The names under which [split_indices] files its three slices. *)
Definition known_split (split : string) : Prop :=
  split = "train" ∨ split = "valid" ∨ split = "test".

(** The slice of a shuffled index list that a split name selects. *)
Definition segment (split : string) (l : list nat) : list nat :=
  let n := length l in
  if bool_decide (split = "train") then take (int_frac 8 n) l
  else if bool_decide (split = "valid") then drop (int_frac 8 n) (take (int_frac 9 n) l)
  else drop (int_frac 9 n) l.

(** Its length, for a list of [n] indices. *)
Definition segment_length (split : string) (n : nat) : nat :=
  if bool_decide (split = "train") then int_frac 8 n
  else if bool_decide (split = "valid") then (int_frac 9 n - int_frac 8 n)%nat
  else (n - int_frac 9 n)%nat.

End Splits.

Module Epoch.
Import Train.

(** [a % b] on two Python ints. *)
Definition py_mod (a b : Z) : result Z :=
  if bool_decide (b = 0) then Raise ZeroDivisionError else Ok (a `mod` b).

(** [enumerate(l)]. *)
Definition enumerate {A} (l : list A) : list (Z * A) :=
  imap (λ i a, (Z.of_nat i, a)) l.

(** The keys the f-string of a log line reads from a metrics record, each
    with [d[k]]. *)
Definition read_keys (d : gmap string Qc) (ks : list string) : result () :=
  for_each (λ _ k, _ ← dict_get d k; Ok ()) ks ().

Definition train_log_keys : list string :=
  ["train/loss_DX"; "train/loss_DY"; "train/loss_gen_total"; "train/loss_g_adv";
   "train/loss_f_adv"; "train/loss_cyc"; "train/loss_id"].

Section Training.

Context `{Torch}.

(** What the training loop of [perform_epoch] works on: the four modules
    with their optimizers, and the records passed to [wandb.log]. *)
Record training : Type := {
  modules : world;
  wandb_log : list (gmap string Qc)
}.

Definition train_step (real_data : image * image) (lambda_adv lambda_cyc lambda_id : Qc)
    (opt_G opt_F opt_DX opt_DY : Adam) : M training (gmap string Qc) := λ s,
  let '(train_metrics, w) :=
    perform_train_step real_data lambda_adv lambda_cyc lambda_id
      opt_G opt_F opt_DX opt_DY (modules s) in
  (Ok train_metrics, {| modules := w; wandb_log := wandb_log s |}).

Definition wandb_log_call (d : gmap string Qc) : M training () := λ s,
  (Ok (), {| modules := modules s; wandb_log := wandb_log s ++ [d] |}).

(** The body of [for batch_no, real_data in enumerate(tqdm(train_loader))]
    in [perform_epoch]. *)
Definition train_batch (steps_for_logging_metrics epoch batches_per_epoch : Z)
    (lambda_adv lambda_cyc lambda_id : Qc) (opt_G opt_F opt_DX opt_DY : Adam)
    (_ : ()) (item : Z * (image * image)) : M training () :=
  let '(batch_no, real_data) := item in
  train_metrics ← train_step real_data lambda_adv lambda_cyc lambda_id
                    opt_G opt_F opt_DX opt_DY;
  r ← liftR (py_mod batch_no steps_for_logging_metrics);
  if bool_decide (r = 0) then
    q ← liftR (true_div (batch_no + 1) batches_per_epoch);
    let epoch_float := (Qc_of_Z epoch + q)%Qc in
    _ ← liftR (read_keys train_metrics train_log_keys);
    wandb_log_call (<["train/epoch_float" := epoch_float]> train_metrics)
  else mret ().

(** Lines "TRAINING" of [perform_epoch]; [steps_for_logging_metrics] is
    [cfg.steps_for_logging_metrics]. *)
Definition train_loop (steps_for_logging_metrics : Z) (train_loader : list (image * image))
    (lambda_adv lambda_cyc lambda_id : Qc) (opt_G opt_F opt_DX opt_DY : Adam)
    (epoch : Z) : M training () :=
  let batches_per_epoch := Z.of_nat (length train_loader) in
  for_each (train_batch steps_for_logging_metrics epoch batches_per_epoch
              lambda_adv lambda_cyc lambda_id opt_G opt_F opt_DX opt_DY)
           (enumerate train_loader) ().

(** ** Notions used to state the properties of the training loop *)

(** The modules after the optimization steps on [batches], in order, and
    the record each of these steps returns. *)
Definition after_steps (lambda_adv lambda_cyc lambda_id : Qc)
    (opt_G opt_F opt_DX opt_DY : Adam) (batches : list (image * image)) (w : world) : world :=
  foldl (λ w b, (perform_train_step b lambda_adv lambda_cyc lambda_id
                   opt_G opt_F opt_DX opt_DY w).2) w batches.

Fixpoint step_records (lambda_adv lambda_cyc lambda_id : Qc)
    (opt_G opt_F opt_DX opt_DY : Adam) (batches : list (image * image)) (w : world)
    : list (gmap string Qc) :=
  match batches with
  | [] => []
  | b :: batches' =>
      let r := perform_train_step b lambda_adv lambda_cyc lambda_id
                 opt_G opt_F opt_DX opt_DY w in
      r.1 :: step_records lambda_adv lambda_cyc lambda_id opt_G opt_F opt_DX opt_DY
               batches' r.2
  end.

End Training.

(** The record passed to [wandb.log] after the step [batch_no], when one
    is. *)
Definition log_entry (steps_for_logging_metrics epoch batches_per_epoch : Z)
    (item : Z * gmap string Qc) : option (gmap string Qc) :=
  let '(batch_no, train_metrics) := item in
  if bool_decide (batch_no `mod` steps_for_logging_metrics = 0) then
    Some (<["train/epoch_float" :=
              (Qc_of_Z epoch + Qc_of_Z (batch_no + 1) / Qc_of_Z batches_per_epoch)%Qc]>
            train_metrics)
  else None.

End Epoch.

Module Notions.
Import Train.

(** The keys of the metrics record of a split. *)
Definition metric_keys (split : string) : list string :=
  (String.app split) <$> ["/loss_DX"; "/loss_DY"; "/loss_f_adv"; "/loss_g_adv";
                         "/loss_cyc"; "/loss_id"; "/loss_gen_total"; "/fid_val"].

(** A computation that adds calls to the trace, none of them one that [P]
    holds of. *)
Definition never_calls {A} (P : event → Prop) (m : M run A) : Prop :=
  ∀ r, ∃ evs, trace (m r).2 = trace r ++ evs ∧ ∀ e, e ∈ evs → ¬ P e.

(** A computation whose only call of [terminate_ec2], if it makes one, is
    its last call, made exactly when it returns and [flag] is set. *)
Definition terminates_last (flag : bool) (m : M run ()) : Prop :=
  ∀ r, ∃ evs,
    trace (m r).2 = trace r ++ evs ∧
    (TerminateEc2 ∈ evs ↔ (m r).1 = Ok () ∧ flag = true) ∧
    (TerminateEc2 ∈ evs → ∃ evs', evs = evs' ++ [TerminateEc2] ∧ TerminateEc2 ∉ evs').

End Notions.

(** * More of the small runtime *)

Module ToyMore.
Import Toy.

(** The image files of [Toy.listing4] in sorted order, and the loader
    [make_unpaired_loader] makes of that directory for the test split: one
    young and one old face. *)
Definition names4 : list string :=
  ["10_0_0_c.jpg"; "25_0_0_a.jpg"; "30_1_2_d.jpg"; "45_1_0_b.jpg"].

Definition test_loader4 : Data.DataLoader :=
  {| Data.part_y := [1%nat]; Data.part_o := [3%nat]; Data.batch_size := 1;
     Data.shuffle := false; Data.drop_last := false |}.



(** A directory of six young and six old faces, and the three loaders
    [prepare_dataset] makes of it. *)
Definition listing12 : list string :=
  ["20_0_0_a.jpg"; "21_1_0_b.jpg"; "22_0_1_c.jpg"; "23_1_2_d.jpg";
   "24_0_3_e.jpg"; "25_1_0_f.jpg"; "40_0_0_g.jpg"; "41_1_0_h.jpg";
   "42_0_1_i.jpg"; "43_1_2_j.jpg"; "44_0_3_k.jpg"; "45_1_0_l.jpg"].

Definition train_loader12 : Data.DataLoader :=
  {| Data.part_y := [0; 1; 2; 3]%nat; Data.part_o := [6; 7; 8; 9]%nat;
     Data.batch_size := 1; Data.shuffle := true; Data.drop_last := true |}.

Definition val_loader12 : Data.DataLoader :=
  {| Data.part_y := [4%nat]; Data.part_o := [10%nat]; Data.batch_size := 1;
     Data.shuffle := false; Data.drop_last := false |}.

Definition test_loader12 : Data.DataLoader :=
  {| Data.part_y := [5%nat]; Data.part_o := [11%nat]; Data.batch_size := 1;
     Data.shuffle := false; Data.drop_last := false |}.

(** The four modules before any step, with the parameters [Toy.θ0]. *)
Definition world0 : Train.world (H := Toy.torch) :=
  {| Train.model := λ m, {| Train.weights := Toy.θ0 m; Train.grad := None |};
     Train.optim := λ _, 0%nat;
     Train.mutations := [] |}.

Definition training0 : Epoch.training (H := Toy.torch) :=
  {| Epoch.modules := world0; Epoch.wandb_log := [] |}.

(** An accumulator that has been used before. *)
Definition fid_used : Train.fid_metric (H := Toy.torch) :=
  {| Train.acc := {| real_sum := Qc_of_Z 5; fake_sum := Qc_of_Z 7;
                     real_count := 3; fake_count := 3 |};
     Train.calls := [Train.CallReset; Train.CallCompute] |}.

(** A configuration that archives the outputs and gives up the instance. *)
Definition cfg_ec2 (n : Z) : Train.Config := {|
  Train.num_train_epochs := n;
  Train.train_batch_size := 1;
  Train.eval_batch_size := 1;
  Train.seed := 42;
  Train.set_seed := true;
  Train.do_test := true;
  Train.archive_and_terminate_ec2 := true
|}.

End ToyMore.

(** * Properties of the data preparation *)

Module DataFacts.
Import Data.

Section Loader.

Context `{Runtime}.

Lemma sorted_nil names : sorted names = [] ↔ names = [].
Proof.
  unfold sorted. split.
  - intros Hs. apply Permutation_nil_r.
    rewrite <- (merge_sort_Permutation String.le names). by rewrite Hs.
  - intros ->. reflexivity.
Qed.

Lemma UTKFace_init_no_files listing :
  glob_jpg listing = [] → UTKFace_init listing = Raise FileNotFoundError.
Proof.
  intros Hg. unfold UTKFace_init. rewrite Hg.
  rewrite bool_decide_eq_true_2; [done | by apply sorted_nil].
Qed.

Lemma UTKFace_init_files listing ds :
  UTKFace_init listing = Ok ds → files ds = sorted (glob_jpg listing) ∧ files ds ≠ [].
Proof.
  unfold UTKFace_init. case_bool_decide as Hn; [done |].
  intros [= <-]. done.
Qed.

Lemma lookup_cons_shift {A} (f0 f : A) fs (i j : nat) :
  (i ≤ j)%nat →
  (f0 :: fs) !! (j - i)%nat = Some f ↔
  (j = i ∧ f = f0) ∨ (S i ≤ j ∧ fs !! (j - S i)%nat = Some f)%nat.
Proof.
  intros Hij. destruct (decide (j = i)) as [-> | Hne].
  - rewrite Nat.sub_diag. simpl. split.
    + intros [= ->]. by left.
    + intros [[_ ->] | [Hlt _]]; [done | lia].
  - replace (j - i)%nat with (S (j - S i)) by lia. simpl. split.
    + intros Hl. right. split; [lia | done].
    + intros [[-> _] | [_ Hl]]; [done | done].
Qed.

(** An index lands in [young_idx] exactly when its age passes the first test
    of the loop, in [old_idx] exactly when it fails the first and passes the
    second. *)
Lemma bucket_loop_spec young_max old_min fs :
  ∀ i young_idx old_idx young_idx' old_idx',
    bucket_loop young_max old_min fs i young_idx old_idx = Ok (young_idx', old_idx') →
    ∀ j,
      (j ∈ young_idx' ↔
         j ∈ young_idx ∨
         ∃ f a, (i ≤ j)%nat ∧ fs !! (j - i)%nat = Some f ∧
                py_int (split_head "_" f) = Some a ∧ a ≤ young_max ∧ 18 ≤ a) ∧
      (j ∈ old_idx' ↔
         j ∈ old_idx ∨
         ∃ f a, (i ≤ j)%nat ∧ fs !! (j - i)%nat = Some f ∧
                py_int (split_head "_" f) = Some a ∧
                ¬ (a ≤ young_max ∧ 18 ≤ a) ∧ old_min ≤ a).
Proof.
  induction fs as [| f0 fs IH]; intros i yi oi yi' oi' Hloop j.
  - simpl in Hloop. injection Hloop as <- <-.
    split; (split; [by left | intros [? | (f & a & _ & Hl & _)]; [done | done]]).
  - simpl in Hloop. unfold age_of in Hloop.
    destruct (py_int (split_head "_" f0)) as [a0 |] eqn:Hage; [| done].
    simpl in Hloop.
    assert (Hshift : ∀ (P : Z → Prop),
      (∃ f a, (i ≤ j)%nat ∧ (f0 :: fs) !! (j - i)%nat = Some f ∧
              py_int (split_head "_" f) = Some a ∧ P a) ↔
      (j = i ∧ P a0) ∨
      (∃ f a, (S i ≤ j)%nat ∧ fs !! (j - S i)%nat = Some f ∧
              py_int (split_head "_" f) = Some a ∧ P a)).
    { intros P. split.
      - intros (f & a & Hij & Hl & Hp & HP).
        apply lookup_cons_shift in Hl; [| done].
        destruct Hl as [[-> ->] | [Hlt Hl]].
        + left. split; [done |]. congruence.
        + right. eauto 10.
      - intros [[-> HP] | (f & a & Hij & Hl & Hp & HP)].
        + exists f0, a0. rewrite Nat.sub_diag. simpl. eauto.
        + exists f, a. split; [lia |]. split; [| done].
          apply lookup_cons_shift; [lia |]. right. done. }
    pose proof (Hshift (λ a, a ≤ young_max ∧ 18 ≤ a)) as Hy.
    pose proof (Hshift (λ a, ¬ (a ≤ young_max ∧ 18 ≤ a) ∧ old_min ≤ a)) as Ho.
    simpl in Hy, Ho. rewrite Hy, Ho. clear Hshift Hy Ho.
    destruct ((a0 <=? young_max) && (a0 >=? 18)) eqn:Hyoung.
    + apply andb_true_iff in Hyoung as [Hle Hge].
      apply Z.leb_le in Hle. apply Z.geb_le in Hge.
      destruct (IH _ _ _ _ _ Hloop j) as [IHy IHo]. rewrite IHy, IHo.
      rewrite elem_of_app, list_elem_of_singleton. split; tauto.
    + assert (Hny : ¬ (a0 ≤ young_max ∧ 18 ≤ a0)).
      { intros [Hle Hge]. apply andb_false_iff in Hyoung as [Hf | Hf].
        - apply Z.leb_gt in Hf. lia.
        - rewrite Z.geb_leb in Hf. apply Z.leb_gt in Hf. lia. }
      destruct (a0 >=? old_min) eqn:Hold.
      * apply Z.geb_le in Hold.
        destruct (IH _ _ _ _ _ Hloop j) as [IHy IHo]. rewrite IHy, IHo.
        rewrite elem_of_app, list_elem_of_singleton. split; tauto.
      * rewrite Z.geb_leb in Hold. apply Z.leb_gt in Hold.
        destruct (IH _ _ _ _ _ Hloop j) as [IHy IHo]. rewrite IHy, IHo.
        split; [tauto | intuition lia].
Qed.

Lemma index_by_subseteq idxs perm l :
  index_by idxs perm = Ok l → l ⊆ idxs.
Proof.
  unfold index_by. destruct (mapM _ perm) as [l' |] eqn:Hm; [| done].
  intros [= <-]. apply mapM_Some in Hm.
  intros x Hx. apply list_elem_of_lookup in Hx as [k Hk].
  destruct (Forall2_lookup_r _ _ _ _ _ Hm Hk) as (p & _ & Hp).
  by apply list_elem_of_lookup_2 in Hp.
Qed.

(** Each part of a split holds indices of the list that was split. *)
Lemma split_indices_subseteq idxs g d g' split part :
  split_indices idxs g = (Ok d, g') →
  dict_get d split = Ok part →
  part ⊆ idxs.
Proof.
  unfold split_indices. destruct (randperm (length idxs) g) as [perm g1].
  destruct (index_by idxs perm) as [sh |] eqn:Hsh; simpl; [| done].
  intros [= <- <-]. apply index_by_subseteq in Hsh.
  unfold dict_get.
  destruct (decide (split = "train")) as [-> | Htrain].
  { rewrite lookup_insert_eq. intros [= <-].
    etrans; [apply subseteq_take | done]. }
  rewrite lookup_insert_ne by done.
  destruct (decide (split = "valid")) as [-> | Hvalid].
  { rewrite lookup_insert_eq. intros [= <-].
    etrans; [apply subseteq_drop |]. etrans; [apply subseteq_take | done]. }
  rewrite lookup_insert_ne by done.
  destruct (decide (split = "test")) as [-> | Htest].
  { rewrite lookup_singleton_eq. intros [= <-].
    etrans; [apply subseteq_drop | done]. }
  rewrite lookup_singleton_ne by done. done.
Qed.

(** What the constructor returns when it returns, and what it asked for. *)
Lemma DataLoader_init_Ok py po bs sh dr dl :
  DataLoader_init py po bs sh dr = Ok dl →
  dl = {| part_y := py; part_o := po; batch_size := bs; shuffle := sh; drop_last := dr |} ∧
  0 < bs ∧
  (sh = true → (0 < Nat.max (length py) (length po))%nat).
Proof.
  unfold DataLoader_init.
  destruct (sh && bool_decide (Nat.max (length py) (length po) = 0%nat)) eqn:Hsh; [done |].
  destruct (bool_decide (bs ≤ 0)) eqn:Hbs; [done |]. intros [= <-].
  apply bool_decide_eq_false in Hbs.
  split; [reflexivity |]. split; [lia |]. intros ->. simpl in Hsh.
  apply bool_decide_eq_false in Hsh. lia.
Qed.

(** A loader that was built reads only indices of the two buckets. *)
Lemma make_unpaired_loader_parts listing split bs seed young_max old_min dl :
  make_unpaired_loader listing split bs seed young_max old_min = Ok dl →
  ∃ ds young_idx old_idx,
    UTKFace_init listing = Ok ds ∧
    bucket_loop young_max old_min (files ds) 0 [] [] = Ok (young_idx, old_idx) ∧
    young_idx ≠ [] ∧ old_idx ≠ [] ∧
    part_y dl ⊆ young_idx ∧ part_o dl ⊆ old_idx.
Proof.
  unfold make_unpaired_loader.
  destruct (UTKFace_init listing) as [ds |] eqn:Hds; simpl; [| done].
  destruct (bucket_loop _ _ _ _ _ _) as [[yi oi] |] eqn:Hb; simpl; [| done].
  case_bool_decide as Hempty; [done |].
  destruct (split_indices yi _) as [dy g1] eqn:Hy.
  destruct dy as [dy |]; simpl; [| done].
  destruct (dict_get dy split) as [py |] eqn:Hpy; simpl; [| done].
  destruct (split_indices oi g1) as [do g2] eqn:Ho.
  destruct do as [do |]; simpl; [| done].
  destruct (dict_get do split) as [po |] eqn:Hpo; simpl; [| done].
  intros Hdl. apply DataLoader_init_Ok in Hdl as [-> _]. simpl. exists ds, yi, oi.
  split_and!; [done | done | tauto | tauto | |].
  - etrans; [apply subseteq_take |]. eapply split_indices_subseteq; eauto.
  - etrans; [apply subseteq_take |]. eapply split_indices_subseteq; eauto.
Qed.

(** When a bucket is empty no loader is built. *)
Lemma make_unpaired_loader_empty_bucket listing split bs seed young_max old_min
    ds young_idx old_idx :
  UTKFace_init listing = Ok ds →
  bucket_loop young_max old_min (files ds) 0 [] [] = Ok (young_idx, old_idx) →
  young_idx = [] ∨ old_idx = [] →
  make_unpaired_loader listing split bs seed young_max old_min = Raise ValueError.
Proof.
  intros Hds Hb Hempty. unfold make_unpaired_loader.
  rewrite Hds. simpl. rewrite Hb. simpl.
  by rewrite bool_decide_eq_true_2.
Qed.

Lemma make_unpaired_loader_no_files listing split bs seed young_max old_min :
  glob_jpg listing = [] →
  make_unpaired_loader listing split bs seed young_max old_min = Raise FileNotFoundError.
Proof.
  intros Hg. unfold make_unpaired_loader.
  by rewrite (UTKFace_init_no_files _ Hg).
Qed.

(** C10. With the default thresholds, the image at index [i] whose name
    parses to age [a] is in the young bucket iff [18 <= a <= 28] and in the
    old bucket iff [a >= 40]; when [a < 18] or [28 < a < 40] no loader, for
    any split, reads index [i]. *)
Theorem age_buckets listing ds young_idx old_idx (i : nat) f a :
  UTKFace_init listing = Ok ds →
  bucket_loop default_young_max default_old_min (files ds) 0 [] []
    = Ok (young_idx, old_idx) →
  files ds !! i = Some f →
  py_int (split_head "_" f) = Some a →
  (i ∈ young_idx ↔ 18 ≤ a ≤ 28) ∧
  (i ∈ old_idx ↔ 40 ≤ a) ∧
  (a < 18 ∨ (28 < a ∧ a < 40) →
   ∀ split bs seed dl,
     make_unpaired_loader listing split bs seed default_young_max default_old_min
       = Ok dl →
     (i ∉ part_y dl) ∧ (i ∉ part_o dl)).
Proof.
  intros Hds Hb Hf Ha.
  destruct (bucket_loop_spec _ _ _ _ _ _ _ _ Hb i) as [Hy Ho].
  unfold default_young_max, default_old_min in *.
  assert (Hyoung : i ∈ young_idx ↔ 18 ≤ a ≤ 28).
  { rewrite Hy. split.
    - intros [Hin | (f' & a' & _ & Hl & Hp & Hle & Hge)]; [by apply elem_of_nil in Hin |].
      rewrite Nat.sub_0_r in Hl. simplify_eq. lia.
    - intros [Hge Hle]. right. exists f, a. rewrite Nat.sub_0_r.
      repeat split; [lia | done | done | done | done]. }
  assert (Hold : i ∈ old_idx ↔ 40 ≤ a).
  { rewrite Ho. split.
    - intros [Hin | (f' & a' & _ & Hl & Hp & _ & Hge)]; [by apply elem_of_nil in Hin |].
      rewrite Nat.sub_0_r in Hl. simplify_eq. lia.
    - intros Hge. right. exists f, a. rewrite Nat.sub_0_r.
      repeat split; [lia | done | done | lia | done]. }
  split; [done |]. split; [done |].
  intros Hout split bs seed dl Hdl.
  apply make_unpaired_loader_parts in Hdl
    as (ds' & yi' & oi' & Hds' & Hb' & _ & _ & Hpy & Hpo).
  assert (ds' = ds) as -> by congruence.
  assert (yi' = young_idx ∧ oi' = old_idx) as [-> ->] by (split; congruence).
  split.
  - intros Hin. apply Hpy, Hyoung in Hin. lia.
  - intros Hin. apply Hpo, Hold in Hin. lia.
Qed.

End Loader.

Lemma age_buckets_witness :
  (2%nat ∈ [1%nat] ↔ 18 ≤ 30 ≤ 28) ∧
  (2%nat ∈ [3%nat] ↔ 40 ≤ 30) ∧
  (30 < 18 ∨ (28 < 30 ∧ 30 < 40) →
   ∀ split bs seed dl,
     make_unpaired_loader (H := Toy.runtime) Toy.listing4 split bs seed
       default_young_max default_old_min = Ok dl →
     (2%nat ∉ part_y dl) ∧ (2%nat ∉ part_o dl)).
Proof.
  apply (age_buckets (H := Toy.runtime) Toy.listing4 Toy.files4 [1%nat] [3%nat] 2
           "30_1_2_d.jpg" 30).
  - vm_compute. reflexivity.
  - vm_compute. reflexivity.
  - reflexivity.
  - reflexivity.
Defined.

End DataFacts.

(** * Properties of the training code *)

Module TrainFacts.
Import Train.

(** ** The schedule *)

Lemma py_max_mono (a b c : Qc) : (b ≤ c)%Qc → (py_max a b ≤ py_max a c)%Qc.
Proof.
  intros Hbc. unfold py_max. repeat case_bool_decide.
  - done.
  - exfalso. eauto using Qclt_le_trans.
  - by apply Qclt_le_weak.
  - done.
Qed.

Lemma start_decay_below (N : Z) : 1 ≤ N → 0 < N - N `div` 2.
Proof. intros HN. assert (N `div` 2 < N) by (apply Z.div_lt; lia). lia. Qed.

Lemma float_overflow_large : 2 ≤ float_overflow.
Proof. by vm_compute. Qed.

(** A quotient of magnitude at most 1 is a float. *)
Lemma true_div_small (a b : Z) :
  b ≠ 0 → Z.abs a ≤ Z.abs b → true_div a b = Ok (Qc_of_Z a / Qc_of_Z b)%Qc.
Proof.
  intros Hb Hab. unfold true_div.
  rewrite bool_decide_eq_false_2 by done.
  rewrite bool_decide_eq_false_2; [done |].
  pose proof float_overflow_large as Hlarge.
  assert (2 * Z.abs b ≤ float_overflow * Z.abs b)
    by (apply Z.mul_le_mono_nonneg_r; lia).
  lia.
Qed.

(** From the middle of the run on, the multiplier is the clamped ratio, as
    long as the ratio is a float. *)
Lemma lr_lambda_decay_float (N e : Z) :
  1 ≤ N → N `div` 2 ≤ e →
  Z.abs (N - e) < float_overflow * (N - N `div` 2) →
  _lr_lambda N e
    = Ok (py_max 0%Qc (Qc_of_Z (N - e) / Qc_of_Z (N - N `div` 2))%Qc).
Proof.
  intros HN He Hfloat. pose proof (start_decay_below N HN) as Hpos.
  unfold _lr_lambda, true_div.
  rewrite bool_decide_eq_false_2 by lia.
  rewrite bool_decide_eq_false_2 by lia.
  rewrite bool_decide_eq_false_2 by (rewrite (Z.abs_eq (N - N `div` 2)); lia).
  reflexivity.
Qed.

Lemma ratio_in_run (N e : Z) :
  1 ≤ N → N `div` 2 ≤ e ≤ N →
  Z.abs (N - e) < float_overflow * (N - N `div` 2).
Proof.
  intros HN He. pose proof (start_decay_below N HN) as Hpos.
  pose proof float_overflow_large as Hlarge.
  assert (2 * (N - N `div` 2) ≤ float_overflow * (N - N `div` 2))
    by (apply Z.mul_le_mono_nonneg_r; lia).
  lia.
Qed.

(** Within the run it is. *)
Lemma lr_lambda_decay (N e : Z) :
  1 ≤ N → N `div` 2 ≤ e ≤ N →
  _lr_lambda N e
    = Ok (py_max 0%Qc (Qc_of_Z (N - e) / Qc_of_Z (N - N `div` 2))%Qc).
Proof.
  intros HN He. apply lr_lambda_decay_float; [done | lia | by apply ratio_in_run].
Qed.

(** For a run of at least one epoch the four schedulers are built: the call
    of the closure at epoch 0 returns. *)
Lemma make_schedulers_Ok (N : Z) :
  1 ≤ N →
  make_schedulers N
    = Ok ({| optimizer := G; lr_lambda := _lr_lambda N |},
          {| optimizer := F; lr_lambda := _lr_lambda N |},
          {| optimizer := DX; lr_lambda := _lr_lambda N |},
          {| optimizer := DY; lr_lambda := _lr_lambda N |}).
Proof.
  intros HN.
  assert (H0 : ∃ q, _lr_lambda N 0 = Ok q).
  { destruct (decide (0 < N `div` 2)) as [Hhalf | Hhalf].
    - exists 1%Qc. unfold _lr_lambda. by rewrite bool_decide_eq_true_2.
    - eexists. apply lr_lambda_decay; [done |].
      assert (0 ≤ N `div` 2) by (apply Z.div_pos; lia). lia. }
  destruct H0 as [q Hq]. unfold make_schedulers, LambdaLR_init.
  rewrite Hq. reflexivity.
Qed.

(** C5. For a run of [N] epochs and an epoch index in [1, N]: the multiplier
    is exactly 1 while [epoch < N // 2]; from [N // 2] on it never increases
    with the epoch; at [epoch = N] it is exactly 0; and the four schedulers
    are built and all hold this one function. *)
Theorem lr_schedule (N epoch : Z) :
  1 ≤ epoch ≤ N →
  (epoch < N `div` 2 → _lr_lambda N epoch = Ok 1%Qc) ∧
  (N `div` 2 ≤ epoch →
   ∀ later, epoch ≤ later ≤ N →
     ∃ q q', _lr_lambda N epoch = Ok q ∧ _lr_lambda N later = Ok q' ∧ (q' ≤ q)%Qc) ∧
  _lr_lambda N N = Ok 0%Qc ∧
  (∃ sched_G sched_F sched_DX sched_DY,
     make_schedulers N = Ok (sched_G, sched_F, sched_DX, sched_DY) ∧
     lr_lambda sched_G = _lr_lambda N ∧ lr_lambda sched_F = _lr_lambda N ∧
     lr_lambda sched_DX = _lr_lambda N ∧ lr_lambda sched_DY = _lr_lambda N).
Proof.
  intros [Hlo Hhi]. assert (HN : 1 ≤ N) by lia.
  pose proof (start_decay_below N HN) as Hpos.
  split_and!.
  - intros Hfirst. unfold _lr_lambda. by rewrite bool_decide_eq_true_2.
  - intros Hsecond later [Hl1 Hl2].
    eexists _, _. split; [apply lr_lambda_decay; [done | lia] |].
    split; [apply lr_lambda_decay; [done | lia] |].
    apply py_max_mono. unfold Qcdiv.
    apply Qcmult_le_mono_nonneg_r.
    + apply Qclt_le_weak, Qcinv_pos.
      rewrite <- Z2Qc_inj_0. apply (proj1 (Z2Qc_inj_lt _ _)). exact Hpos.
    + apply (proj1 (Z2Qc_inj_le _ _)). lia.
  - rewrite lr_lambda_decay by (try done; assert (N `div` 2 < N) by (apply Z.div_lt; lia); lia).
    rewrite Z.sub_diag, Z2Qc_inj_0. unfold Qcdiv. rewrite Qcmult_0_l.
    unfold py_max. rewrite bool_decide_eq_false_2; [done |].
    apply Qcle_not_lt, Qcle_refl.
  - eexists _, _, _, _. split; [by apply make_schedulers_Ok |]. done.
Qed.

Lemma lr_schedule_witness :
  (3 < 10 `div` 2 → _lr_lambda 10 3 = Ok 1%Qc) ∧
  (10 `div` 2 ≤ 3 →
   ∀ later, 3 ≤ later ≤ 10 →
     ∃ q q', _lr_lambda 10 3 = Ok q ∧ _lr_lambda 10 later = Ok q' ∧ (q' ≤ q)%Qc) ∧
  _lr_lambda 10 10 = Ok 0%Qc ∧
  (∃ sched_G sched_F sched_DX sched_DY,
     make_schedulers 10 = Ok (sched_G, sched_F, sched_DX, sched_DY) ∧
     lr_lambda sched_G = _lr_lambda 10 ∧ lr_lambda sched_F = _lr_lambda 10 ∧
     lr_lambda sched_DX = _lr_lambda 10 ∧ lr_lambda sched_DY = _lr_lambda 10).
Proof. apply (lr_schedule 10 3). lia. Defined.

(** ** The optimization step *)

Section Step.

Context `{Torch}.

Lemma model_zero_grad_ne opt (w : world) m :
  param_group opt ≠ m → model (zero_grad opt w) m = model w m.
Proof. intros Hne. unfold zero_grad, set_model. simpl. by rewrite fn_lookup_insert_ne. Qed.

(** Clearing gradients, backpropagation and clipping write [.grad] only. *)
Lemma weights_zero_grad opt (w : world) m :
  weights (model (zero_grad opt w) m) = weights (model w m).
Proof.
  unfold zero_grad, set_model. simpl.
  destruct (decide (param_group opt = m)) as [<- | Hne].
  - by rewrite fn_lookup_insert.
  - by rewrite fn_lookup_insert_ne.
Qed.

Lemma weights_backward loss d (w : world) m :
  weights (model (backward loss d w) m) = weights (model w m).
Proof. unfold backward. simpl. by case_bool_decide. Qed.

Lemma weights_clip ms max_norm (w : world) m :
  weights (model (clip_grad_norm_ ms max_norm w) m) = weights (model w m).
Proof. unfold clip_grad_norm_. simpl. by case_bool_decide. Qed.

Lemma model_backward_out loss d (w : world) m :
  m ∉ graph loss → model (backward loss d w) m = model w m.
Proof. intros Hm. unfold backward. simpl. by rewrite bool_decide_eq_false_2. Qed.

Lemma model_clip_out ms max_norm (w : world) m :
  m ∉ ms → model (clip_grad_norm_ ms max_norm w) m = model w m.
Proof. intros Hm. unfold clip_grad_norm_. simpl. by rewrite bool_decide_eq_false_2. Qed.

Lemma grad_backward_in loss d (w : world) m :
  m ∈ graph loss → is_Some (grad (model (backward loss d w) m)).
Proof. intros Hm. unfold backward. simpl. rewrite bool_decide_eq_true_2 by done. simpl. eauto. Qed.

Lemma grad_clip_Some ms max_norm (w : world) m :
  is_Some (grad (model w m)) → is_Some (grad (model (clip_grad_norm_ ms max_norm w) m)).
Proof.
  intros [g Hg]. unfold clip_grad_norm_. simpl.
  case_bool_decide; simpl; rewrite Hg; simpl; eauto.
Qed.

(** One [step] of an optimizer whose module has a gradient: that module is
    written once with one Adam update, every other module is left as it
    was. *)
Lemma step_spec opt (w : world) :
  is_Some (grad (model w (param_group opt))) →
  ∃ g,
    mutations (step opt w) = mutations w ++ [param_group opt] ∧
    weights (model (step opt w) (param_group opt))
      = (adam (optim w (param_group opt)) (weights (model w (param_group opt))) g).1 ∧
    is_Some (grad (model (step opt w) (param_group opt))) ∧
    (∀ m, m ≠ param_group opt →
          model (step opt w) m = model w m ∧ optim (step opt w) m = optim w m).
Proof.
  intros [g Hg]. exists g. unfold step. rewrite Hg.
  destruct (adam _ _ g) as [p s] eqn:Hadam. simpl.
  rewrite fn_lookup_insert. simpl. split_and!; [done | done | eauto |].
  intros m Hm. by rewrite !fn_lookup_insert_ne.
Qed.

Lemma mutations_zero_grad opt (w : world) : mutations (zero_grad opt w) = mutations w.
Proof. done. Qed.

Lemma optim_zero_grad opt (w : world) : optim (zero_grad opt w) = optim w.
Proof. done. Qed.

(** The generator phase: the total loss is the one of the parameters at
    entry; [G] then [F] are written, each by one Adam update of its entry
    value; the discriminators keep their parameters. *)
Lemma update_generators_spec real_data lambda_adv lambda_cyc lambda_id (w : world) :
  let opt_G := initialize_optimizers.1.1.1 in
  let opt_F := initialize_optimizers.1.1.2 in
  let r := update_generators opt_G opt_F real_data lambda_adv lambda_cyc lambda_id w in
  data (loss_gen_total r.1)
    = b_loss_gen_total
        (forward_losses (current_weights w) lambda_adv lambda_cyc lambda_id real_data) ∧
  mutations r.2 = mutations w ++ [G; F] ∧
  (∀ m, m = G ∨ m = F →
     ∃ g, current_weights r.2 m = (adam (optim w m) (current_weights w m) g).1) ∧
  (∀ m, m = DX ∨ m = DY →
     current_weights r.2 m = current_weights w m ∧ optim r.2 m = optim w m).
Proof.
  destruct real_data as [x y].
  intros opt_G opt_F r. subst opt_G opt_F r.
  unfold update_generators. cbn [initialize_optimizers fst snd]. 
  set (w0 := zero_grad {| param_group := F |} (zero_grad {| param_group := G |} w)).
  match goal with
  | |- context [backward ?l ?d w0] => set (loss := l); set (w1 := backward loss d w0)
  end.
  set (w2 := clip_grad_norm_ [G; F] 1%Qc w1).
  set (w3 := step {| param_group := G |} w2).
  set (w4 := step {| param_group := F |} w3).
  cbn [fst snd loss_gen_total].
  assert (Hw0 : ∀ m, weights (model w0 m) = weights (model w m)).
  { intros m. unfold w0. by rewrite !weights_zero_grad. }
  assert (Hw2 : ∀ m, weights (model w2 m) = weights (model w m)).
  { intros m. unfold w2, w1. by rewrite weights_clip, weights_backward. }
  assert (HG : G ∈ graph loss) by (apply list_elem_of_In; cbn; tauto).
  assert (HF : F ∈ graph loss) by (apply list_elem_of_In; cbn; tauto).
  destruct (step_spec {| param_group := G |} w2) as (gG & HmG & HwG & _ & HoG).
  { apply grad_clip_Some, grad_backward_in, HG. }
  destruct (step_spec {| param_group := F |} w3) as (gF & HmF & HwF & _ & HoF).
  { cbn [param_group] in *. unfold w3. rewrite (proj1 (HoG F ltac:(done))).
    apply grad_clip_Some, grad_backward_in, HF. }
  cbn [param_group] in *. fold w3 in HmG, HwG, HoG. fold w4 in HmF, HwF, HoF.
  split_and!.
  - unfold loss. clear -Hw0. clearbody w0. cbn. unfold current_weights.
    rewrite !Hw0. reflexivity.
  - rewrite HmF, HmG. by rewrite <- app_assoc.
  - intros m [-> | ->]; unfold current_weights.
    + exists gG. rewrite (proj1 (HoF G ltac:(done))), HwG, Hw2. done.
    + exists gF. rewrite HwF, (proj1 (HoG F ltac:(done))), Hw2.
      rewrite (proj2 (HoG F ltac:(done))). done.
  - intros m Hm. unfold current_weights.
    rewrite (proj1 (HoF m ltac:(by destruct Hm as [-> | ->]))).
    rewrite (proj2 (HoF m ltac:(by destruct Hm as [-> | ->]))).
    rewrite (proj1 (HoG m ltac:(by destruct Hm as [-> | ->]))).
    rewrite (proj2 (HoG m ltac:(by destruct Hm as [-> | ->]))).
    rewrite Hw2. done.
Qed.

(** One discriminator update on real images and a fake tensor, whatever the
    graph of the fake tensor reaches: [D] is written once by one Adam
    update; no other module is touched, neither its parameters nor its
    gradient. *)
Lemma update_discriminator_spec D (x : image) (fake : tensor image) (w : world) :
  let r := update_discriminator D {| param_group := D |} (input x) fake w in
  mutations r.2 = mutations w ++ [D] ∧
  (∃ g, current_weights r.2 D = (adam (optim w D) (current_weights w D) g).1) ∧
  (∀ m, m ≠ D → model r.2 m = model w m ∧ optim r.2 m = optim w m).
Proof.
  intros r. subst r. unfold update_discriminator.
  set (w0 := zero_grad {| param_group := D |} w).
  match goal with
  | |- context [backward ?l ?d w0] => set (loss := l); set (w1 := backward loss d w0)
  end.
  set (w2 := clip_grad_norm_ [D] 1%Qc w1).
  set (w3 := step {| param_group := D |} w2).
  cbn [fst snd].
  assert (Hgraph : graph loss = [D; D]) by reflexivity.
  destruct (step_spec {| param_group := D |} w2) as (g & Hm & Hw & _ & Ho).
  { apply grad_clip_Some, grad_backward_in. rewrite Hgraph. apply list_elem_of_here. }
  cbn [param_group] in *. fold w3 in Hm, Hw, Ho.
  split_and!.
  - by rewrite Hm.
  - exists g. unfold current_weights. rewrite Hw.
    unfold w2, w1, w0. by rewrite weights_clip, weights_backward, weights_zero_grad.
  - intros m Hne. destruct (Ho m Hne) as [-> ->]. split; [| done].
    unfold w2, w1. rewrite model_clip_out, model_backward_out.
    + unfold w0. by apply model_zero_grad_ne.
    + rewrite Hgraph. rewrite !elem_of_cons. intros [-> | [-> | Hnil]]; [done | done |].
      by apply elem_of_nil in Hnil.
    + rewrite list_elem_of_singleton. done.
Qed.

(** C3. One optimization step with the optimizers of
    [initialize_optimizers]: the total generator loss it reports is the one
    computed from the four parameter sets as they were at entry, so from the
    discriminators before this step updates them; the parameter sets are
    written in the order G, F, DX, DY and each exactly once; and each ends
    one Adam update away from its value at entry. *)
Theorem train_step_order (w : world) (x y : image) (lambda_adv lambda_cyc lambda_id : Qc) :
  let opt_G := initialize_optimizers.1.1.1 in
  let opt_F := initialize_optimizers.1.1.2 in
  let opt_DX := initialize_optimizers.1.2 in
  let opt_DY := initialize_optimizers.2 in
  let r := perform_train_step (x, y) lambda_adv lambda_cyc lambda_id
             opt_G opt_F opt_DX opt_DY w in
  r.1 !! "train/loss_gen_total"
    = Some (b_loss_gen_total
              (forward_losses (current_weights w) lambda_adv lambda_cyc lambda_id (x, y))) ∧
  mutations r.2 = mutations w ++ [G; F; DX; DY] ∧
  (∀ m, ∃ g, current_weights r.2 m = (adam (optim w m) (current_weights w m) g).1).
Proof.
  intros opt_G opt_F opt_DX opt_DY r. subst opt_G opt_F opt_DX opt_DY r.
  cbn [initialize_optimizers fst snd]. unfold perform_train_step.
  pose proof (update_generators_spec (x, y) lambda_adv lambda_cyc lambda_id w) as Hgen.
  cbn [initialize_optimizers fst snd] in Hgen.
  destruct (update_generators _ _ _ _ _ _ w) as [gp w1].
  cbn [fst snd] in Hgen. destruct Hgen as (Hloss & Hmut1 & Hgen & Hdisc).
  unfold update_discriminators. cbn [fst snd].
  pose proof (update_discriminator_spec DX x (fake_x gp) w1) as HDX.
  destruct (update_discriminator DX _ _ _ w1) as [loss_DX w2].
  cbn [fst snd] in HDX. destruct HDX as (Hmut2 & [gDX HwDX] & HoDX).
  pose proof (update_discriminator_spec DY y (fake_y gp) w2) as HDY.
  destruct (update_discriminator DY _ _ _ w2) as [loss_DY w3].
  cbn [fst snd] in HDY. destruct HDY as (Hmut3 & [gDY HwDY] & HoDY).
  cbn [fst snd]. split_and!.
  - rewrite <- Hloss. by simplify_map_eq.
  - rewrite Hmut3, Hmut2, Hmut1. by rewrite <- !app_assoc.
  - intros m. unfold current_weights in *. destruct m.
    + destruct (Hgen G) as [g Hg]; [by left |]. exists g.
      rewrite (proj1 (HoDY G ltac:(done))), (proj1 (HoDX G ltac:(done))). done.
    + destruct (Hgen F) as [g Hg]; [by right |]. exists g.
      rewrite (proj1 (HoDY F ltac:(done))), (proj1 (HoDX F ltac:(done))). done.
    + exists gDX. rewrite (proj1 (HoDY DX ltac:(done))), HwDX.
      destruct (Hdisc DX) as [-> ->]; [by left |]. done.
    + exists gDY. rewrite HwDY.
      rewrite (proj1 (HoDX DY ltac:(done))), (proj2 (HoDX DY ltac:(done))).
      destruct (Hdisc DY) as [-> ->]; [by right |]. done.
Qed.

(** C4. The discriminator phase, run with the optimizers of
    [initialize_optimizers] on any fake tensors, leaves both generators as
    they were before it: same parameters, and same gradients as well. *)
Theorem discriminator_phase_keeps_generators (w : world) (x y : image)
    (fake_x fake_y : tensor image) :
  let opt_DX := initialize_optimizers.1.2 in
  let opt_DY := initialize_optimizers.2 in
  let w' := (update_discriminators opt_DX opt_DY (x, y) fake_x fake_y w).2 in
  current_weights w' G = current_weights w G ∧
  current_weights w' F = current_weights w F ∧
  model w' G = model w G ∧ model w' F = model w F.
Proof.
  intros opt_DX opt_DY w'. subst opt_DX opt_DY w'.
  cbn [initialize_optimizers fst snd]. unfold update_discriminators. cbn [fst snd].
  pose proof (update_discriminator_spec DX x fake_x w) as HDX.
  destruct (update_discriminator DX _ _ _ w) as [loss_DX w1].
  cbn [fst snd] in HDX. destruct HDX as (_ & _ & HoDX).
  pose proof (update_discriminator_spec DY y fake_y w1) as HDY.
  destruct (update_discriminator DY _ _ _ w1) as [loss_DY w2].
  cbn [fst snd] in HDY. destruct HDY as (_ & _ & HoDY).
  cbn [fst snd]. unfold current_weights.
  rewrite (proj1 (HoDY G ltac:(done))), (proj1 (HoDX G ltac:(done))).
  rewrite (proj1 (HoDY F ltac:(done))), (proj1 (HoDX F ltac:(done))).
  done.
Qed.

End Step.

(** ** The evaluation pass *)

Section Evaluate.
Context `{Torch}.

Lemma initial_metrics_split split :
  initial_metrics split = split_metrics split 0 0 0 0 0 0 0 0.
Proof.
  unfold split_metrics, suffix_metrics, initial_metrics.
  rewrite !kmap_insert, kmap_singleton; [done | apply _ ..].
Qed.

Lemma dict_iadd_split split (b : gmap string Qc) s v :
  dict_iadd (kmap (String.app split) b) (split +:+ s) v
    = match dict_iadd b s v with
      | Ok b' => Ok (kmap (String.app split) b')
      | Raise e => Raise e
      end.
Proof.
  unfold dict_iadd, dict_get. simpl. rewrite lookup_kmap by apply _.
  destruct (b !! s) as [old |]; simpl; [| done].
  rewrite kmap_insert; [done | apply _].
Qed.

Ltac iadd_split :=
  unfold split_metrics; rewrite dict_iadd_split; reflexivity.

Lemma iadd_loss_DX split a1 a2 a3 a4 a5 a6 a7 a8 v :
  dict_iadd (split_metrics split a1 a2 a3 a4 a5 a6 a7 a8) (split +:+ "/loss_DX") v
    = Ok (split_metrics split (a1 + v) a2 a3 a4 a5 a6 a7 a8).
Proof. iadd_split. Qed.

Lemma iadd_loss_DY split a1 a2 a3 a4 a5 a6 a7 a8 v :
  dict_iadd (split_metrics split a1 a2 a3 a4 a5 a6 a7 a8) (split +:+ "/loss_DY") v
    = Ok (split_metrics split a1 (a2 + v) a3 a4 a5 a6 a7 a8).
Proof. iadd_split. Qed.

Lemma iadd_loss_f_adv split a1 a2 a3 a4 a5 a6 a7 a8 v :
  dict_iadd (split_metrics split a1 a2 a3 a4 a5 a6 a7 a8) (split +:+ "/loss_f_adv") v
    = Ok (split_metrics split a1 a2 (a3 + v) a4 a5 a6 a7 a8).
Proof. iadd_split. Qed.

Lemma iadd_loss_g_adv split a1 a2 a3 a4 a5 a6 a7 a8 v :
  dict_iadd (split_metrics split a1 a2 a3 a4 a5 a6 a7 a8) (split +:+ "/loss_g_adv") v
    = Ok (split_metrics split a1 a2 a3 (a4 + v) a5 a6 a7 a8).
Proof. iadd_split. Qed.

Lemma iadd_loss_cyc split a1 a2 a3 a4 a5 a6 a7 a8 v :
  dict_iadd (split_metrics split a1 a2 a3 a4 a5 a6 a7 a8) (split +:+ "/loss_cyc") v
    = Ok (split_metrics split a1 a2 a3 a4 (a5 + v) a6 a7 a8).
Proof. iadd_split. Qed.

Lemma iadd_loss_id split a1 a2 a3 a4 a5 a6 a7 a8 v :
  dict_iadd (split_metrics split a1 a2 a3 a4 a5 a6 a7 a8) (split +:+ "/loss_id") v
    = Ok (split_metrics split a1 a2 a3 a4 a5 (a6 + v) a7 a8).
Proof. iadd_split. Qed.

Lemma iadd_loss_gen_total split a1 a2 a3 a4 a5 a6 a7 a8 v :
  dict_iadd (split_metrics split a1 a2 a3 a4 a5 a6 a7 a8) (split +:+ "/loss_gen_total") v
    = Ok (split_metrics split a1 a2 a3 a4 a5 a6 (a7 + v) a8).
Proof. iadd_split. Qed.

Lemma evaluate_batch_split θ split la lc li a1 a2 a3 a4 a5 a6 a7 a8 n batch f :
  let ls := forward_losses θ la lc li batch in
  evaluate_batch θ split la lc li (split_metrics split a1 a2 a3 a4 a5 a6 a7 a8, n) batch f
    = (Ok (split_metrics split
             (a1 + b_loss_DX ls) (a2 + b_loss_DY ls) (a3 + b_loss_f_adv ls)
             (a4 + b_loss_g_adv ls) (a5 + b_loss_cyc ls) (a6 + b_loss_id ls)
             (a7 + b_loss_gen_total ls) a8, n + 1),
       {| acc := fid_batch θ (acc f) batch;
          calls := calls f ++ [CallUpdate true; CallUpdate false] |}).
Proof.
  intros ls. unfold evaluate_batch.
  fold ls. generalize ls. clear ls. intros ls.
  unfold mbind, M_bind, fid_metric_update, liftR. simpl.
  rewrite iadd_loss_DX, iadd_loss_DY, iadd_loss_f_adv, iadd_loss_g_adv,
    iadd_loss_cyc, iadd_loss_id, iadd_loss_gen_total.
  unfold mret, M_ret, fid_batch. by rewrite <- app_assoc.
Qed.

(** The loop over the batches: every loss key grows by the sum of that loss
    over the batches, the batch count by their number, and the accumulator
    receives one real and one generated update per batch, in order. *)
Lemma evaluate_loop θ split la lc li loader :
  ∀ a1 a2 a3 a4 a5 a6 a7 a8 n f,
    let ls := forward_losses θ la lc li <$> loader in
    for_each (evaluate_batch θ split la lc li) loader
      (split_metrics split a1 a2 a3 a4 a5 a6 a7 a8, n) f
    = (Ok (split_metrics split
             (a1 + total_loss b_loss_DX ls) (a2 + total_loss b_loss_DY ls)
             (a3 + total_loss b_loss_f_adv ls) (a4 + total_loss b_loss_g_adv ls)
             (a5 + total_loss b_loss_cyc ls) (a6 + total_loss b_loss_id ls)
             (a7 + total_loss b_loss_gen_total ls) a8,
           n + Z.of_nat (length loader)),
       {| acc := foldl (fid_batch θ) (acc f) loader;
          calls := calls f ++ batch_calls loader |}).
Proof.
  induction loader as [| batch loader IH]; intros a1 a2 a3 a4 a5 a6 a7 a8 n f ls.
  - subst ls. simpl. unfold total_loss, mret, M_ret, batch_calls. simpl.
    rewrite !Qcplus_0_r, Z.add_0_r, app_nil_r. by destruct f.
  - subst ls. cbn [for_each]. unfold mbind at 1. unfold M_bind.
    rewrite evaluate_batch_split. cbn zeta. rewrite IH. cbn [acc calls].
    unfold total_loss, batch_calls. simpl.
    rewrite <- !Qcplus_assoc, <- !app_assoc. simpl.
    replace (n + Z.of_nat (S (length loader))) with (n + 1 + Z.of_nat (length loader)) by lia.
    reflexivity.
Qed.

Lemma insert_fid_val split a1 a2 a3 a4 a5 a6 a7 a8 v :
  <[split +:+ "/fid_val" := v]> (split_metrics split a1 a2 a3 a4 a5 a6 a7 a8)
    = split_metrics split a1 a2 a3 a4 a5 a6 a7 v.
Proof. unfold split_metrics. rewrite <- kmap_insert by apply _. reflexivity. Qed.

(** The block under [torch.no_grad()]: the accumulator is reset, updated
    batch by batch, and read once. The only call in it that can raise is
    that of [compute]; when it returns, the block leaves the sums of the
    seven losses, the computed FID under its key, and the number of
    batches. *)
Lemma accumulate_epoch_spec θ loader split la lc li f :
  let ls := forward_losses θ la lc li <$> loader in
  let st := foldl (fid_batch θ) (fid_reset (acc f)) loader in
  accumulate_epoch θ loader split la lc li f
    = (if fid_ready st then
         Ok (split_metrics split
               (total_loss b_loss_DX ls) (total_loss b_loss_DY ls)
               (total_loss b_loss_f_adv ls) (total_loss b_loss_g_adv ls)
               (total_loss b_loss_cyc ls) (total_loss b_loss_id ls)
               (total_loss b_loss_gen_total ls) (fid_compute st),
             Z.of_nat (length loader))
       else Raise RuntimeError,
       {| acc := st;
          calls := calls f ++ [CallReset] ++ batch_calls loader ++ [CallCompute] |}).
Proof.
  intros ls st. unfold accumulate_epoch.
  unfold mbind at 1. unfold M_bind, fid_metric_reset.
  unfold mbind at 1. unfold M_bind.
  rewrite initial_metrics_split, evaluate_loop.
  unfold mbind, M_bind, fid_metric_compute, mret, M_ret. cbn [acc calls].
  fold st. destruct (fid_ready st).
  - rewrite insert_fid_val, !Qcplus_0_l, Z.add_0_l.
    by rewrite <- !app_assoc.
  - by rewrite <- !app_assoc.
Qed.

Lemma average_loop (n : Z) (ks : list string) :
  n ≠ 0 → NoDup ks →
  ∀ m : gmap string Qc,
    (∀ k, k ∈ ks → is_Some (m !! k)) →
    ∃ m' : gmap string Qc,
      for_each (dict_idiv n) ks m = Ok m' ∧
      ∀ k, m' !! k = if decide (k ∈ ks) then (λ v, v / Qc_of_Z n)%Qc <$> m !! k
                     else m !! k.
Proof.
  intros Hn Hnd. induction Hnd as [| k0 ks Hk0 Hnd IH]; intros m Hks.
  - exists m. split; [done |]. intros k. by rewrite decide_False by apply not_elem_of_nil.
  - destruct (Hks k0) as [v Hv]; [by left |].
    assert (Hstep : dict_idiv n m k0 = Ok (<[k0 := (v / Qc_of_Z n)%Qc]> m)).
    { unfold dict_idiv, dict_get, float_div. rewrite Hv. simpl.
      by rewrite bool_decide_eq_false_2. }
    cbn [for_each]. rewrite Hstep. simpl.
    destruct (IH (<[k0 := (v / Qc_of_Z n)%Qc]> m)) as (m' & Hloop & Hm').
    { intros k Hk. destruct (decide (k0 = k)) as [<- | Hne].
      - rewrite lookup_insert_eq. eauto.
      - rewrite lookup_insert_ne by done. apply Hks. by right. }
    exists m'. split; [done |]. intros k. rewrite Hm'.
    destruct (decide (k0 = k)) as [<- | Hne].
    + destruct (decide (k0 ∈ ks)) as [Hin | _]; [done |].
      destruct (decide (k0 ∈ k0 :: ks)) as [_ | Hout].
      * rewrite lookup_insert_eq, Hv. done.
      * exfalso. apply Hout. by left.
    + rewrite lookup_insert_ne by done.
      destruct (decide (k ∈ ks)) as [Hin | Hout];
        destruct (decide (k ∈ k0 :: ks)) as [Hin' | Hout']; try done.
      * exfalso. apply Hout'. by right.
      * exfalso. apply elem_of_cons in Hin' as [-> | Hin']; [done | done].
Qed.

(** With a batch count other than zero the averaging loop divides the value
    under every key, whichever key it is. *)
Lemma per_batch_average_nonzero (metrics : gmap string Qc) (n_batches : Z) :
  n_batches ≠ 0 →
  per_batch_average metrics n_batches
    = Ok ((λ v, v / Qc_of_Z n_batches)%Qc <$> metrics).
Proof.
  intros Hn. unfold per_batch_average.
  destruct (average_loop n_batches (map_to_list metrics).*1 Hn
              (NoDup_fst_map_to_list metrics) metrics) as (m' & -> & Hm').
  { intros k Hk. apply list_elem_of_fmap in Hk as ([k' v] & -> & Hkv).
    apply elem_of_map_to_list in Hkv. eauto. }
  f_equal. apply map_eq. intros k. rewrite Hm', lookup_fmap.
  case_decide as Hk; [done |].
  destruct (metrics !! k) as [v |] eqn:Hv; [| done].
  exfalso. apply Hk. apply list_elem_of_fmap. exists (k, v).
  split; [done |]. by apply elem_of_map_to_list.
Qed.

(** With a batch count of zero its first division raises. *)
Lemma per_batch_average_zero (metrics : gmap string Qc) :
  metrics ≠ ∅ → per_batch_average metrics 0 = Raise ZeroDivisionError.
Proof.
  intros Hne. unfold per_batch_average.
  destruct (map_to_list metrics) as [| [k v] l] eqn:Hl.
  { by apply map_to_list_empty_iff in Hl. }
  assert (Hkv : metrics !! k = Some v).
  { apply elem_of_map_to_list. rewrite Hl. by left. }
  rewrite fmap_cons. cbn [for_each fst].
  assert (Hstep : dict_idiv 0 metrics k = Raise ZeroDivisionError).
  { unfold dict_idiv, dict_get. rewrite Hkv. reflexivity. }
  by rewrite Hstep.
Qed.

Lemma split_metrics_nonempty split a1 a2 a3 a4 a5 a6 a7 a8 :
  split_metrics split a1 a2 a3 a4 a5 a6 a7 a8 ≠ ∅.
Proof.
  intros Hempty.
  assert (Hl : split_metrics split a1 a2 a3 a4 a5 a6 a7 a8 !! (split +:+ "/fid_val")
               = Some a8).
  { unfold split_metrics. rewrite lookup_kmap by apply _. reflexivity. }
  rewrite Hempty in Hl. by rewrite lookup_empty in Hl.
Qed.

Lemma lookup_averaged split (n : Qc) a1 a2 a3 a4 a5 a6 a7 a8 s :
  ((λ v, v / n)%Qc <$> split_metrics split a1 a2 a3 a4 a5 a6 a7 a8) !! (split +:+ s)
    = (λ v, v / n)%Qc <$> suffix_metrics a1 a2 a3 a4 a5 a6 a7 a8 !! s.
Proof. unfold split_metrics. rewrite lookup_fmap, lookup_kmap by apply _. done. Qed.

(** The pass, in one equation: it fails where [compute] does, and otherwise
    returns what the averaging loop makes of the sums. *)
Lemma evaluate_epoch_unfold θ loader split la lc li f :
  let ls := forward_losses θ la lc li <$> loader in
  let st := foldl (fid_batch θ) (fid_reset (acc f)) loader in
  evaluate_epoch θ loader split la lc li f
    = (if fid_ready st then
         per_batch_average
           (split_metrics split
              (total_loss b_loss_DX ls) (total_loss b_loss_DY ls)
              (total_loss b_loss_f_adv ls) (total_loss b_loss_g_adv ls)
              (total_loss b_loss_cyc ls) (total_loss b_loss_id ls)
              (total_loss b_loss_gen_total ls) (fid_compute st))
           (Z.of_nat (length loader))
       else Raise RuntimeError,
       {| acc := st;
          calls := calls f ++ [CallReset] ++ batch_calls loader ++ [CallCompute] |}).
Proof.
  intros ls st. unfold evaluate_epoch, mbind, M_bind.
  rewrite accumulate_epoch_spec. fold st. by destruct (fid_ready st).
Qed.

(** What [evaluate_epoch] returns for a split with at least one batch on
    which [compute] returns: under each of the seven loss keys the sum of
    that loss over the batches divided by the number of batches, and under
    the FID key the value [compute] returned, divided by the number of
    batches as well. *)
Lemma evaluate_epoch_metrics θ loader split la lc li f :
  loader ≠ [] →
  fid_ready (foldl (fid_batch θ) (fid_reset (acc f)) loader) = true →
  let ls := forward_losses θ la lc li <$> loader in
  let n := Qc_of_Z (Z.of_nat (length loader)) in
  ∃ metrics f',
    evaluate_epoch θ loader split la lc li f = (Ok metrics, f') ∧
    metrics !! (split +:+ "/loss_DX") = Some (total_loss b_loss_DX ls / n)%Qc ∧
    metrics !! (split +:+ "/loss_DY") = Some (total_loss b_loss_DY ls / n)%Qc ∧
    metrics !! (split +:+ "/loss_f_adv") = Some (total_loss b_loss_f_adv ls / n)%Qc ∧
    metrics !! (split +:+ "/loss_g_adv") = Some (total_loss b_loss_g_adv ls / n)%Qc ∧
    metrics !! (split +:+ "/loss_cyc") = Some (total_loss b_loss_cyc ls / n)%Qc ∧
    metrics !! (split +:+ "/loss_id") = Some (total_loss b_loss_id ls / n)%Qc ∧
    metrics !! (split +:+ "/loss_gen_total")
      = Some (total_loss b_loss_gen_total ls / n)%Qc ∧
    metrics !! (split +:+ "/fid_val") = Some (fid_compute (acc f') / n)%Qc.
Proof.
  intros Hne Hready ls n. rewrite evaluate_epoch_unfold, Hready.
  rewrite per_batch_average_nonzero by (destruct loader; [done | simpl; lia]).
  eexists _, _. split; [reflexivity |]. cbn [acc].
  rewrite !lookup_averaged. by split_and!.
Qed.

(** What a pass leaves of the accumulator, whether it returns or raises. *)
Lemma evaluate_epoch_state θ loader split la lc li f :
  (evaluate_epoch θ loader split la lc li f).2
    = {| acc := foldl (fid_batch θ) (fid_reset (acc f)) loader;
         calls := calls f ++ [CallReset] ++ batch_calls loader ++ [CallCompute] |}.
Proof. by rewrite evaluate_epoch_unfold. Qed.

(** C2, as the code has it. The pass makes no check of the batch count. On
    an empty split the accumulator is reset and read at once, without a
    sample. When its [compute] raises on that state, as that of the library
    does, the pass fails there, inside the block under [torch.no_grad()],
    with [RuntimeError]: before the averaging loop, though not by a check of
    the batch count. When its [compute] returns, the block completes with
    [n_batches = 0] and the first division of the averaging loop raises
    [ZeroDivisionError]. No metrics record is returned in either case. *)
Theorem evaluate_epoch_empty_split θ split la lc li f :
  let st := fid_reset (acc f) in
  let f' := {| acc := st; calls := calls f ++ [CallReset; CallCompute] |} in
  accumulate_epoch θ [] split la lc li f
    = (if fid_ready st
       then Ok (split_metrics split 0 0 0 0 0 0 0 (fid_compute st), 0)
       else Raise RuntimeError, f') ∧
  evaluate_epoch θ [] split la lc li f
    = (if fid_ready st then Raise ZeroDivisionError else Raise RuntimeError, f').
Proof.
  intros st f'. split.
  - rewrite accumulate_epoch_spec. reflexivity.
  - rewrite evaluate_epoch_unfold. cbn [foldl length Z.of_nat]. fold st.
    destruct (fid_ready st); [| reflexivity].
    rewrite per_batch_average_zero by apply split_metrics_nonempty.
    reflexivity.
Qed.

(** C9. Whatever the split, the method calls the pass makes on the FID
    accumulator are: [reset], then for each batch one real and one generated
    [update], then [compute]; so one [reset] before any batch, one [compute]
    after the last batch, and none in between. *)
Theorem evaluate_epoch_fid_calls θ loader split la lc li f :
  calls (evaluate_epoch θ loader split la lc li f).2
    = calls f ++ [CallReset] ++ batch_calls loader ++ [CallCompute] ∧
  (CallReset ∉ batch_calls loader) ∧
  (CallCompute ∉ batch_calls loader).
Proof.
  split_and!.
  - by rewrite evaluate_epoch_unfold.
  - unfold batch_calls. rewrite list_elem_of_bind. intros (b & Hin & _).
    rewrite !elem_of_cons in Hin. destruct Hin as [? | [? | Hnil]]; [done | done |].
    by apply elem_of_nil in Hnil.
  - unfold batch_calls. rewrite list_elem_of_bind. intros (b & Hin & _).
    rewrite !elem_of_cons in Hin. destruct Hin as [? | [? | Hnil]]; [done | done |].
    by apply elem_of_nil in Hnil.
Qed.

End Evaluate.

(** C1, at a split of two batches. The accumulator's [compute] returns 9; the
    metrics record holds 9/2 under the FID key: the averaging loop has divided
    it by the batch count along with the seven sums. The loss keys hold the
    per-batch averages. *)
Theorem evaluate_epoch_divides_fid :
  ∃ metrics f',
    evaluate_epoch (H := Toy.torch) Toy.θ0 Toy.loader2 "val" (Qc_of_Z 2) (Qc_of_Z 4) (1 / 2)%Qc Toy.fid0
      = (Ok metrics, f') ∧
    calls f' = [CallReset; CallUpdate true; CallUpdate false;
                CallUpdate true; CallUpdate false; CallCompute] ∧
    fid_compute (acc f') = Qc_of_Z 9 ∧
    metrics !! "val/fid_val" = Some (Qc_of_Z 9 / Qc_of_Z 2)%Qc ∧
    metrics !! "val/fid_val" ≠ Some (fid_compute (acc f')).
Proof.
  destruct (evaluate_epoch_metrics (H := Toy.torch) Toy.θ0 Toy.loader2 "val"
              (Qc_of_Z 2) (Qc_of_Z 4) (1 / 2)%Qc Toy.fid0)
    as (metrics & f' & Heval & _ & _ & _ & _ & _ & _ & _ & Hfid);
    [done | by vm_compute |].
  exists metrics, f'.
  assert (Hf : f' = {| acc := foldl (fid_batch (H := Toy.torch) Toy.θ0) (fid_reset (acc Toy.fid0))
                                Toy.loader2;
                       calls := calls Toy.fid0 ++ [CallReset]
                                ++ batch_calls (H := Toy.torch) Toy.loader2 ++ [CallCompute] |}).
  { rewrite <- (evaluate_epoch_state (H := Toy.torch)
                  Toy.θ0 Toy.loader2 "val" (Qc_of_Z 2) (Qc_of_Z 4) (1 / 2)%Qc).
    by rewrite Heval. }
  assert (Hacc : fid_compute (acc f') = Qc_of_Z 9).
  { rewrite Hf. apply Qc_is_canon. vm_compute. reflexivity. }
  split_and!.
  - exact Heval.
  - rewrite Hf. reflexivity.
  - exact Hacc.
  - change ("val" +:+ "/fid_val") with "val/fid_val" in Hfid.
    rewrite Hfid, Hacc. reflexivity.
  - change ("val" +:+ "/fid_val") with "val/fid_val" in Hfid.
    rewrite Hfid, Hacc. intros Heq.
    apply (inj Some), (f_equal this) in Heq. vm_compute in Heq. discriminate.
Qed.

(** C2, at the empty split, with an accumulator whose [compute] returns on
    every state: the block before the averaging loop does not raise, it
    returns a batch count of zero, and the pass then fails inside the
    averaging loop, on a division by that zero. With an accumulator that
    asks for two samples of each kind the pass fails at [compute]. *)
Lemma empty_split_reaches_averaging :
  ¬ (∃ e f', accumulate_epoch (H := Toy.torch_total) Toy.θ0 [] "val"
               (Qc_of_Z 2) (Qc_of_Z 4) (1 / 2)%Qc Toy.fid0_total = (Raise e, f')) ∧
  (∃ metrics f',
     accumulate_epoch (H := Toy.torch_total) Toy.θ0 [] "val"
       (Qc_of_Z 2) (Qc_of_Z 4) (1 / 2)%Qc Toy.fid0_total = (Ok (metrics, 0), f') ∧
     per_batch_average metrics 0 = Raise ZeroDivisionError) ∧
  (evaluate_epoch (H := Toy.torch_total) Toy.θ0 [] "val"
     (Qc_of_Z 2) (Qc_of_Z 4) (1 / 2)%Qc Toy.fid0_total).1 = Raise ZeroDivisionError ∧
  (evaluate_epoch (H := Toy.torch) Toy.θ0 [] "val"
     (Qc_of_Z 2) (Qc_of_Z 4) (1 / 2)%Qc Toy.fid0).1 = Raise RuntimeError.
Proof.
  split_and!.
  - intros (e & f' & Hacc). rewrite accumulate_epoch_spec in Hacc. discriminate.
  - eexists _, _. split; [rewrite accumulate_epoch_spec; reflexivity |].
    apply per_batch_average_zero, split_metrics_nonempty.
  - rewrite evaluate_epoch_unfold. cbn [fst foldl length Z.of_nat].
    change (fid_ready (Torch := Toy.torch_total) _) with true. cbv iota.
    apply per_batch_average_zero, split_metrics_nonempty.
  - rewrite evaluate_epoch_unfold. reflexivity.
Qed.

(** ** The run *)

Lemma epoch_body_spec cfg vm best_fid e r fid :
  vm e !! "val/fid_val" = Some fid →
  epoch_body cfg vm best_fid e r
    = (Ok (if fid_lt fid best_fid then Finite fid else best_fid),
       {| trace := trace r ++ epoch_events cfg (fid_lt fid best_fid) e;
          checkpoints := epoch_checkpoints (fid_lt fid best_fid) e (checkpoints r) |}).
Proof.
  intros Hfid. unfold epoch_body, epoch_events, epoch_checkpoints, archive_events.
  unfold mbind, M_bind, emit, liftR, dict_get. rewrite Hfid.
  destruct (fid_lt fid best_fid), (bool_decide (e `mod` 5 = 0)),
    (archive_and_terminate_ec2 cfg); simpl; rewrite <- ?app_assoc; reflexivity.
Qed.

Lemma tracks_start fid : tracks fid Inf 1.
Proof. intros q. simpl. split; [intros _ e' He'; lia | done]. Qed.

Lemma tracks_improves fid best_fid a :
  tracks fid best_fid a → (fid_lt (fid a) best_fid = true ↔ improves fid a).
Proof. intros Ht. apply Ht. Qed.

Lemma tracks_step fid best_fid a :
  1 ≤ a →
  tracks fid best_fid a →
  tracks fid (if fid_lt (fid a) best_fid then Finite (fid a) else best_fid) (a + 1).
Proof.
  intros Ha Ht q. destruct (fid_lt (fid a) best_fid) eqn:Hlt.
  - simpl. rewrite bool_decide_eq_true. split.
    + intros Hq e' He'. destruct (decide (e' = a)) as [-> | Hne]; [done |].
      apply Qclt_trans with (fid a); [done |]. apply (proj1 (Ht (fid a)) Hlt). lia.
    + intros Hall. apply Hall. lia.
  - rewrite (Ht q). split.
    + intros Hall e' He'. destruct (decide (e' = a)) as [-> | Hne]; [| apply Hall; lia].
      destruct best_fid as [| b]; [done |]. simpl in Hlt.
      apply bool_decide_eq_false in Hlt. apply Qcnot_lt_le in Hlt.
      apply Qclt_le_trans with b; [| done].
      assert (Hq : fid_lt q (Finite b) = true) by (by apply Ht).
      simpl in Hq. by apply bool_decide_eq_true in Hq.
    + intros Hall e' He'. apply Hall. lia.
Qed.

Lemma best_in_epoch_events cfg improved a e :
  SaveCheckpoint e "best" ∈ epoch_events cfg improved a ↔ e = a ∧ improved = true.
Proof.
  unfold epoch_events, archive_events.
  destruct improved, (bool_decide (a `mod` 5 = 0)), (archive_and_terminate_ec2 cfg);
    simpl; rewrite ?elem_of_cons, ?elem_of_nil; split;
    intros Hin; intuition (try discriminate; try congruence).
Qed.

Lemma current_in_epoch_events cfg improved a e :
  SaveCheckpoint e "current" ∈ epoch_events cfg improved a ↔ e = a ∧ a `mod` 5 = 0.
Proof.
  unfold epoch_events, archive_events.
  case_bool_decide as Hmod;
  destruct improved, (archive_and_terminate_ec2 cfg);
    simpl; rewrite ?elem_of_cons, ?elem_of_nil; split;
    intros Hin; intuition (try discriminate; try congruence).
Qed.

Lemma epoch_checkpoints_best improved a (c : gmap string Z) :
  epoch_checkpoints improved a c !! "best" = if improved then Some a else c !! "best".
Proof.
  unfold epoch_checkpoints. case_bool_decide; destruct improved;
    rewrite ?lookup_insert_ne by done; rewrite ?lookup_insert_eq; done.
Qed.

Lemma epoch_checkpoints_current improved a (c : gmap string Z) :
  epoch_checkpoints improved a c !! "current"
    = if bool_decide (a `mod` 5 = 0) then Some a else c !! "current".
Proof.
  unfold epoch_checkpoints. case_bool_decide; destruct improved;
    rewrite ?lookup_insert_eq; rewrite ?lookup_insert_ne by done; done.
Qed.

Lemma epoch_loop_from cfg vm fid (n : nat) :
  ∀ a best_fid r,
    1 ≤ a →
    (∀ e, a ≤ e < a + Z.of_nat n → vm e !! "val/fid_val" = Some (fid e)) →
    tracks fid best_fid a →
    ∃ best_fid' evs ck,
      for_each (epoch_body cfg vm) (seqZ a (Z.of_nat n)) best_fid r
        = (Ok best_fid', {| trace := trace r ++ evs; checkpoints := ck |}) ∧
      (∀ e, SaveCheckpoint e "best" ∈ evs ↔ a ≤ e < a + Z.of_nat n ∧ improves fid e) ∧
      (∀ e, SaveCheckpoint e "current" ∈ evs ↔ a ≤ e < a + Z.of_nat n ∧ e `mod` 5 = 0) ∧
      (∀ e, a ≤ e < a + Z.of_nat n → improves fid e →
            (∀ e', e < e' < a + Z.of_nat n → ¬ improves fid e') → ck !! "best" = Some e) ∧
      ((∀ e, a ≤ e < a + Z.of_nat n → ¬ improves fid e) → ck !! "best" = checkpoints r !! "best") ∧
      ((∀ e, a ≤ e < a + Z.of_nat n → e `mod` 5 ≠ 0) → ck !! "current" = checkpoints r !! "current").
Proof.
  induction n as [| n IH]; intros a best_fid r Ha Hvm Ht.
  - exists best_fid, [], (checkpoints r). simpl. rewrite app_nil_r.
    split_and!; [by destruct r | | | | |].
    + intros e. rewrite elem_of_nil. split; [done | lia].
    + intros e. rewrite elem_of_nil. split; [done | lia].
    + intros e He. lia.
    + done.
    + done.
  - rewrite seqZ_cons by lia. cbn [for_each]. unfold mbind at 1. unfold M_bind.
    rewrite (epoch_body_spec cfg vm best_fid a r (fid a)) by (apply Hvm; lia).
    pose proof (tracks_improves fid best_fid a Ht) as Himp.
    set (improved := fid_lt (fid a) best_fid) in *.
    replace (Z.pred (Z.of_nat (S n))) with (Z.of_nat n) by lia.
    destruct (IH (Z.succ a) (if improved then Finite (fid a) else best_fid)
                {| trace := trace r ++ epoch_events cfg improved a;
                   checkpoints := epoch_checkpoints improved a (checkpoints r) |})
      as (best_fid' & evs & ck & Hloop & Hbest & Hcur & Hlast & Hnone & Hnocur).
    { lia. }
    { intros e He. apply Hvm. lia. }
    { replace (Z.succ a) with (a + 1) by lia. by apply tracks_step. }
    cbn [trace checkpoints] in *.
    exists best_fid', (epoch_events cfg improved a ++ evs), ck.
    split_and!.
    + rewrite app_assoc. exact Hloop.
    + intros e. rewrite elem_of_app, best_in_epoch_events, Hbest. split.
      * intros [[-> Hi] | [He Hi]]; (split; [lia |]); [by apply Himp | done].
      * intros [He Hi]. destruct (decide (e = a)) as [-> | Hne].
        -- left. split; [done |]. by apply Himp.
        -- right. split; [lia | done].
    + intros e. rewrite elem_of_app, current_in_epoch_events, Hcur. split.
      * intros [[-> Hm] | [He Hm]]; (split; [lia | done]).
      * intros [He Hm]. destruct (decide (e = a)) as [-> | Hne]; [by left |].
        right. split; [lia | done].
    + intros e He Hi Hlater. destruct (decide (e = a)) as [-> | Hne].
      * rewrite Hnone; [| intros e' He'; apply Hlater; lia].
        rewrite epoch_checkpoints_best.
        apply Himp in Hi. by rewrite Hi.
      * apply Hlast; [lia | done |]. intros e' He'. apply Hlater. lia.
    + intros Hno. rewrite Hnone by (intros e He; apply Hno; lia).
      rewrite epoch_checkpoints_best.
      destruct improved eqn:Hi; [| done].
      exfalso. apply (Hno a); [lia |]. by apply Himp.
    + intros Hno. rewrite Hnocur by (intros e He; apply Hno; lia).
      rewrite epoch_checkpoints_current.
      rewrite bool_decide_eq_false_2; [done |]. apply Hno. lia.
Qed.

(** The whole loop of a run of [N = cfg.num_train_epochs] epochs, when every
    epoch's validation metrics carry an FID. *)
Lemma epoch_loop_spec cfg vm fid r :
  let N := num_train_epochs cfg in
  (∀ e, 1 ≤ e ≤ N → vm e !! "val/fid_val" = Some (fid e)) →
  ∃ best_fid' evs ck,
    epoch_loop cfg vm r = (Ok best_fid', {| trace := trace r ++ evs; checkpoints := ck |}) ∧
    (∀ e, SaveCheckpoint e "best" ∈ evs ↔ 1 ≤ e ≤ N ∧ improves fid e) ∧
    (∀ e, SaveCheckpoint e "current" ∈ evs ↔ 1 ≤ e ≤ N ∧ e `mod` 5 = 0) ∧
    (∀ e, 1 ≤ e ≤ N → improves fid e →
          (∀ e', e < e' ≤ N → ¬ improves fid e') → ck !! "best" = Some e) ∧
    ((∀ e, 1 ≤ e ≤ N → e `mod` 5 ≠ 0) → ck !! "current" = checkpoints r !! "current").
Proof.
  intros N Hvm. unfold epoch_loop, epochs. fold N.
  assert (Hseq : seqZ 1 N = seqZ 1 (Z.of_nat (Z.to_nat N))).
  { unfold seqZ. by rewrite Nat2Z.id. }
  rewrite Hseq.
  destruct (epoch_loop_from cfg vm fid (Z.to_nat N) 1 Inf r)
    as (best_fid' & evs & ck & Hloop & Hbest & Hcur & Hlast & _ & Hnocur).
  { lia. }
  { intros e He. apply Hvm. lia. }
  { apply tracks_start. }
  exists best_fid', evs, ck. split_and!.
  - exact Hloop.
  - intros e. rewrite Hbest. split; (intros [He Hi]; split; [lia | done]).
  - intros e. rewrite Hcur. split; (intros [He Hi]; split; [lia | done]).
  - intros e He Hi Hlater. apply Hlast; [lia | done |].
    intros e' He'. apply Hlater. lia.
  - intros Hno. apply Hnocur. intros e He. apply Hno. lia.
Qed.

(** C6. Across the epoch loop, epoch [e] writes the [best] checkpoint iff its
    validation FID is strictly below the FID of every earlier epoch, which
    the first epoch always is; the file then holds the last such epoch. For
    the FID sequence 5, 3, 4, 2 the checkpoint is written at epochs 1, 2 and
    4, not at 3, and holds epoch 4 at the end. *)
Theorem best_checkpoint_policy cfg vm fid r :
  let N := num_train_epochs cfg in
  (∀ e, 1 ≤ e ≤ N → vm e !! "val/fid_val" = Some (fid e)) →
  (∃ best_fid' evs ck,
     epoch_loop cfg vm r
       = (Ok best_fid', {| trace := trace r ++ evs; checkpoints := ck |}) ∧
     (∀ e, 1 ≤ e ≤ N → (SaveCheckpoint e "best" ∈ evs ↔ improves fid e)) ∧
     (1 ≤ N → SaveCheckpoint 1 "best" ∈ evs) ∧
     (∀ e, 1 ≤ e ≤ N → improves fid e →
           (∀ e', e < e' ≤ N → ¬ improves fid e') → ck !! "best" = Some e)) ∧
  (let r4 := (epoch_loop (Toy.cfg 4) Toy.val_metrics4 Toy.fresh).2 in
   trace r4 = [PerformEpoch 1; SaveCheckpoint 1 "best";
               PerformEpoch 2; SaveCheckpoint 2 "best";
               PerformEpoch 3;
               PerformEpoch 4; SaveCheckpoint 4 "best"] ∧
   checkpoints r4 !! "best" = Some 4).
Proof.
  intros N Hvm. split.
  - destruct (epoch_loop_spec cfg vm fid r Hvm)
      as (best_fid' & evs & ck & Hloop & Hbest & _ & Hlast & _).
    exists best_fid', evs, ck. fold N in Hbest, Hlast. split_and!.
    + exact Hloop.
    + intros e He. rewrite Hbest. tauto.
    + intros HN. apply Hbest. split; [lia |]. intros e' He'. lia.
    + exact Hlast.
  - vm_compute. done.
Qed.

Lemma best_checkpoint_policy_witness :
  (∃ best_fid' evs ck,
     epoch_loop (Toy.cfg 4) Toy.val_metrics4 Toy.fresh
       = (Ok best_fid', {| trace := trace Toy.fresh ++ evs; checkpoints := ck |}) ∧
     (∀ e, 1 ≤ e ≤ 4 → (SaveCheckpoint e "best" ∈ evs ↔ improves Toy.fid4 e)) ∧
     (1 ≤ 4 → SaveCheckpoint 1 "best" ∈ evs) ∧
     (∀ e, 1 ≤ e ≤ 4 → improves Toy.fid4 e →
           (∀ e', e < e' ≤ 4 → ¬ improves Toy.fid4 e') → ck !! "best" = Some e)) ∧
  (let r4 := (epoch_loop (Toy.cfg 4) Toy.val_metrics4 Toy.fresh).2 in
   trace r4 = [PerformEpoch 1; SaveCheckpoint 1 "best";
               PerformEpoch 2; SaveCheckpoint 2 "best";
               PerformEpoch 3;
               PerformEpoch 4; SaveCheckpoint 4 "best"] ∧
   checkpoints r4 !! "best" = Some 4).
Proof.
  apply (best_checkpoint_policy (Toy.cfg 4) Toy.val_metrics4 Toy.fid4 Toy.fresh).
  intros e He. reflexivity.
Defined.

(** What the loop leaves in the [current] file: the last multiple of 5
    among the epochs it ran, and what was there when it ran none. *)
Lemma epoch_loop_current_from cfg vm fid (n : nat) :
  ∀ a best_fid r,
    (∀ e, a ≤ e < a + Z.of_nat n → vm e !! "val/fid_val" = Some (fid e)) →
    (∀ e, a ≤ e < a + Z.of_nat n → e `mod` 5 = 0 →
          (∀ e', e < e' < a + Z.of_nat n → e' `mod` 5 ≠ 0) →
          checkpoints (for_each (epoch_body cfg vm) (seqZ a (Z.of_nat n)) best_fid r).2
            !! "current" = Some e) ∧
    ((∀ e, a ≤ e < a + Z.of_nat n → e `mod` 5 ≠ 0) →
     checkpoints (for_each (epoch_body cfg vm) (seqZ a (Z.of_nat n)) best_fid r).2
       !! "current" = checkpoints r !! "current").
Proof.
  induction n as [| n IH]; intros a best_fid r Hvm.
  - simpl. split; [intros e He; lia | done].
  - set (improved := fid_lt (fid a) best_fid).
    assert (Hstep :
      (for_each (epoch_body cfg vm) (seqZ a (Z.of_nat (S n))) best_fid r).2
      = (for_each (epoch_body cfg vm) (seqZ (Z.succ a) (Z.of_nat n))
           (if improved then Finite (fid a) else best_fid)
           {| trace := trace r ++ epoch_events cfg improved a;
              checkpoints := epoch_checkpoints improved a (checkpoints r) |}).2).
    { rewrite seqZ_cons by lia. cbn [for_each]. unfold mbind at 1. unfold M_bind.
      rewrite (epoch_body_spec cfg vm best_fid a r (fid a)) by (apply Hvm; lia).
      replace (Z.pred (Z.of_nat (S n))) with (Z.of_nat n) by lia.
      reflexivity. }
    rewrite Hstep.
    destruct (IH (Z.succ a) (if improved then Finite (fid a) else best_fid)
                {| trace := trace r ++ epoch_events cfg improved a;
                   checkpoints := epoch_checkpoints improved a (checkpoints r) |})
      as (Hlast & Hnone).
    { intros e He. apply Hvm. lia. }
    cbn [checkpoints] in Hlast, Hnone. split.
    + intros e He Hmod Hlater. destruct (decide (e = a)) as [-> | Hne].
      * rewrite Hnone by (intros e' He'; apply Hlater; lia).
        rewrite epoch_checkpoints_current. by rewrite bool_decide_eq_true_2.
      * apply Hlast; [lia | exact Hmod |]. intros e' He'. apply Hlater. lia.
    + intros Hno. rewrite Hnone by (intros e He; apply Hno; lia).
      rewrite epoch_checkpoints_current.
      rewrite bool_decide_eq_false_2; [done |]. apply Hno. lia.
Qed.

(** C7. Across the epoch loop, epoch [e] writes the [current] checkpoint iff
    [e] is a multiple of 5, whatever the FID values are, and the write
    reaches the file: after the loop the file holds the last multiple of 5
    among the epochs. A run of 2 epochs writes none and leaves that file as
    it found it. In a run of 10 epochs with the FID sequence 5, 3, 4, 2 and
    then 0, the file is written at epoch 5, which improves, and at epoch 10,
    which does not, and holds epoch 10 at the end. *)
Theorem current_checkpoint_policy cfg vm fid r :
  let N := num_train_epochs cfg in
  (∀ e, 1 ≤ e ≤ N → vm e !! "val/fid_val" = Some (fid e)) →
  (∃ best_fid' evs ck,
     epoch_loop cfg vm r
       = (Ok best_fid', {| trace := trace r ++ evs; checkpoints := ck |}) ∧
     (∀ e, 1 ≤ e ≤ N → (SaveCheckpoint e "current" ∈ evs ↔ e `mod` 5 = 0)) ∧
     (∀ e, 1 ≤ e ≤ N → e `mod` 5 = 0 →
           (∀ e', e < e' ≤ N → e' `mod` 5 ≠ 0) → ck !! "current" = Some e) ∧
     (N = 2 → (∀ e, SaveCheckpoint e "current" ∉ evs) ∧
              ck !! "current" = checkpoints r !! "current")) ∧
  (let r10 := (epoch_loop (Toy.cfg 10) Toy.val_metrics4 Toy.fresh).2 in
   trace r10 = [PerformEpoch 1; SaveCheckpoint 1 "best";
                PerformEpoch 2; SaveCheckpoint 2 "best";
                PerformEpoch 3;
                PerformEpoch 4; SaveCheckpoint 4 "best";
                PerformEpoch 5; SaveCheckpoint 5 "best"; SaveCheckpoint 5 "current";
                PerformEpoch 6; PerformEpoch 7; PerformEpoch 8; PerformEpoch 9;
                PerformEpoch 10; SaveCheckpoint 10 "current"] ∧
   checkpoints r10 !! "current" = Some 10 ∧
   checkpoints r10 !! "best" = Some 5).
Proof.
  intros N Hvm. split.
  - destruct (epoch_loop_spec cfg vm fid r Hvm)
      as (best_fid' & evs & ck & Hloop & _ & Hcur & _ & Hnocur).
    exists best_fid', evs, ck. fold N in Hcur, Hnocur. split_and!.
    + exact Hloop.
    + intros e He. rewrite Hcur. tauto.
    + intros e He Hmod Hlater.
      assert (Hck : ck = checkpoints (epoch_loop cfg vm r).2) by (by rewrite Hloop).
      rewrite Hck. unfold epoch_loop, epochs. fold N.
      assert (Hseq : seqZ 1 N = seqZ 1 (Z.of_nat (Z.to_nat N))).
      { unfold seqZ. by rewrite Nat2Z.id. }
      rewrite Hseq.
      apply (epoch_loop_current_from cfg vm fid (Z.to_nat N) 1 Inf r).
      * intros e' He'. apply Hvm. lia.
      * lia.
      * exact Hmod.
      * intros e' He'. apply Hlater. lia.
    + intros HN. split.
      * intros e Hin. apply Hcur in Hin as [He Hmod].
        assert (e = 1 ∨ e = 2) as [-> | ->] by lia; discriminate.
      * apply Hnocur. intros e He.
        assert (e = 1 ∨ e = 2) as [-> | ->] by lia; discriminate.
  - vm_compute. done.
Qed.

Lemma current_checkpoint_policy_witness :
  ((∃ best_fid' evs ck,
      epoch_loop (Toy.cfg 10) Toy.val_metrics4 Toy.fresh
        = (Ok best_fid', {| trace := trace Toy.fresh ++ evs; checkpoints := ck |}) ∧
      (∀ e, 1 ≤ e ≤ 10 → (SaveCheckpoint e "current" ∈ evs ↔ e `mod` 5 = 0)) ∧
      (∀ e, 1 ≤ e ≤ 10 → e `mod` 5 = 0 →
            (∀ e', e < e' ≤ 10 → e' `mod` 5 ≠ 0) → ck !! "current" = Some e) ∧
      (10 = 2 → (∀ e, SaveCheckpoint e "current" ∉ evs) ∧
                ck !! "current" = checkpoints Toy.fresh !! "current")) ∧
   (let r10 := (epoch_loop (Toy.cfg 10) Toy.val_metrics4 Toy.fresh).2 in
    trace r10 = [PerformEpoch 1; SaveCheckpoint 1 "best";
                 PerformEpoch 2; SaveCheckpoint 2 "best";
                 PerformEpoch 3;
                 PerformEpoch 4; SaveCheckpoint 4 "best";
                 PerformEpoch 5; SaveCheckpoint 5 "best"; SaveCheckpoint 5 "current";
                 PerformEpoch 6; PerformEpoch 7; PerformEpoch 8; PerformEpoch 9;
                 PerformEpoch 10; SaveCheckpoint 10 "current"] ∧
    checkpoints r10 !! "current" = Some 10 ∧
    checkpoints r10 !! "best" = Some 5)) ∧
  (∃ best_fid' evs ck,
     epoch_loop (Toy.cfg 2) Toy.val_metrics4 Toy.fresh
       = (Ok best_fid', {| trace := trace Toy.fresh ++ evs; checkpoints := ck |}) ∧
     (∀ e, 1 ≤ e ≤ 2 → (SaveCheckpoint e "current" ∈ evs ↔ e `mod` 5 = 0)) ∧
     (∀ e, 1 ≤ e ≤ 2 → e `mod` 5 = 0 →
           (∀ e', e < e' ≤ 2 → e' `mod` 5 ≠ 0) → ck !! "current" = Some e) ∧
     (2 = 2 → (∀ e, SaveCheckpoint e "current" ∉ evs) ∧
              ck !! "current" = checkpoints Toy.fresh !! "current")).
Proof.
  split.
  - apply (current_checkpoint_policy (Toy.cfg 10) Toy.val_metrics4 Toy.fid4 Toy.fresh).
    intros e He. reflexivity.
  - apply (current_checkpoint_policy (Toy.cfg 2) Toy.val_metrics4 Toy.fid4 Toy.fresh).
    intros e He. reflexivity.
Defined.

(** ** Data failures *)

Section DataFailures.

Context `{Data.Runtime}.

Lemma prepare_dataset_raises listing tb eb seed e :
  Data.make_unpaired_loader listing "train" tb seed
    Data.default_young_max Data.default_old_min = Raise e →
  Data.prepare_dataset listing tb eb seed = Raise e.
Proof. intros Htrain. unfold Data.prepare_dataset. by rewrite Htrain. Qed.

Lemma main_data_failure cfg listing vm r e :
  Data.prepare_dataset listing (train_batch_size cfg) (eval_batch_size cfg) (seed cfg)
    = Raise e →
  main cfg listing vm r
    = (Raise e,
       {| trace := trace r ++ [WandbInit]
                   ++ (if set_seed cfg then [SetSeed (seed cfg)] else [])
                   ++ [PrepareDataset];
          checkpoints := checkpoints r |}).
Proof.
  intros Hprep. unfold main. unfold mbind, M_bind, emit, when, liftR.
  rewrite Hprep. destruct (set_seed cfg); simpl; rewrite <- ?app_assoc; reflexivity.
Qed.

(** C8. When the dataset directory holds no image file, or the age thresholds
    leave the young or the old bucket empty, [main] raises while preparing the
    data: the calls it has made by then end with the single call of
    [prepare_dataset], no model has been constructed, and no checkpoint has
    been touched. *)
Theorem data_failure_aborts_run cfg listing vm r :
  Data.glob_jpg listing = [] ∨
  (∃ ds young_idx old_idx,
     Data.UTKFace_init listing = Ok ds ∧
     Data.bucket_loop Data.default_young_max Data.default_old_min (Data.files ds) 0 [] []
       = Ok (young_idx, old_idx) ∧
     (young_idx = [] ∨ old_idx = [])) →
  ∃ e evs,
    main cfg listing vm r
      = (Raise e, {| trace := trace r ++ evs; checkpoints := checkpoints r |}) ∧
    (e = FileNotFoundError ∨ e = ValueError) ∧
    last evs = Some PrepareDataset ∧
    length (filter (λ ev, ev = PrepareDataset) evs) = 1%nat ∧
    (InitializeModels ∉ evs).
Proof.
  intros Hdata.
  assert (Hprep : ∃ e, (e = FileNotFoundError ∨ e = ValueError) ∧
            Data.prepare_dataset listing (train_batch_size cfg) (eval_batch_size cfg)
              (seed cfg) = Raise e).
  { destruct Hdata as [Hnone | (ds & yi & oi & Hds & Hb & Hempty)].
    - exists FileNotFoundError. split; [by left |].
      apply prepare_dataset_raises. by apply DataFacts.make_unpaired_loader_no_files.
    - exists ValueError. split; [by right |].
      apply prepare_dataset_raises.
      by eapply DataFacts.make_unpaired_loader_empty_bucket. }
  destruct Hprep as (e & He & Hprep).
  exists e, ([WandbInit] ++ (if set_seed cfg then [SetSeed (seed cfg)] else [])
             ++ [PrepareDataset]).
  split_and!.
  - by apply main_data_failure.
  - exact He.
  - by destruct (set_seed cfg).
  - by destruct (set_seed cfg).
  - destruct (set_seed cfg); simpl; rewrite !elem_of_cons, elem_of_nil;
      intros Hin; intuition discriminate.
Qed.

End DataFailures.

Lemma data_failure_aborts_run_witness :
  ∃ e evs,
    main (H := Toy.runtime) (Toy.cfg 2) ["notes.txt"] Toy.val_metrics4 Toy.fresh
      = (Raise e, {| trace := trace Toy.fresh ++ evs;
                     checkpoints := checkpoints Toy.fresh |}) ∧
    (e = FileNotFoundError ∨ e = ValueError) ∧
    last evs = Some PrepareDataset ∧
    length (filter (λ ev, ev = PrepareDataset) evs) = 1%nat ∧
    (InitializeModels ∉ evs).
Proof.
  apply (data_failure_aborts_run (H := Toy.runtime)).
  left. reflexivity.
Defined.

End TrainFacts.

(** * Further properties of the data preparation *)

Module DataExtra.
Import Data Splits DataFacts.

(** ** File names *)

Lemma split_head_prefix (sep : Ascii.ascii) (p rest : string) :
  sep ∉ String.list_ascii_of_string p →
  split_head sep (p +:+ String sep rest) = p.
Proof.
  induction p as [| c p IH]; simpl; intros Hsep.
  - by rewrite Ascii.eqb_refl.
  - apply not_elem_of_cons in Hsep as [Hne Hsep].
    destruct (Ascii.eqb_spec c sep) as [-> | _]; [done |]. by rewrite IH.
Qed.

Lemma split_head_whole (sep : Ascii.ascii) (s : string) :
  sep ∉ String.list_ascii_of_string s → split_head sep s = s.
Proof.
  induction s as [| c s IH]; simpl; intros Hsep; [done |].
  apply not_elem_of_cons in Hsep as [Hne Hsep].
  destruct (Ascii.eqb_spec c sep) as [-> | _]; [done |]. by rewrite IH.
Qed.

(** X1. The age of a file is read from the part of its name before the first
    underscore: for a name [p_rest] whose [p] has no underscore the age is
    [int(p)], for a name without any underscore it is [int] of the whole
    name; when [int] rejects that string the result is [ValueError]. *)
Theorem age_of_name `{Runtime} (p rest : string) :
  "_"%char ∉ String.list_ascii_of_string p →
  age_of (p +:+ String "_" rest)
    = match py_int p with Some a => Ok a | None => Raise ValueError end ∧
  age_of p = match py_int p with Some a => Ok a | None => Raise ValueError end.
Proof.
  intros Hp. unfold age_of. by rewrite split_head_prefix, split_head_whole.
Qed.

Lemma age_of_name_witness :
  age_of (H := Toy.runtime) ("25" +:+ String "_" "0_0_a.jpg")
    = match py_int (Runtime := Toy.runtime) "25" with
      | Some a => Ok a
      | None => Raise ValueError
      end ∧
  age_of (H := Toy.runtime) "25"
    = match py_int (Runtime := Toy.runtime) "25" with
      | Some a => Ok a
      | None => Raise ValueError
      end.
Proof.
  apply (age_of_name (H := Toy.runtime) "25" "0_0_a.jpg").
  apply (bool_decide_unpack _). vm_compute. exact I.
Defined.

Section LoaderMore.
Context `{Runtime}.

(** ** The two buckets *)

(** X2. Whatever the thresholds, the index of a file of age [a] is in the
    young bucket iff [18 <= a <= young_max], and in the old bucket iff
    [a >= old_min] and it is not in the young one: where the two ranges
    overlap the young bucket wins, and no index is in both. *)
Theorem bucket_precedence young_max old_min fs young_idx old_idx (i : nat) f a :
  bucket_loop young_max old_min fs 0 [] [] = Ok (young_idx, old_idx) →
  fs !! i = Some f →
  py_int (split_head "_" f) = Some a →
  (i ∈ young_idx ↔ 18 ≤ a ≤ young_max) ∧
  (i ∈ old_idx ↔ old_min ≤ a ∧ ¬ (18 ≤ a ≤ young_max)) ∧
  ¬ (i ∈ young_idx ∧ i ∈ old_idx).
Proof.
  intros Hb Hf Ha.
  destruct (bucket_loop_spec _ _ _ _ _ _ _ _ Hb i) as [Hy Ho].
  assert (Hyoung : i ∈ young_idx ↔ 18 ≤ a ≤ young_max).
  { rewrite Hy. split.
    - intros [Hin | (f' & a' & _ & Hl & Hp & Hle & Hge)]; [by apply elem_of_nil in Hin |].
      rewrite Nat.sub_0_r in Hl. simplify_eq. lia.
    - intros [Hge Hle]. right. exists f, a. rewrite Nat.sub_0_r.
      split_and!; [lia | done | done | done | done]. }
  assert (Hold : i ∈ old_idx ↔ old_min ≤ a ∧ ¬ (18 ≤ a ≤ young_max)).
  { rewrite Ho. split.
    - intros [Hin | (f' & a' & _ & Hl & Hp & Hn & Hge)]; [by apply elem_of_nil in Hin |].
      rewrite Nat.sub_0_r in Hl. simplify_eq. split; [done | lia].
    - intros [Hge Hn]. right. exists f, a. rewrite Nat.sub_0_r.
      split_and!; [lia | done | done | lia | done]. }
  split_and!; [done | done |]. rewrite Hyoung, Hold. tauto.
Qed.

Lemma bucket_loop_sorted young_max old_min fs :
  ∀ (i : nat) young_idx old_idx young_idx' old_idx',
    bucket_loop young_max old_min fs i young_idx old_idx = Ok (young_idx', old_idx') →
    StronglySorted lt young_idx → Forall (λ j, j < i)%nat young_idx →
    StronglySorted lt old_idx → Forall (λ j, j < i)%nat old_idx →
    (StronglySorted lt young_idx' ∧ Forall (λ j, j < i + length fs)%nat young_idx') ∧
    (StronglySorted lt old_idx' ∧ Forall (λ j, j < i + length fs)%nat old_idx').
Proof.
  assert (Hsnoc : ∀ (i : nat) l, StronglySorted lt l → Forall (λ j, j < i)%nat l →
            StronglySorted lt (l ++ [i]) ∧ Forall (λ j, j < S i)%nat (l ++ [i])).
  { intros i l Hs Hlt. split.
    - induction Hs as [| x l Hs IH Hx]; simpl.
      + repeat constructor.
      + apply Forall_cons in Hlt as [Hxi Hlt]. constructor; [by apply IH |].
        apply Forall_app. split; [done |]. by repeat constructor.
    - apply Forall_app. split.
      + eapply Forall_impl; [done |]. intros; simpl in *; lia.
      + repeat constructor. }
  assert (Hweak : ∀ (i : nat) l, Forall (λ j, j < i)%nat l → Forall (λ j, j < S i)%nat l).
  { intros i l Hl. eapply Forall_impl; [done |]. intros; simpl in *; lia. }
  induction fs as [| f0 fs IH]; intros i yi oi yi' oi' Hloop Hys Hyl Hos Hol.
  - simpl in Hloop. injection Hloop as <- <-. simpl. rewrite Nat.add_0_r. done.
  - simpl in Hloop. unfold age_of in Hloop.
    destruct (py_int (split_head "_" f0)) as [a0 |]; [| done]. simpl in Hloop.
    replace (i + length (f0 :: fs))%nat with (S i + length fs)%nat by (simpl; lia).
    destruct ((a0 <=? young_max) && (a0 >=? 18)).
    + destruct (Hsnoc i yi Hys Hyl). eapply IH; eauto.
    + destruct (a0 >=? old_min).
      * destruct (Hsnoc i oi Hos Hol). eapply IH; eauto.
      * eapply IH; eauto.
Qed.

Lemma StronglySorted_lt_NoDup (l : list nat) : StronglySorted lt l → NoDup l.
Proof.
  intros Hs. induction Hs as [| x l Hs IH Hx]; constructor; [| done].
  intros Hin. rewrite Forall_forall in Hx. specialize (Hx _ Hin). lia.
Qed.

Lemma bucket_loop_NoDup young_max old_min fs young_idx old_idx :
  bucket_loop young_max old_min fs 0 [] [] = Ok (young_idx, old_idx) →
  NoDup young_idx ∧ NoDup old_idx.
Proof.
  intros Hb.
  destruct (bucket_loop_sorted _ _ _ _ _ _ _ _ Hb) as [[Hys _] [Hos _]];
    [constructor ..|].
  split; by apply StronglySorted_lt_NoDup.
Qed.

(** X3. Both buckets list their indices in strictly increasing order, the
    order of the sorted file names: no index occurs twice, and every index is
    one of a file. *)
Theorem buckets_increasing young_max old_min fs young_idx old_idx :
  bucket_loop young_max old_min fs 0 [] [] = Ok (young_idx, old_idx) →
  StronglySorted lt young_idx ∧ StronglySorted lt old_idx ∧
  NoDup young_idx ∧ NoDup old_idx ∧
  (∀ j, j ∈ young_idx ∨ j ∈ old_idx → (j < length fs)%nat).
Proof.
  intros Hb.
  destruct (bucket_loop_sorted _ _ _ _ _ _ _ _ Hb) as [[Hys Hyl] [Hos Hol]];
    [constructor ..|].
  split_and!; [done | done | by apply StronglySorted_lt_NoDup
              | by apply StronglySorted_lt_NoDup |].
  rewrite Forall_forall in Hyl, Hol. intros j [Hj | Hj]; [by apply Hyl | by apply Hol].
Qed.

Lemma bucket_loop_raise young_max old_min fs :
  ∀ (i : nat) young_idx old_idx,
    (∃ f, f ∈ fs ∧ py_int (split_head "_" f) = None) →
    bucket_loop young_max old_min fs i young_idx old_idx = Raise ValueError.
Proof.
  induction fs as [| f0 fs IH]; intros i yi oi (f & Hin & Hf).
  - by apply elem_of_nil in Hin.
  - simpl. unfold age_of.
    destruct (py_int (split_head "_" f0)) as [a0 |] eqn:Ha0; [| done]. simpl.
    assert (Hin' : f ∈ fs).
    { apply elem_of_cons in Hin as [-> | Hin]; [congruence | done]. }
    destruct ((a0 <=? young_max) && (a0 >=? 18)); [apply IH; eauto |].
    destruct (a0 >=? old_min); apply IH; eauto.
Qed.

Lemma elem_of_files listing ds f :
  UTKFace_init listing = Ok ds →
  f ∈ files ds ↔ f ∈ listing ∧ ends_with ".jpg" f = true.
Proof.
  intros Hds. apply UTKFace_init_files in Hds as [-> _].
  unfold sorted. rewrite merge_sort_Permutation. unfold glob_jpg.
  rewrite list_elem_of_filter. rewrite Is_true_true. tauto.
Qed.

(** X4. One [.jpg] file whose name does not start with an integer is enough
    to make every loader fail: whatever the split, the thresholds and the
    other files are, [make_unpaired_loader] raises [ValueError]. *)
Theorem malformed_name_fails_every_loader listing split bs seed young_max old_min f :
  f ∈ listing →
  ends_with ".jpg" f = true →
  py_int (split_head "_" f) = None →
  make_unpaired_loader listing split bs seed young_max old_min = Raise ValueError.
Proof.
  intros Hin Hjpg Hbad. unfold make_unpaired_loader.
  destruct (UTKFace_init listing) as [ds |] eqn:Hds; simpl.
  - rewrite bucket_loop_raise; [done |]. exists f. split; [| done].
    apply (elem_of_files listing ds f Hds). done.
  - exfalso. unfold UTKFace_init in Hds. case_bool_decide as Hnil; [| done].
    apply (proj1 (sorted_nil _)) in Hnil.
    assert (Hf : f ∈ glob_jpg listing).
    { unfold glob_jpg. apply list_elem_of_filter. by rewrite Is_true_true. }
    rewrite Hnil in Hf. by apply elem_of_nil in Hf.
Qed.

(** ** The three slices *)

Lemma index_by_permutation idxs perm :
  perm ≡ₚ seq 0 (length idxs) →
  ∃ l, index_by idxs perm = Ok l ∧ l ≡ₚ idxs.
Proof.
  intros Hperm. unfold index_by.
  assert (Hall : Forall (λ j, j < length idxs)%nat perm).
  { apply Forall_forall. intros j Hj. rewrite Hperm in Hj.
    apply elem_of_seq in Hj. lia. }
  destruct (mapM (λ j, idxs !! j) perm) as [l |] eqn:Hm.
  - exists l. split; [done |]. apply mapM_Some in Hm.
    assert (Hl : l = (λ j, default 0%nat (idxs !! j)) <$> perm).
    { clear Hperm Hall. induction Hm as [| j y perm l Hjy Hm IH]; [done |].
      simpl. rewrite Hjy. simpl. by rewrite IH. }
    rewrite Hl, Hperm. apply eq_subrelation; [apply _ |].
    apply list_eq. intros i. rewrite list_lookup_fmap.
    destruct (decide (i < length idxs)%nat) as [Hi | Hi].
    + rewrite (proj2 (lookup_seq 0 (length idxs) i i) (conj eq_refl Hi)). simpl.
      destruct (lookup_lt_is_Some_2 idxs i Hi) as [x Hx]. by rewrite Hx.
    + rewrite (lookup_ge_None_2 idxs i) by lia.
      rewrite (lookup_ge_None_2 (seq 0 (length idxs)) i); [done |].
      rewrite length_seq. lia.
  - exfalso. assert (Hs : is_Some (mapM (λ j, idxs !! j) perm)).
    { apply mapM_is_Some. eapply Forall_impl; [exact Hall |].
      intros j Hj. simpl. by apply lookup_lt_is_Some_2. }
    rewrite Hm in Hs. by destruct Hs.
Qed.

Lemma segments_cover (l : list nat) :
  segment "train" l ++ segment "valid" l ++ segment "test" l = l.
Proof.
  unfold segment. simpl. unfold int_frac.
  rewrite drop_take_drop by (apply Nat.Div0.div_le_mono; lia).
  apply take_drop.
Qed.

(** What [split_indices] returns when the permutation is one. *)
Lemma split_indices_segments idxs g :
  randperm_ok →
  ∃ shuffled g',
    shuffled ≡ₚ idxs ∧
    index_by idxs (randperm (length idxs) g).1 = Ok shuffled ∧
    split_indices idxs g
      = (Ok ({[ "train" := segment "train" shuffled;
                "valid" := segment "valid" shuffled;
                "test" := segment "test" shuffled ]} : gmap string (list nat)), g').
Proof.
  intros Hok. unfold split_indices.
  pose proof (Hok (length idxs) g) as Hperm.
  destruct (randperm (length idxs) g) as [perm g']. simpl in Hperm.
  destruct (index_by_permutation idxs perm Hperm) as (l & Hl & Hlp).
  exists l, g'. simpl. rewrite Hl. simpl. done.
Qed.

Lemma dict_get_segments (l : list nat) split :
  dict_get ({[ "train" := segment "train" l;
               "valid" := segment "valid" l;
               "test" := segment "test" l ]} : gmap string (list nat)) split
    = if bool_decide (known_split split) then Ok (segment split l) else Raise KeyError.
Proof.
  unfold dict_get, known_split.
  destruct (decide (split = "train")) as [-> | Htrain].
  { rewrite lookup_insert_eq. by rewrite bool_decide_eq_true_2 by tauto. }
  rewrite lookup_insert_ne by done.
  destruct (decide (split = "valid")) as [-> | Hvalid].
  { rewrite lookup_insert_eq. by rewrite bool_decide_eq_true_2 by tauto. }
  rewrite lookup_insert_ne by done.
  destruct (decide (split = "test")) as [-> | Htest].
  { rewrite lookup_singleton_eq. by rewrite bool_decide_eq_true_2 by tauto. }
  rewrite lookup_singleton_ne by done.
  by rewrite bool_decide_eq_false_2 by tauto.
Qed.

Lemma int_frac_bounds (n : nat) :
  (10 * int_frac 8 n ≤ 8 * n < 10 * int_frac 8 n + 10)%nat ∧
  (10 * int_frac 9 n ≤ 9 * n < 10 * int_frac 9 n + 10)%nat.
Proof.
  unfold int_frac.
  pose proof (Nat.div_mod_eq (8 * n) 10). pose proof (Nat.mod_upper_bound (8 * n) 10).
  pose proof (Nat.div_mod_eq (9 * n) 10). pose proof (Nat.mod_upper_bound (9 * n) 10).
  lia.
Qed.

Lemma length_segment split (l : list nat) :
  length (segment split l) = segment_length split (length l).
Proof.
  unfold segment, segment_length. simpl.
  destruct (int_frac_bounds (length l)) as [H8 H9].
  repeat case_bool_decide; rewrite ?length_drop, ?length_take; lia.
Qed.

(** X5. When [randperm] returns a permutation, [split_indices] cuts a list of
    [n] indices into three parts under the keys [train], [valid] and [test]
    that together are a rearrangement of the list: nothing is lost, nothing
    is added, nothing is in two parts when the list has no duplicates; their
    lengths are [int(0.8 n)], [int(0.9 n) - int(0.8 n)] and
    [n - int(0.9 n)]. *)
Theorem split_indices_partition idxs g :
  randperm_ok →
  ∃ d g' train valid test,
    split_indices idxs g = (Ok d, g') ∧
    dict_get d "train" = Ok train ∧
    dict_get d "valid" = Ok valid ∧
    dict_get d "test" = Ok test ∧
    train ++ valid ++ test ≡ₚ idxs ∧
    length train = int_frac 8 (length idxs) ∧
    length valid = (int_frac 9 (length idxs) - int_frac 8 (length idxs))%nat ∧
    length test = (length idxs - int_frac 9 (length idxs))%nat ∧
    (NoDup idxs → NoDup (train ++ valid ++ test)).
Proof.
  intros Hok.
  destruct (split_indices_segments idxs g Hok) as (l & g' & Hlp & _ & Hsplit).
  eexists _, g', _, _, _. split; [exact Hsplit |].
  rewrite !dict_get_segments.
  rewrite !bool_decide_eq_true_2 by (unfold known_split; tauto).
  split_and!; try reflexivity.
  - by rewrite segments_cover.
  - by rewrite length_segment, (Permutation_length Hlp).
  - by rewrite length_segment, (Permutation_length Hlp).
  - by rewrite length_segment, (Permutation_length Hlp).
  - intros Hnd. rewrite segments_cover. by rewrite Hlp.
Qed.


(** ** The loaders *)

(** Every loader a directory gives, when the permutation is one: both parts
    handed to the constructor are prefixes, of one common length, of the
    slices of two shuffled buckets that do not depend on the split. *)
Lemma make_unpaired_loader_ok listing seed young_max old_min ds young_idx old_idx :
  randperm_ok →
  UTKFace_init listing = Ok ds →
  bucket_loop young_max old_min (files ds) 0 [] [] = Ok (young_idx, old_idx) →
  young_idx ≠ [] → old_idx ≠ [] →
  ∃ sy so,
    sy ≡ₚ young_idx ∧ so ≡ₚ old_idx ∧
    ∀ split bs,
      make_unpaired_loader listing split bs seed young_max old_min
        = if bool_decide (known_split split) then
            let limit := Nat.min (length (segment split sy)) (length (segment split so)) in
            DataLoader_init (take limit (segment split sy)) (take limit (segment split so))
              bs (bool_decide (split = "train")) (bool_decide (split = "train"))
          else Raise KeyError.
Proof.
  intros Hok Hds Hb Hy Ho.
  destruct (split_indices_segments young_idx (manual_seed seed) Hok)
    as (sy & g1 & Hsy & _ & Hsplity).
  destruct (split_indices_segments old_idx g1 Hok) as (so & g2 & Hso & _ & Hsplito).
  exists sy, so. split_and!; [done | done |]. intros split bs.
  unfold make_unpaired_loader. rewrite Hds. simpl. rewrite Hb. simpl.
  rewrite bool_decide_eq_false_2 by tauto.
  rewrite Hsplity. simpl. rewrite dict_get_segments.
  destruct (bool_decide (known_split split)) eqn:Hsplit; simpl; [| done].
  rewrite Hsplito. simpl. rewrite dict_get_segments, Hsplit. reflexivity.
Qed.

(** X6. On a directory that passes the checks on the data, a split name
    raises [KeyError] exactly when it is none of [train], [valid] and [test];
    [val], the name the metrics use, is one that does. *)
Theorem unknown_split_raises_KeyError listing split bs seed young_max old_min
    ds young_idx old_idx :
  randperm_ok →
  UTKFace_init listing = Ok ds →
  bucket_loop young_max old_min (files ds) 0 [] [] = Ok (young_idx, old_idx) →
  young_idx ≠ [] → old_idx ≠ [] →
  (make_unpaired_loader listing split bs seed young_max old_min = Raise KeyError
   ↔ ¬ known_split split) ∧
  make_unpaired_loader listing "val" bs seed young_max old_min = Raise KeyError.
Proof.
  intros Hok Hds Hb Hy Ho.
  destruct (make_unpaired_loader_ok listing seed young_max old_min ds young_idx old_idx
              Hok Hds Hb Hy Ho) as (sy & so & _ & _ & Hmk).
  rewrite !Hmk. split.
  - destruct (bool_decide (known_split split)) eqn:Hknown.
    + apply bool_decide_eq_true in Hknown. cbv zeta. split; [| tauto].
      intros Hraise. exfalso. unfold DataLoader_init in Hraise.
      repeat match type of Hraise with
             | (if ?c then _ else _) = _ => destruct c
             end; discriminate.
    + apply bool_decide_eq_false in Hknown. done.
  - rewrite bool_decide_eq_false_2; [done |].
    unfold known_split. intros [? | [? | ?]]; discriminate.
Qed.

Lemma make_unpaired_loader_lengths listing split bs seed young_max old_min dl :
  make_unpaired_loader listing split bs seed young_max old_min = Ok dl →
  length (part_y dl) = length (part_o dl).
Proof.
  unfold make_unpaired_loader.
  destruct (UTKFace_init listing) as [ds |]; simpl; [| done].
  destruct (bucket_loop _ _ _ _ _ _) as [[yi oi] |]; simpl; [| done].
  case_bool_decide; [done |].
  destruct (split_indices yi _) as [dy g1].
  destruct dy as [dy |]; simpl; [| done].
  destruct (dict_get dy split) as [py |]; simpl; [| done].
  destruct (split_indices oi g1) as [do g2].
  destruct do as [do |]; simpl; [| done].
  destruct (dict_get do split) as [po |]; simpl; [| done].
  intros Hdl. apply DataLoader_init_Ok in Hdl as [-> _]. simpl.
  rewrite !length_take. lia.
Qed.

(** X7. In a loader that was built, the young and the old part have the same
    length, which is the length of the [Unpaired] dataset. When it is zero,
    reading any item divides by zero; otherwise item [idx] pairs the entries
    at position [idx mod length] of both parts, so [idx] and [idx + length]
    read the same pair. *)
Theorem unpaired_items_wrap listing split bs seed young_max old_min dl (idx : nat) :
  make_unpaired_loader listing split bs seed young_max old_min = Ok dl →
  length (part_y dl) = Unpaired_len dl ∧
  length (part_o dl) = Unpaired_len dl ∧
  (Unpaired_len dl = 0%nat → Unpaired_getitem dl idx = None) ∧
  ((0 < Unpaired_len dl)%nat →
   ∃ a b, Unpaired_getitem dl idx = Some (a, b) ∧
          part_y dl !! (idx mod Unpaired_len dl)%nat = Some a ∧
          part_o dl !! (idx mod Unpaired_len dl)%nat = Some b ∧
          Unpaired_getitem dl (idx + Unpaired_len dl) = Some (a, b)).
Proof.
  intros Hdl. apply make_unpaired_loader_lengths in Hdl.
  unfold Unpaired_len, Unpaired_getitem. rewrite <- Hdl, Nat.max_id.
  split_and!; [done | done | |].
  - intros Hz. rewrite bool_decide_eq_true_2; [done |].
    left. by apply length_zero_iff_nil.
  - intros Hpos.
    assert (Hy : part_y dl ≠ []) by (intros Hn; rewrite Hn in Hpos; simpl in Hpos; lia).
    assert (Ho : part_o dl ≠ []).
    { intros Hn. rewrite Hn in Hdl. simpl in Hdl. lia. }
    rewrite bool_decide_eq_false_2 by tauto.
    assert (Hlt : (idx mod length (part_y dl) < length (part_y dl))%nat)
      by (apply Nat.mod_upper_bound; lia).
    destruct (lookup_lt_is_Some_2 (part_y dl) _ Hlt) as [a Ha].
    rewrite Hdl in Hlt.
    destruct (lookup_lt_is_Some_2 (part_o dl) _ Hlt) as [b Hb].
    rewrite <- Hdl in Hb.
    exists a, b.
    assert (Hwrap : ((idx + length (part_y dl)) mod length (part_y dl)
                     = idx mod length (part_y dl))%nat).
    { rewrite <- (Nat.Div0.add_mod_idemp_r idx), Nat.Div0.mod_same, Nat.add_0_r. done. }
    rewrite Hwrap, Ha, Hb. done.
Qed.

(** X8. Every item of a loader pairs a file of the young range with a file of
    the old range: the first index is one of a file whose age [a] has
    [18 <= a <= young_max], the second of a file whose age is at least
    [old_min] and outside the young range. *)
Theorem item_pairs_young_with_old listing split bs seed young_max old_min dl
    (idx a b : nat) :
  make_unpaired_loader listing split bs seed young_max old_min = Ok dl →
  Unpaired_getitem dl idx = Some (a, b) →
  ∃ ds fa fb age_a age_b,
    UTKFace_init listing = Ok ds ∧
    files ds !! a = Some fa ∧ py_int (split_head "_" fa) = Some age_a ∧
    18 ≤ age_a ≤ young_max ∧
    files ds !! b = Some fb ∧ py_int (split_head "_" fb) = Some age_b ∧
    old_min ≤ age_b ∧ ¬ (18 ≤ age_b ≤ young_max).
Proof.
  intros Hdl Hitem.
  apply make_unpaired_loader_parts in Hdl
    as (ds & yi & oi & Hds & Hb & _ & _ & Hpy & Hpo).
  unfold Unpaired_getitem in Hitem. case_bool_decide; [done |].
  destruct (part_y dl !! _) as [a' |] eqn:Ha; simpl in Hitem; [| done].
  destruct (part_o dl !! _) as [b' |] eqn:Hb'; simpl in Hitem; [| done].
  injection Hitem as -> ->.
  apply list_elem_of_lookup_2, Hpy in Ha.
  apply list_elem_of_lookup_2, Hpo in Hb'.
  destruct (bucket_loop_spec _ _ _ _ _ _ _ _ Hb a) as [Hya _].
  destruct (bucket_loop_spec _ _ _ _ _ _ _ _ Hb b) as [_ Hob].
  apply Hya in Ha as [Hnil | (fa & age_a & _ & Hfa & Hpa & Hle & Hge)];
    [by apply elem_of_nil in Hnil |].
  apply Hob in Hb' as [Hnil | (fb & age_b & _ & Hfb & Hpb & Hn & Hge')];
    [by apply elem_of_nil in Hnil |].
  rewrite Nat.sub_0_r in Hfa, Hfb.
  exists ds, fa, fb, age_a, age_b. split_and!; try done. lia.
Qed.

Lemma unpaired_len_segments listing split bs seed young_max old_min dl :
  randperm_ok →
  make_unpaired_loader listing split bs seed young_max old_min = Ok dl →
  ∃ ds young_idx old_idx,
    UTKFace_init listing = Ok ds ∧
    bucket_loop young_max old_min (files ds) 0 [] [] = Ok (young_idx, old_idx) ∧
    known_split split ∧
    Unpaired_len dl = Nat.min (segment_length split (length young_idx))
                              (segment_length split (length old_idx)).
Proof.
  intros Hok Hdl.
  pose proof (make_unpaired_loader_parts _ _ _ _ _ _ _ Hdl)
    as (ds & yi & oi & Hds & Hb & Hy & Ho & _ & _).
  destruct (make_unpaired_loader_ok listing seed young_max old_min ds yi oi
              Hok Hds Hb Hy Ho) as (sy & so & Hsy & Hso & Hmk).
  rewrite Hmk in Hdl. exists ds, yi, oi.
  case_bool_decide as Hsplit; [| done]. cbv zeta in Hdl.
  apply DataLoader_init_Ok in Hdl as [-> _].
  split_and!; [done | done | done |].
  unfold Unpaired_len. simpl. rewrite !length_take, !length_segment.
  rewrite (Permutation_length Hsy), (Permutation_length Hso). lia.
Qed.

(** X9. The number of pairs in the loader of a split is the smaller of the
    two slice lengths: with [y] young and [o] old files it is
    [min(int(0.8 y), int(0.8 o))] for [train],
    [min(int(0.9 y) - int(0.8 y), int(0.9 o) - int(0.8 o))] for [valid] and
    [min(y - int(0.9 y), o - int(0.9 o))] for [test]; the surplus of the
    larger bucket is not read. *)
Theorem loader_size listing split bs seed young_max old_min dl :
  randperm_ok →
  make_unpaired_loader listing split bs seed young_max old_min = Ok dl →
  ∃ ds young_idx old_idx,
    UTKFace_init listing = Ok ds ∧
    bucket_loop young_max old_min (files ds) 0 [] [] = Ok (young_idx, old_idx) ∧
    known_split split ∧
    Unpaired_len dl = Nat.min (segment_length split (length young_idx))
                              (segment_length split (length old_idx)) ∧
    (Unpaired_len dl ≤ length young_idx)%nat ∧
    (Unpaired_len dl ≤ length old_idx)%nat.
Proof.
  intros Hok Hdl.
  destruct (unpaired_len_segments _ _ _ _ _ _ _ Hok Hdl)
    as (ds & yi & oi & Hds & Hb & Hsplit & Hlen).
  exists ds, yi, oi. split_and!; [done | done | done | done | |].
  - rewrite Hlen. unfold segment_length.
    destruct (int_frac_bounds (length yi)) as [H8 H9].
    repeat case_bool_decide; lia.
  - rewrite Hlen. unfold segment_length.
    destruct (int_frac_bounds (length oi)) as [H8 H9].
    repeat case_bool_decide; lia.
Qed.




(** X11. The three loaders of [prepare_dataset] share no image: no index
    occurs in the young parts of two of them, nor twice in one, and the same
    holds for the old parts. *)
Theorem splits_do_not_overlap listing tb eb seed train_loader val_loader test_loader :
  randperm_ok →
  prepare_dataset listing tb eb seed = Ok (train_loader, val_loader, test_loader) →
  NoDup (part_y train_loader ++ part_y val_loader ++ part_y test_loader) ∧
  NoDup (part_o train_loader ++ part_o val_loader ++ part_o test_loader).
Proof.
  intros Hok Hprep. unfold prepare_dataset in Hprep.
  destruct (make_unpaired_loader listing "train" _ _ _ _) as [tr |] eqn:Htr;
    simpl in Hprep; [| done].
  destruct (make_unpaired_loader listing "valid" _ _ _ _) as [va |] eqn:Hva;
    simpl in Hprep; [| done].
  destruct (make_unpaired_loader listing "test" _ _ _ _) as [te |] eqn:Hte;
    simpl in Hprep; [| done].
  injection Hprep as <- <- <-.
  pose proof (make_unpaired_loader_parts _ _ _ _ _ _ _ Htr)
    as (ds & yi & oi & Hds & Hb & Hy & Ho & _ & _).
  destruct (make_unpaired_loader_ok listing seed default_young_max default_old_min
              ds yi oi Hok Hds Hb Hy Ho) as (sy & so & Hsy & Hso & Hmk).
  rewrite Hmk in Htr, Hva, Hte. simpl in Htr, Hva, Hte.
  apply DataLoader_init_Ok in Htr as [-> _].
  apply DataLoader_init_Ok in Hva as [-> _].
  apply DataLoader_init_Ok in Hte as [-> _]. simpl.
  destruct (bucket_loop_NoDup _ _ _ _ _ Hb) as (Hndy & Hndo).
  assert (Hsub : ∀ (l : list nat) n1 n2 n3,
            take n1 (segment "train" l) ++ take n2 (segment "valid" l)
              ++ take n3 (segment "test" l) `sublist_of` l).
  { intros l n1 n2 n3. rewrite <- (segments_cover l) at 4.
    repeat apply sublist_app; apply sublist_take. }
  split.
  - eapply sublist_NoDup; [| apply Hsub]. by rewrite Hsy.
  - eapply sublist_NoDup; [| apply Hsub]. by rewrite Hso.
Qed.

End LoaderMore.

(** ** At a small directory *)

Lemma bucket_precedence_witness :
  (3%nat ∈ [1%nat; 2%nat; 3%nat] ↔ 18 ≤ 45 ≤ 50) ∧
  (3%nat ∈ @nil nat ↔ 40 ≤ 45 ∧ ¬ (18 ≤ 45 ≤ 50)) ∧
  ¬ (3%nat ∈ [1%nat; 2%nat; 3%nat] ∧ 3%nat ∈ @nil nat).
Proof.
  apply (bucket_precedence (H := Toy.runtime) 50 40 ToyMore.names4
           [1%nat; 2%nat; 3%nat] [] 3 "45_1_0_b.jpg" 45).
  - vm_compute. reflexivity.
  - reflexivity.
  - reflexivity.
Defined.

Lemma buckets_increasing_witness :
  StronglySorted lt [1%nat] ∧ StronglySorted lt [3%nat] ∧
  NoDup [1%nat] ∧ NoDup [3%nat] ∧
  (∀ j, j ∈ [1%nat] ∨ j ∈ [3%nat] → (j < length ToyMore.names4)%nat).
Proof.
  apply (buckets_increasing (H := Toy.runtime) default_young_max default_old_min
           ToyMore.names4 [1%nat] [3%nat]).
  vm_compute. reflexivity.
Defined.

Lemma malformed_name_fails_every_loader_witness :
  make_unpaired_loader (H := Toy.runtime) ["25_0_0_a.jpg"; "face_45.jpg"] "train" 4 42
    default_young_max default_old_min = Raise ValueError.
Proof.
  apply (malformed_name_fails_every_loader (H := Toy.runtime)
           ["25_0_0_a.jpg"; "face_45.jpg"] "train" 4 42
           default_young_max default_old_min "face_45.jpg").
  - apply (bool_decide_unpack _). vm_compute. exact I.
  - reflexivity.
  - reflexivity.
Defined.

Lemma split_indices_partition_witness :
  ∃ d g' train valid test,
    split_indices (H := Toy.runtime) (seq 0 10) () = (Ok d, g') ∧
    dict_get d "train" = Ok train ∧
    dict_get d "valid" = Ok valid ∧
    dict_get d "test" = Ok test ∧
    train ++ valid ++ test ≡ₚ seq 0 10 ∧
    length train = int_frac 8 (length (seq 0 10)) ∧
    length valid = (int_frac 9 (length (seq 0 10)) - int_frac 8 (length (seq 0 10)))%nat ∧
    length test = (length (seq 0 10) - int_frac 9 (length (seq 0 10)))%nat ∧
    (NoDup (seq 0 10) → NoDup (train ++ valid ++ test)).
Proof.
  apply (split_indices_partition (H := Toy.runtime) (seq 0 10) ()).
  intros n g. reflexivity.
Defined.

Lemma unknown_split_raises_KeyError_witness :
  (make_unpaired_loader (H := Toy.runtime) Toy.listing4 "validation" 1 42
     default_young_max default_old_min = Raise KeyError
   ↔ ¬ known_split "validation") ∧
  make_unpaired_loader (H := Toy.runtime) Toy.listing4 "val" 1 42
    default_young_max default_old_min = Raise KeyError.
Proof.
  apply (unknown_split_raises_KeyError (H := Toy.runtime) Toy.listing4 "validation" 1 42
           default_young_max default_old_min Toy.files4 [1%nat] [3%nat]).
  - intros n g. reflexivity.
  - vm_compute. reflexivity.
  - vm_compute. reflexivity.
  - discriminate.
  - discriminate.
Defined.

Lemma unpaired_items_wrap_witness :
  length (part_y ToyMore.test_loader4) = Unpaired_len ToyMore.test_loader4 ∧
  length (part_o ToyMore.test_loader4) = Unpaired_len ToyMore.test_loader4 ∧
  (Unpaired_len ToyMore.test_loader4 = 0%nat →
   Unpaired_getitem ToyMore.test_loader4 5 = None) ∧
  ((0 < Unpaired_len ToyMore.test_loader4)%nat →
   ∃ a b, Unpaired_getitem ToyMore.test_loader4 5 = Some (a, b) ∧
          part_y ToyMore.test_loader4 !! (5 mod Unpaired_len ToyMore.test_loader4)%nat
            = Some a ∧
          part_o ToyMore.test_loader4 !! (5 mod Unpaired_len ToyMore.test_loader4)%nat
            = Some b ∧
          Unpaired_getitem ToyMore.test_loader4 (5 + Unpaired_len ToyMore.test_loader4)
            = Some (a, b)).
Proof.
  apply (unpaired_items_wrap (H := Toy.runtime) Toy.listing4 "test" 1 42
           default_young_max default_old_min ToyMore.test_loader4 5).
  vm_compute. reflexivity.
Defined.

Lemma item_pairs_young_with_old_witness :
  ∃ ds fa fb age_a age_b,
    UTKFace_init Toy.listing4 = Ok ds ∧
    files ds !! 1%nat = Some fa ∧ py_int (Runtime := Toy.runtime) (split_head "_" fa) = Some age_a ∧
    18 ≤ age_a ≤ default_young_max ∧
    files ds !! 3%nat = Some fb ∧ py_int (Runtime := Toy.runtime) (split_head "_" fb) = Some age_b ∧
    default_old_min ≤ age_b ∧ ¬ (18 ≤ age_b ≤ default_young_max).
Proof.
  apply (item_pairs_young_with_old (H := Toy.runtime) Toy.listing4 "test" 1 42
           default_young_max default_old_min ToyMore.test_loader4 0 1 3).
  - vm_compute. reflexivity.
  - reflexivity.
Defined.

Lemma loader_size_witness :
  ∃ ds young_idx old_idx,
    UTKFace_init Toy.listing4 = Ok ds ∧
    bucket_loop (H := Toy.runtime) default_young_max default_old_min (files ds) 0 [] []
      = Ok (young_idx, old_idx) ∧
    known_split "test" ∧
    Unpaired_len ToyMore.test_loader4
      = Nat.min (segment_length "test" (length young_idx))
                (segment_length "test" (length old_idx)) ∧
    (Unpaired_len ToyMore.test_loader4 ≤ length young_idx)%nat ∧
    (Unpaired_len ToyMore.test_loader4 ≤ length old_idx)%nat.
Proof.
  apply (loader_size (H := Toy.runtime) Toy.listing4 "test" 1 42
           default_young_max default_old_min ToyMore.test_loader4).
  - intros n g. reflexivity.
  - vm_compute. reflexivity.
Defined.


Lemma splits_do_not_overlap_witness :
  NoDup (part_y ToyMore.train_loader12 ++ part_y ToyMore.val_loader12
         ++ part_y ToyMore.test_loader12) ∧
  NoDup (part_o ToyMore.train_loader12 ++ part_o ToyMore.val_loader12
         ++ part_o ToyMore.test_loader12).
Proof.
  apply (splits_do_not_overlap (H := Toy.runtime) ToyMore.listing12 1 1 42
           ToyMore.train_loader12 ToyMore.val_loader12 ToyMore.test_loader12).
  - intros n g. reflexivity.
  - vm_compute. reflexivity.
Defined.

End DataExtra.

(** * Further properties of the training code *)

Module TrainExtra.
Import Train Epoch Notions TrainFacts.

(** ** The schedule *)

(** X12. For a run of [N >= 1] epochs, at any epoch index, those outside
    [1, N] included: below [N // 2] the multiplier is 1; from [N // 2] on,
    as long as the ratio [(N - epoch) / (N - N // 2)] is within the range
    of a float, the function returns a value between 0 and 1, which is 1 at
    [N // 2], the ratio up to [N], and 0 from [N] on; at an index so far
    beyond the run that the ratio is no float, the division raises
    [OverflowError]. *)
Theorem lr_lambda_range (N epoch : Z) :
  1 ≤ N →
  (epoch < N `div` 2 → _lr_lambda N epoch = Ok 1%Qc) ∧
  (N `div` 2 ≤ epoch →
   Z.abs (N - epoch) < float_overflow * (N - N `div` 2) →
   ∃ q, _lr_lambda N epoch = Ok q ∧
        (0 ≤ q)%Qc ∧ (q ≤ 1)%Qc ∧
        (epoch = N `div` 2 → q = 1%Qc) ∧
        (epoch ≤ N → q = (Qc_of_Z (N - epoch) / Qc_of_Z (N - N `div` 2))%Qc) ∧
        (N ≤ epoch → q = 0%Qc)) ∧
  (N `div` 2 ≤ epoch →
   float_overflow * (N - N `div` 2) ≤ Z.abs (N - epoch) →
   _lr_lambda N epoch = Raise OverflowError).
Proof.
  intros HN. pose proof (start_decay_below N HN) as Hpos.
  assert (Hdpos : (0 < Qc_of_Z (N - N `div` 2))%Qc).
  { rewrite <- Z2Qc_inj_0. by apply (proj1 (Z2Qc_inj_lt _ _)). }
  assert (Hinv : (0 < / Qc_of_Z (N - N `div` 2))%Qc) by (by apply Qcinv_pos).
  split_and!.
  - intros Hfirst. unfold _lr_lambda. by rewrite bool_decide_eq_true_2.
  - intros Hsecond Hfloat. rewrite lr_lambda_decay_float by done.
    set (ratio := (Qc_of_Z (N - epoch) / Qc_of_Z (N - N `div` 2))%Qc).
    assert (Hle1 : (ratio ≤ 1)%Qc).
    { unfold ratio, Qcdiv.
      rewrite <- (Qcmult_inv_r (Qc_of_Z (N - N `div` 2))) by (by apply Qclt_not_eq in Hdpos).
      apply Qcmult_le_mono_nonneg_r; [by apply Qclt_le_weak |].
      apply (proj1 (Z2Qc_inj_le _ _)). lia. }
    eexists. split; [reflexivity |]. unfold py_max.
    case_bool_decide as Hpos'.
    + split_and!; [by apply Qclt_le_weak | done | | done |].
      * intros ->. unfold ratio, Qcdiv. apply Qcmult_inv_r. by apply Qclt_not_eq in Hdpos.
      * intros He. exfalso. apply (Qclt_not_le _ _ Hpos').
        unfold ratio, Qcdiv.
        rewrite <- (Qcmult_0_l (/ Qc_of_Z (N - N `div` 2))).
        apply Qcmult_le_mono_nonneg_r; [by apply Qclt_le_weak |].
        rewrite <- Z2Qc_inj_0. apply (proj1 (Z2Qc_inj_le _ _)). lia.
    + apply Qcnot_lt_le in Hpos'.
      split_and!; [done | done | | | done].
      * intros ->. exfalso. apply (Qcle_not_lt _ _ Hpos'). unfold ratio, Qcdiv.
        rewrite Qcmult_inv_r by (by apply Qclt_not_eq in Hdpos). done.
      * intros He. apply Qcle_antisym; [| done].
        unfold ratio, Qcdiv.
        rewrite <- (Qcmult_0_l (/ Qc_of_Z (N - N `div` 2))).
        apply Qcmult_le_mono_nonneg_r; [by apply Qclt_le_weak |].
        rewrite <- Z2Qc_inj_0. apply (proj1 (Z2Qc_inj_le _ _)). lia.
  - intros Hsecond Hover. unfold _lr_lambda, true_div.
    rewrite bool_decide_eq_false_2 by lia.
    rewrite bool_decide_eq_false_2 by lia.
    rewrite bool_decide_eq_true_2; [done |].
    rewrite (Z.abs_eq (N - N `div` 2)) by lia. done.
Qed.

(** X13. For [N = 0] and [N = -1] the decay branch divides by
    [N - N // 2 = 0]: at every epoch index from [N // 2] on, index 0 among
    them, the multiplier function raises [ZeroDivisionError]. *)
Theorem lr_lambda_without_epochs (N epoch : Z) :
  N = 0 ∨ N = -1 →
  N `div` 2 ≤ epoch →
  _lr_lambda N epoch = Raise ZeroDivisionError ∧
  _lr_lambda N 0 = Raise ZeroDivisionError.
Proof.
  intros HN He. split.
  - unfold _lr_lambda, true_div.
    rewrite bool_decide_eq_false_2 by lia.
    rewrite bool_decide_eq_true_2; [done |].
    destruct HN as [-> | ->]; reflexivity.
  - destruct HN as [-> | ->]; reflexivity.
Qed.

Lemma lr_lambda_range_witness :
  ((3 < 4 `div` 2 → _lr_lambda 4 3 = Ok 1%Qc) ∧
   (4 `div` 2 ≤ 3 →
    Z.abs (4 - 3) < float_overflow * (4 - 4 `div` 2) →
    ∃ q, _lr_lambda 4 3 = Ok q ∧
         (0 ≤ q)%Qc ∧ (q ≤ 1)%Qc ∧
         (3 = 4 `div` 2 → q = 1%Qc) ∧
         (3 ≤ 4 → q = (Qc_of_Z (4 - 3) / Qc_of_Z (4 - 4 `div` 2))%Qc) ∧
         (4 ≤ 3 → q = 0%Qc)) ∧
   (4 `div` 2 ≤ 3 →
    float_overflow * (4 - 4 `div` 2) ≤ Z.abs (4 - 3) →
    _lr_lambda 4 3 = Raise OverflowError)) ∧
  _lr_lambda 4 (10 ^ 400) = Raise OverflowError.
Proof.
  split.
  - apply (lr_lambda_range 4 3). lia.
  - apply (lr_lambda_range 4 (10 ^ 400)); [lia | by vm_compute | by vm_compute].
Defined.

Lemma lr_lambda_without_epochs_witness :
  _lr_lambda 0 5 = Raise ZeroDivisionError ∧
  _lr_lambda 0 0 = Raise ZeroDivisionError.
Proof. apply (lr_lambda_without_epochs 0 5); [by left | by vm_compute]. Defined.

(** ** The optimization step *)

Section StepMore.
Context `{Torch}.

Lemma model_zero_grad_eq opt (w : world) :
  model (zero_grad opt w) (param_group opt)
    = {| weights := weights (model w (param_group opt)); grad := None |}.
Proof. unfold zero_grad, set_model. simpl. by rewrite fn_lookup_insert. Qed.

Lemma model_backward_in loss d (w : world) m :
  m ∈ graph loss → model (backward loss d w) m = deposit (d m) (model w m).
Proof. intros Hm. unfold backward. simpl. by rewrite bool_decide_eq_true_2. Qed.

Lemma model_clip_in ms max_norm (w : world) m :
  m ∈ ms →
  model (clip_grad_norm_ ms max_norm w) m
    = {| weights := weights (model w m);
         grad := grad_scale (clip_coef (omap (λ m, grad (model w m)) ms) max_norm)
                 <$> grad (model w m) |}.
Proof. intros Hm. unfold clip_grad_norm_. simpl. by rewrite bool_decide_eq_true_2. Qed.

Lemma step_eq opt (w : world) g :
  grad (model w (param_group opt)) = Some g →
  let m := param_group opt in
  let r := adam (optim w m) (weights (model w m)) g in
  step opt w
    = {| model := <[m := {| weights := r.1; grad := Some g |}]> (model w);
         optim := <[m := r.2]> (optim w);
         mutations := mutations w ++ [m] |}.
Proof. intros Hg m r. subst m r. unfold step. rewrite Hg. by destruct (adam _ _ g). Qed.

(** One discriminator update, in full: the loss it returns and the one
    Adam update it makes. *)
Lemma update_discriminator_exact D (x : image) (fake : tensor image) (w : world) :
  let r := update_discriminator D {| param_group := D |} (input x) fake w in
  let θD := current_weights w D in
  let g := grad_disc θD x (data fake) in
  let step_grad := grad_scale (clip_coef [g] 1%Qc) g in
  data r.1 = (1 / 2 * (mse (disc_forward θD x) (ones_like (disc_forward θD x))
                    + mse (disc_forward θD (data fake))
                          (zeros_like (disc_forward θD (data fake)))))%Qc ∧
  model r.2 D = {| weights := (adam (optim w D) θD step_grad).1; grad := Some step_grad |} ∧
  optim r.2 D = (adam (optim w D) θD step_grad).2.
Proof.
  intros r θD g step_grad. subst r. unfold update_discriminator.
  set (w0 := zero_grad {| param_group := D |} w).
  match goal with
  | |- context [backward ?l ?d w0] => set (loss := l); set (w1 := backward loss d w0)
  end.
  set (w2 := clip_grad_norm_ [D] 1%Qc w1).
  cbn [fst snd].
  assert (Hθ : current_weights w0 D = θD).
  { unfold current_weights, w0. by rewrite weights_zero_grad. }
  assert (Hm0 : model w0 D = {| weights := θD; grad := None |}).
  { exact (model_zero_grad_eq {| param_group := D |} w). }
  assert (Hm1 : model w1 D = {| weights := θD; grad := Some g |}).
  { unfold w1. rewrite model_backward_in by (apply list_elem_of_here).
    rewrite Hm0, Hθ. reflexivity. }
  assert (Hm2 : model w2 D = {| weights := θD; grad := Some step_grad |}).
  { unfold w2. rewrite model_clip_in by (apply list_elem_of_here).
    cbn [omap list_omap]. rewrite Hm1. reflexivity. }
  rewrite (step_eq {| param_group := D |} w2 step_grad)
    by (cbn [param_group]; by rewrite Hm2).
  cbn [param_group model optim]. rewrite !fn_lookup_insert, Hm2. cbn [weights].
  split_and!; [| done | done].
  unfold loss. clear -Hθ. clearbody w0. cbn. unfold current_weights in Hθ.
  rewrite !Hθ. reflexivity.
Qed.


(** The generator phase, in full; the gradients are taken at a parameter
    assignment that agrees with the one at entry on every module. *)
Lemma update_generators_exact (x y : image) lambda_adv lambda_cyc lambda_id (w : world) :
  let r := update_generators {| param_group := G |} {| param_group := F |} (x, y)
             lambda_adv lambda_cyc lambda_id w in
  let θ := current_weights w in
  let ls := forward_losses θ lambda_adv lambda_cyc lambda_id (x, y) in
  ∃ θ' : module_name → params,
    (∀ m, θ' m = θ m) ∧
    let gG := grad_gen_total θ' x y lambda_adv lambda_cyc lambda_id G in
    let gF := grad_gen_total θ' x y lambda_adv lambda_cyc lambda_id F in
    let c := clip_coef [gG; gF] 1%Qc in
    data (fake_x r.1) = gen_forward (θ F) y ∧
    data (fake_y r.1) = gen_forward (θ G) x ∧
    data (loss_f_adv r.1) = b_loss_f_adv ls ∧
    data (loss_g_adv r.1) = b_loss_g_adv ls ∧
    data (loss_cyc r.1) = b_loss_cyc ls ∧
    data (loss_id r.1) = b_loss_id ls ∧
    data (loss_gen_total r.1) = b_loss_gen_total ls ∧
    model r.2 G = {| weights := (adam (optim w G) (θ G) (grad_scale c gG)).1;
                     grad := Some (grad_scale c gG) |} ∧
    model r.2 F = {| weights := (adam (optim w F) (θ F) (grad_scale c gF)).1;
                     grad := Some (grad_scale c gF) |} ∧
    optim r.2 G = (adam (optim w G) (θ G) (grad_scale c gG)).2 ∧
    optim r.2 F = (adam (optim w F) (θ F) (grad_scale c gF)).2.
Proof.
  intros r θ ls. subst r. unfold update_generators.
  set (w0 := zero_grad {| param_group := F |} (zero_grad {| param_group := G |} w)).
  match goal with
  | |- context [backward ?l ?d w0] => set (loss := l); set (w1 := backward loss d w0)
  end.
  set (w2 := clip_grad_norm_ [G; F] 1%Qc w1).
  set (w3 := step {| param_group := G |} w2).
  cbn [fst snd fake_x fake_y loss_f_adv loss_g_adv loss_cyc loss_id loss_gen_total].
  exists (current_weights w0).
  assert (Hw0 : ∀ m, weights (model w0 m) = weights (model w m)).
  { intros m. unfold w0. by rewrite !weights_zero_grad. }
  split; [exact Hw0 |].
  set (gG := grad_gen_total (current_weights w0) x y lambda_adv lambda_cyc lambda_id G).
  set (gF := grad_gen_total (current_weights w0) x y lambda_adv lambda_cyc lambda_id F).
  set (c := clip_coef [gG; gF] 1%Qc). cbv zeta.
  assert (Hm0G : model w0 G = {| weights := θ G; grad := None |}).
  { unfold w0. rewrite model_zero_grad_ne by done.
    exact (model_zero_grad_eq {| param_group := G |} w). }
  assert (Hm0F : model w0 F = {| weights := θ F; grad := None |}).
  { unfold w0.
    pose proof (model_zero_grad_eq {| param_group := F |}
                  (zero_grad {| param_group := G |} w)) as Hz.
    cbn [param_group] in Hz. rewrite Hz, weights_zero_grad. done. }
  assert (HG : G ∈ graph loss) by (apply list_elem_of_In; cbn; tauto).
  assert (HF : F ∈ graph loss) by (apply list_elem_of_In; cbn; tauto).
  assert (Hm1G : model w1 G = {| weights := θ G; grad := Some gG |}).
  { unfold w1. rewrite model_backward_in by done. rewrite Hm0G. reflexivity. }
  assert (Hm1F : model w1 F = {| weights := θ F; grad := Some gF |}).
  { unfold w1. rewrite model_backward_in by done. rewrite Hm0F. reflexivity. }
  assert (Hm2G : model w2 G = {| weights := θ G; grad := Some (grad_scale c gG) |}).
  { unfold w2. rewrite model_clip_in by (apply list_elem_of_In; cbn; tauto).
    cbn [omap list_omap]. rewrite Hm1G, Hm1F. reflexivity. }
  assert (Hm2F : model w2 F = {| weights := θ F; grad := Some (grad_scale c gF) |}).
  { unfold w2. rewrite model_clip_in by (apply list_elem_of_In; cbn; tauto).
    cbn [omap list_omap]. rewrite Hm1G, Hm1F. reflexivity. }
  assert (Hw3 : w3 = {| model := <[G := {| weights := (adam (optim w2 G) (θ G)
                                                     (grad_scale c gG)).1;
                                           grad := Some (grad_scale c gG) |}]> (model w2);
                        optim := <[G := (adam (optim w2 G) (θ G) (grad_scale c gG)).2]>
                                   (optim w2);
                        mutations := mutations w2 ++ [G] |}).
  { unfold w3. rewrite (step_eq {| param_group := G |} w2 (grad_scale c gG))
      by (cbn [param_group]; by rewrite Hm2G).
    cbn [param_group]. by rewrite Hm2G. }
  assert (Hm3F : model w3 F = {| weights := θ F; grad := Some (grad_scale c gF) |}).
  { rewrite Hw3. cbn [model]. by rewrite fn_lookup_insert_ne. }
  rewrite (step_eq {| param_group := F |} w3 (grad_scale c gF))
    by (cbn [param_group]; by rewrite Hm3F).
  cbn [param_group model optim]. rewrite !fn_lookup_insert, Hm3F. cbn [weights].
  rewrite !fn_lookup_insert_ne by done.
  rewrite Hw3. cbn [model optim]. rewrite !fn_lookup_insert.
  rewrite fn_lookup_insert_ne by done.
  assert (Hloss : ∀ t : tensor Qc, True) by done.
  split_and!; try reflexivity.
  all: unfold loss; clear -Hw0; clearbody w0; cbn; unfold θ, current_weights;
    rewrite ?Hw0; reflexivity.
Qed.


(** X14. The record one optimization step returns holds, under the seven
    [train/] keys, the losses of the batch computed with the parameters the
    four modules had at entry to the step: the generator losses before the
    generators' update, and the discriminator losses with the discriminators
    before their own update, on the fakes the generators made before
    theirs. *)
Theorem train_step_metrics (w : world) (x y : image) (lambda_adv lambda_cyc lambda_id : Qc) :
  let r := perform_train_step (x, y) lambda_adv lambda_cyc lambda_id
             initialize_optimizers.1.1.1 initialize_optimizers.1.1.2
             initialize_optimizers.1.2 initialize_optimizers.2 w in
  let ls := forward_losses (current_weights w) lambda_adv lambda_cyc lambda_id (x, y) in
  r.1 = {[ "train/loss_DX" := b_loss_DX ls;
           "train/loss_DY" := b_loss_DY ls;
           "train/loss_f_adv" := b_loss_f_adv ls;
           "train/loss_g_adv" := b_loss_g_adv ls;
           "train/loss_cyc" := b_loss_cyc ls;
           "train/loss_id" := b_loss_id ls;
           "train/loss_gen_total" := b_loss_gen_total ls ]}.
Proof.
  intros r ls. subst r. cbn [initialize_optimizers fst snd]. unfold perform_train_step.
  pose proof (update_generators_exact x y lambda_adv lambda_cyc lambda_id w) as Hgen.
  pose proof (update_generators_spec (x, y) lambda_adv lambda_cyc lambda_id w) as Hframe.
  cbn [initialize_optimizers fst snd] in Hframe.
  destruct (update_generators _ _ _ _ _ _ w) as [gp w1].
  cbn [fst snd] in Hgen, Hframe.
  destruct Hgen as (θ' & _ & Hfx & Hfy & Hfadv & Hgadv & Hcyc & Hid & Htot & _).
  destruct Hframe as (_ & _ & _ & Hdisc).
  unfold update_discriminators. cbn [fst snd].
  pose proof (update_discriminator_exact DX x (fake_x gp) w1) as HDX.
  pose proof (update_discriminator_spec DX x (fake_x gp) w1) as HDXf.
  destruct (update_discriminator DX _ _ _ w1) as [loss_DX w2].
  cbn [fst snd] in HDX, HDXf. destruct HDX as (HlDX & _). destruct HDXf as (_ & _ & HoDX).
  pose proof (update_discriminator_exact DY y (fake_y gp) w2) as HDY.
  destruct (update_discriminator DY _ _ _ w2) as [loss_DY w3].
  cbn [fst snd] in HDY. destruct HDY as (HlDY & _).
  cbn [fst snd]. rewrite HlDX, HlDY, Hfadv, Hgadv, Hcyc, Hid, Htot, Hfx, Hfy.
  unfold current_weights in *.
  rewrite (proj1 (HoDX DY ltac:(done))).
  destruct (Hdisc DX) as [-> _]; [by left |].
  destruct (Hdisc DY) as [-> _]; [by right |].
  reflexivity.
Qed.

(** X15. One optimization step makes exactly one Adam update per module,
    each from the parameters and the optimizer state at entry to the step: G
    and F with their gradients of the total generator loss, both scaled by
    the one clipping coefficient of the pair at max norm 1; DX and DY each
    with the gradient of its own loss on the real batch and on the fake the
    generators made before their update, clipped on its own. Gradients left
    from an earlier step play no part. The gradients of the generator loss
    are taken at a parameter assignment that agrees with the one at entry on
    every module. *)
Theorem train_step_updates (w : world) (x y : image) (lambda_adv lambda_cyc lambda_id : Qc) :
  let r := perform_train_step (x, y) lambda_adv lambda_cyc lambda_id
             initialize_optimizers.1.1.1 initialize_optimizers.1.1.2
             initialize_optimizers.1.2 initialize_optimizers.2 w in
  let θ := current_weights w in
  ∃ θ' : module_name → params,
    (∀ m, θ' m = θ m) ∧
    let gG := grad_gen_total θ' x y lambda_adv lambda_cyc lambda_id G in
    let gF := grad_gen_total θ' x y lambda_adv lambda_cyc lambda_id F in
    let c := clip_coef [gG; gF] 1%Qc in
    let gDX := grad_disc (θ DX) x (gen_forward (θ F) y) in
    let gDY := grad_disc (θ DY) y (gen_forward (θ G) x) in
    let update m g := adam (optim w m) (θ m) g in
    (current_weights r.2 G, optim r.2 G) = update G (grad_scale c gG) ∧
    (current_weights r.2 F, optim r.2 F) = update F (grad_scale c gF) ∧
    (current_weights r.2 DX, optim r.2 DX)
      = update DX (grad_scale (clip_coef [gDX] 1%Qc) gDX) ∧
    (current_weights r.2 DY, optim r.2 DY)
      = update DY (grad_scale (clip_coef [gDY] 1%Qc) gDY).
Proof.
  intros r θ. subst r. cbn [initialize_optimizers fst snd]. unfold perform_train_step.
  pose proof (update_generators_exact x y lambda_adv lambda_cyc lambda_id w) as Hgen.
  pose proof (update_generators_spec (x, y) lambda_adv lambda_cyc lambda_id w) as Hframe.
  cbn [initialize_optimizers fst snd] in Hframe.
  destruct (update_generators _ _ _ _ _ _ w) as [gp w1].
  cbn [fst snd] in Hgen, Hframe.
  destruct Hgen as (θ' & Hθ' & Hfx & Hfy & _ & _ & _ & _ & _ & HmG & HmF & HoG & HoF).
  destruct Hframe as (_ & _ & _ & Hdisc).
  unfold update_discriminators. cbn [fst snd].
  pose proof (update_discriminator_exact DX x (fake_x gp) w1) as HDX.
  pose proof (update_discriminator_spec DX x (fake_x gp) w1) as HDXf.
  destruct (update_discriminator DX _ _ _ w1) as [loss_DX w2].
  cbn [fst snd] in HDX, HDXf. destruct HDX as (_ & HmDX & HoDX').
  destruct HDXf as (_ & _ & HoDX).
  pose proof (update_discriminator_exact DY y (fake_y gp) w2) as HDY.
  pose proof (update_discriminator_spec DY y (fake_y gp) w2) as HDYf.
  destruct (update_discriminator DY _ _ _ w2) as [loss_DY w3].
  cbn [fst snd] in HDY, HDYf. destruct HDY as (_ & HmDY & HoDY').
  destruct HDYf as (_ & _ & HoDY).
  exists θ'. split; [exact Hθ' |]. cbv zeta. cbn [fst snd].
  unfold current_weights in *.
  destruct (Hdisc DX) as [HwDX HopDX]; [by left |].
  destruct (Hdisc DY) as [HwDY HopDY]; [by right |].
  split_and!.
  - rewrite (proj1 (HoDY G ltac:(done))), (proj2 (HoDY G ltac:(done))).
    rewrite (proj1 (HoDX G ltac:(done))), (proj2 (HoDX G ltac:(done))).
    rewrite HmG, HoG. cbn [weights]. symmetry; apply surjective_pairing.
  - rewrite (proj1 (HoDY F ltac:(done))), (proj2 (HoDY F ltac:(done))).
    rewrite (proj1 (HoDX F ltac:(done))), (proj2 (HoDX F ltac:(done))).
    rewrite HmF, HoF. cbn [weights]. symmetry; apply surjective_pairing.
  - rewrite (proj1 (HoDY DX ltac:(done))), (proj2 (HoDY DX ltac:(done))).
    rewrite HmDX, HoDX'. cbn [weights]. rewrite Hfx, HwDX, HopDX.
    symmetry; apply surjective_pairing.
  - rewrite HmDY, HoDY'. cbn [weights]. rewrite Hfy.
    rewrite (proj1 (HoDX DY ltac:(done))), (proj2 (HoDX DY ltac:(done))).
    rewrite HwDY, HopDY. symmetry; apply surjective_pairing.
Qed.

End StepMore.

(** ** The evaluation pass *)

Section EvaluateMore.
Context `{Torch}.

Lemma Ok_inj {A} (a b : A) : Ok a = Ok b → a = b.
Proof. by intros [= ->]. Qed.

(** A pass returns only over at least one batch, and when [compute]
    returns; what it returns is then the record of the averages. *)
Lemma evaluate_epoch_returns θ loader split la lc li f metrics :
  (evaluate_epoch θ loader split la lc li f).1 = Ok metrics →
  let ls := forward_losses θ la lc li <$> loader in
  let st := foldl (fid_batch θ) (fid_reset (acc f)) loader in
  loader ≠ [] ∧ fid_ready st = true ∧
  metrics = (λ v, v / Qc_of_Z (Z.of_nat (length loader)))%Qc <$>
            split_metrics split
              (total_loss b_loss_DX ls) (total_loss b_loss_DY ls)
              (total_loss b_loss_f_adv ls) (total_loss b_loss_g_adv ls)
              (total_loss b_loss_cyc ls) (total_loss b_loss_id ls)
              (total_loss b_loss_gen_total ls) (fid_compute st).
Proof.
  intros Heval ls st. rewrite evaluate_epoch_unfold in Heval. cbn [fst] in Heval.
  fold ls st in Heval.
  destruct (fid_ready st) eqn:Hready; [| discriminate Heval].
  destruct (decide (loader = [])) as [-> | Hne].
  { cbn [length Z.of_nat] in Heval.
    rewrite per_batch_average_zero in Heval by apply split_metrics_nonempty.
    discriminate Heval. }
  assert (Hn : Z.of_nat (length loader) ≠ 0).
  { clear Heval. destruct loader; [contradiction | simpl; lia]. }
  rewrite (per_batch_average_nonzero _ _ Hn) in Heval.
  split; [exact Hne |]. split; [reflexivity |].
  symmetry. exact (Ok_inj _ _ Heval).
Qed.

(** X16. When [reset] restores one fixed state, what the pass returns and
    the accumulator it leaves do not depend on what the accumulator held
    before: the passes made earlier on the same [fid_metric] object leave no
    mark on the metrics of this one. *)
Theorem evaluate_epoch_forgets_accumulator θ loader split la lc li f f' :
  (∀ s s', fid_reset s = fid_reset s') →
  (evaluate_epoch θ loader split la lc li f).1
    = (evaluate_epoch θ loader split la lc li f').1 ∧
  acc (evaluate_epoch θ loader split la lc li f).2
    = acc (evaluate_epoch θ loader split la lc li f').2.
Proof.
  intros Hreset. split.
  - rewrite !evaluate_epoch_unfold. cbn [fst].
    by rewrite (Hreset (acc f) (acc f')).
  - rewrite !evaluate_epoch_state. cbn [acc].
    by rewrite (Hreset (acc f) (acc f')).
Qed.

Lemma suffix_metrics_keys a1 a2 a3 a4 a5 a6 a7 a8 s :
  is_Some (suffix_metrics a1 a2 a3 a4 a5 a6 a7 a8 !! s)
  ↔ s ∈ ["/loss_DX"; "/loss_DY"; "/loss_f_adv"; "/loss_g_adv";
         "/loss_cyc"; "/loss_id"; "/loss_gen_total"; "/fid_val"].
Proof.
  unfold suffix_metrics.
  rewrite !lookup_insert_is_Some', lookup_singleton_is_Some.
  rewrite !elem_of_cons, elem_of_nil. intuition congruence.
Qed.

(** X18. Whenever the pass returns, the record has exactly the eight keys of
    its split: the seven loss keys and the FID key, each behind the split
    name; [main] finds [val/fid_val] in every record of a validation pass. *)
Theorem evaluate_epoch_keys θ loader split la lc li f metrics :
  (evaluate_epoch θ loader split la lc li f).1 = Ok metrics →
  (∀ k, is_Some (metrics !! k) ↔ k ∈ metric_keys split) ∧
  (∃ fid, dict_get metrics (split +:+ "/fid_val") = Ok fid).
Proof.
  intros Heval.
  apply evaluate_epoch_returns in Heval as (_ & _ & ->).
  split.
  - intros k.
    rewrite lookup_fmap, fmap_is_Some. unfold split_metrics, metric_keys.
    rewrite lookup_kmap_is_Some by apply _. rewrite list_elem_of_fmap.
    split.
    + intros (s & -> & Hs). exists s. split; [reflexivity |].
      apply suffix_metrics_keys in Hs. exact Hs.
    + intros (s & -> & Hs). exists s. split; [reflexivity |].
      apply suffix_metrics_keys. exact Hs.
  - unfold dict_get. rewrite lookup_averaged. eexists. reflexivity.
Qed.


End EvaluateMore.

Lemma evaluate_epoch_forgets_accumulator_witness :
  (evaluate_epoch (H := Toy.torch) Toy.θ0 Toy.loader2 "val"
     (Qc_of_Z 2) (Qc_of_Z 4) (1 / 2)%Qc Toy.fid0).1
    = (evaluate_epoch (H := Toy.torch) Toy.θ0 Toy.loader2 "val"
         (Qc_of_Z 2) (Qc_of_Z 4) (1 / 2)%Qc ToyMore.fid_used).1 ∧
  acc (evaluate_epoch (H := Toy.torch) Toy.θ0 Toy.loader2 "val"
         (Qc_of_Z 2) (Qc_of_Z 4) (1 / 2)%Qc Toy.fid0).2
    = acc (evaluate_epoch (H := Toy.torch) Toy.θ0 Toy.loader2 "val"
             (Qc_of_Z 2) (Qc_of_Z 4) (1 / 2)%Qc ToyMore.fid_used).2.
Proof.
  apply (evaluate_epoch_forgets_accumulator (H := Toy.torch)).
  intros s s'. reflexivity.
Defined.

Lemma evaluate_epoch_keys_witness :
  ∃ metrics,
    (evaluate_epoch (H := Toy.torch) Toy.θ0 Toy.loader2 "val"
       (Qc_of_Z 2) (Qc_of_Z 4) (1 / 2)%Qc Toy.fid0).1 = Ok metrics ∧
    (∀ k, is_Some (metrics !! k) ↔ k ∈ metric_keys "val") ∧
    (∃ fid, dict_get metrics ("val" +:+ "/fid_val") = Ok fid).
Proof.
  destruct (evaluate_epoch_metrics (H := Toy.torch) Toy.θ0 Toy.loader2 "val"
              (Qc_of_Z 2) (Qc_of_Z 4) (1 / 2)%Qc Toy.fid0)
    as (metrics & f' & Heval & _); [discriminate | by vm_compute |].
  exists metrics.
  assert (Hok : (evaluate_epoch (H := Toy.torch) Toy.θ0 Toy.loader2 "val"
                   (Qc_of_Z 2) (Qc_of_Z 4) (1 / 2)%Qc Toy.fid0).1 = Ok metrics).
  { rewrite Heval. reflexivity. }
  split; [exact Hok |].
  exact (evaluate_epoch_keys (H := Toy.torch) Toy.θ0 Toy.loader2 "val"
           (Qc_of_Z 2) (Qc_of_Z 4) (1 / 2)%Qc Toy.fid0 metrics Hok).
Defined.

(** ** The training loop of an epoch *)

Section TrainingFacts.
Context `{Torch}.

Lemma read_train_log_keys (real_data : image * image) la lc li oG oF oDX oDY (w : world) :
  read_keys (perform_train_step real_data la lc li oG oF oDX oDY w).1 train_log_keys
    = Ok ().
Proof.
  unfold perform_train_step.
  destruct (update_generators _ _ _ _ _ _ w) as [g w1].
  destruct (update_discriminators _ _ _ _ _ w1) as [[lDX lDY] w2].
  cbn [fst]. unfold read_keys, train_log_keys. cbn [for_each]. unfold dict_get.
  repeat (first [rewrite lookup_insert_eq | rewrite lookup_insert_ne by done
                | rewrite lookup_singleton_eq]; cbn [mbind result_bind]).
  reflexivity.
Qed.

Lemma train_batch_zero epoch n la lc li oG oF oDX oDY batch_no b s :
  train_batch 0 epoch n la lc li oG oF oDX oDY () (batch_no, b) s
    = (Raise ZeroDivisionError,
       {| modules := (perform_train_step b la lc li oG oF oDX oDY (modules s)).2;
          wandb_log := wandb_log s |}).
Proof.
  unfold train_batch, mbind, M_bind, train_step.
  destruct (perform_train_step b la lc li oG oF oDX oDY (modules s)) as [m w].
  reflexivity.
Qed.

(** X19. With [steps_for_logging_metrics = 0] the training loop over at
    least one batch raises [ZeroDivisionError] at the first batch: after the
    optimization step on that batch has updated the modules, and before
    anything is logged. Over no batch it returns at once. *)
Theorem train_loop_zero_logging_interval la lc li oG oF oDX oDY epoch b bs s :
  train_loop 0 [] la lc li oG oF oDX oDY epoch s = (Ok (), s) ∧
  train_loop 0 (b :: bs) la lc li oG oF oDX oDY epoch s
    = (Raise ZeroDivisionError,
       {| modules := (perform_train_step b la lc li oG oF oDX oDY (modules s)).2;
          wandb_log := wandb_log s |}).
Proof.
  split; [reflexivity |].
  unfold train_loop, enumerate. cbn [imap for_each]. unfold mbind at 1. unfold M_bind.
  by rewrite train_batch_zero.
Qed.

Lemma train_batch_spec k epoch n la lc li oG oF oDX oDY batch_no b s :
  k ≠ 0 → 0 ≤ batch_no < n →
  let r := perform_train_step b la lc li oG oF oDX oDY (modules s) in
  train_batch k epoch n la lc li oG oF oDX oDY () (batch_no, b) s
    = (Ok (), {| modules := r.2;
                 wandb_log := wandb_log s
                              ++ option_list (log_entry k epoch n (batch_no, r.1)) |}).
Proof.
  intros Hk Hn r. subst r.
  pose proof (read_train_log_keys b la lc li oG oF oDX oDY (modules s)) as Hkeys.
  unfold train_batch, mbind, M_bind, train_step, liftR, py_mod, log_entry.
  destruct (perform_train_step b la lc li oG oF oDX oDY (modules s)) as [m w].
  cbn [fst snd] in *.
  rewrite bool_decide_eq_false_2 by done.
  case_bool_decide as Hmod.
  - rewrite true_div_small by lia. rewrite Hkeys. reflexivity.
  - unfold mret, M_ret. cbn [option_list]. by rewrite app_nil_r.
Qed.

Lemma train_loop_from k epoch n la lc li oG oF oDX oDY :
  k ≠ 0 →
  ∀ l (i0 : nat) s,
    Z.of_nat (i0 + length l) ≤ n →
    for_each (train_batch k epoch n la lc li oG oF oDX oDY)
             (imap (λ i a, (Z.of_nat (i0 + i), a)) l) () s
    = (Ok (),
       {| modules := after_steps la lc li oG oF oDX oDY l (modules s);
          wandb_log :=
            wandb_log s
            ++ omap (log_entry k epoch n)
                 (imap (λ i m, (Z.of_nat (i0 + i), m))
                    (step_records la lc li oG oF oDX oDY l (modules s))) |}).
Proof.
  intros Hk. induction l as [| b l IH]; intros i0 s Hn.
  - simpl. rewrite app_nil_r. by destruct s.
  - cbn [imap for_each step_records after_steps foldl]. unfold mbind at 1. unfold M_bind.
    rewrite train_batch_spec by (simpl in Hn; lia). cbv zeta.
    rewrite (imap_ext _ (λ i a, (Z.of_nat (S i0 + i), a)) l)
      by (intros i x _; simpl; do 2 f_equal; lia).
    rewrite IH by (simpl in Hn; lia). cbn [modules wandb_log omap list_omap].
    rewrite (imap_ext ((λ i m, (Z.of_nat (i0 + i), m)) ∘ S)
               (λ i m, (Z.of_nat (S i0 + i), m)))
      by (intros i x _; simpl; do 2 f_equal; lia).
    rewrite <- app_assoc. do 3 f_equal.
    by destruct (log_entry k epoch n _).
Qed.

Lemma length_step_records la lc li oG oF oDX oDY loader :
  ∀ w, length (step_records la lc li oG oF oDX oDY loader w) = length loader.
Proof. induction loader as [| b l IH]; intros w; simpl; [done | by rewrite IH]. Qed.

Lemma train_loop_result k la lc li oG oF oDX oDY epoch loader s :
  k ≠ 0 →
  train_loop k loader la lc li oG oF oDX oDY epoch s
    = (Ok (), {| modules := after_steps la lc li oG oF oDX oDY loader (modules s);
                 wandb_log :=
                   wandb_log s
                   ++ omap (log_entry k epoch (Z.of_nat (length loader)))
                        (enumerate (step_records la lc li oG oF oDX oDY loader
                                      (modules s))) |}).
Proof.
  intros Hk. destruct loader as [| b bs].
  - simpl. rewrite app_nil_r. by destruct s.
  - unfold train_loop, enumerate.
    exact (train_loop_from k epoch _ la lc li oG oF oDX oDY Hk (b :: bs) 0%nat s
             (Z.le_refl _)).
Qed.

(** X20. With [steps_for_logging_metrics = k] other than 0 the training loop
    returns. The modules are then those after the optimization steps on all
    batches, in order; the records passed to [wandb.log] are, in order, those
    of the steps whose batch number is a multiple of [k], each with
    [train/epoch_float = epoch + (batch_no + 1) / batches_per_epoch] added.
    The step on the first batch is logged whatever [k] is. *)
Theorem train_loop_logging k la lc li oG oF oDX oDY epoch loader s :
  k ≠ 0 →
  let n := Z.of_nat (length loader) in
  let logged := omap (log_entry k epoch n)
                  (enumerate (step_records la lc li oG oF oDX oDY loader (modules s))) in
  train_loop k loader la lc li oG oF oDX oDY epoch s
    = (Ok (), {| modules := after_steps la lc li oG oF oDX oDY loader (modules s);
                 wandb_log := wandb_log s ++ logged |}) ∧
  (∀ b bs, loader = b :: bs →
     head logged
       = Some (<["train/epoch_float" := (Qc_of_Z epoch + 1 / Qc_of_Z n)%Qc]>
                 (perform_train_step b la lc li oG oF oDX oDY (modules s)).1)).
Proof.
  intros Hk n logged. subst logged. split.
  - by apply train_loop_result.
  - intros b bs ->. unfold enumerate. cbn [step_records imap omap list_omap log_entry].
    rewrite Zmod_0_l. rewrite bool_decide_eq_true_2 by done. reflexivity.
Qed.

(** X21. Every record the training loop of epoch [epoch] logs carries a
    [train/epoch_float] above [epoch] and at most [epoch + 1]. *)
Theorem epoch_float_range k la lc li oG oF oDX oDY epoch loader s logged d :
  k ≠ 0 →
  wandb_log (train_loop k loader la lc li oG oF oDX oDY epoch s).2
    = wandb_log s ++ logged →
  d ∈ logged →
  ∃ q, d !! "train/epoch_float" = Some q ∧
       (Qc_of_Z epoch < q)%Qc ∧ (q ≤ Qc_of_Z epoch + 1)%Qc.
Proof.
  intros Hk Hlog Hd. rewrite train_loop_result in Hlog by done.
  cbn [snd wandb_log] in Hlog. apply app_inv_head in Hlog. subst logged.
  apply list_elem_of_omap in Hd as ([i m] & Hin & Hentry).
  unfold enumerate in Hin. apply elem_of_lookup_imap in Hin as (j & m' & Heq & Hj).
  injection Heq as -> ->.
  apply lookup_lt_Some in Hj. rewrite length_step_records in Hj.
  unfold log_entry in Hentry. case_bool_decide; [| done]. injection Hentry as <-.
  eexists. split; [apply lookup_insert_eq |].
  set (n := Z.of_nat (length loader)).
  assert (Hn : (0 < Qc_of_Z n)%Qc).
  { rewrite <- Z2Qc_inj_0. apply (proj1 (Z2Qc_inj_lt _ _)). lia. }
  assert (Hinv : (0 < / Qc_of_Z n)%Qc) by (by apply Qcinv_pos).
  split.
  - rewrite <- (Qcplus_0_r (Qc_of_Z epoch)) at 1.
    apply (proj1 (Qcplus_lt_mono_l _ _ _)). unfold Qcdiv.
    apply Qcmult_pos_pos; [| done].
    rewrite <- Z2Qc_inj_0. apply (proj1 (Z2Qc_inj_lt _ _)). lia.
  - apply (proj1 (Qcplus_le_mono_l _ _ _)). unfold Qcdiv.
    rewrite <- (Qcmult_inv_r (Qc_of_Z n)) by (by apply Qclt_not_eq in Hn).
    apply Qcmult_le_mono_nonneg_r; [by apply Qclt_le_weak |].
    apply (proj1 (Z2Qc_inj_le _ _)). lia.
Qed.

End TrainingFacts.

Lemma train_loop_logging_witness :
  let n := Z.of_nat (length Toy.loader2) in
  let logged :=
    omap (log_entry 2 1 n)
      (enumerate (step_records (H := Toy.torch) (Qc_of_Z 2) (Qc_of_Z 4) (1 / 2)%Qc
                    {| param_group := G |} {| param_group := F |}
                    {| param_group := DX |} {| param_group := DY |}
                    Toy.loader2 (modules ToyMore.training0))) in
  train_loop (H := Toy.torch) 2 Toy.loader2 (Qc_of_Z 2) (Qc_of_Z 4) (1 / 2)%Qc
      {| param_group := G |} {| param_group := F |}
      {| param_group := DX |} {| param_group := DY |} 1 ToyMore.training0
    = (Ok (), {| modules := after_steps (H := Toy.torch) (Qc_of_Z 2) (Qc_of_Z 4) (1 / 2)%Qc
                              {| param_group := G |} {| param_group := F |}
                              {| param_group := DX |} {| param_group := DY |}
                              Toy.loader2 (modules ToyMore.training0);
                 wandb_log := wandb_log ToyMore.training0 ++ logged |}) ∧
  (∀ b bs, Toy.loader2 = b :: bs →
     head logged
       = Some (<["train/epoch_float" := (Qc_of_Z 1 + 1 / Qc_of_Z n)%Qc]>
                 (perform_train_step (H := Toy.torch) b (Qc_of_Z 2) (Qc_of_Z 4) (1 / 2)%Qc
                    {| param_group := G |} {| param_group := F |}
                    {| param_group := DX |} {| param_group := DY |}
                    (modules ToyMore.training0)).1)).
Proof.
  apply (train_loop_logging (H := Toy.torch) 2 (Qc_of_Z 2) (Qc_of_Z 4) (1 / 2)%Qc
           {| param_group := G |} {| param_group := F |}
           {| param_group := DX |} {| param_group := DY |} 1 Toy.loader2
           ToyMore.training0).
  lia.
Defined.

Lemma epoch_float_range_witness :
  let logged :=
    wandb_log (train_loop (H := Toy.torch) 2 Toy.loader2 (Qc_of_Z 2) (Qc_of_Z 4) (1 / 2)%Qc
                 {| param_group := G |} {| param_group := F |}
                 {| param_group := DX |} {| param_group := DY |} 1
                 ToyMore.training0).2 in
  ∃ q, default ∅ (head logged) !! "train/epoch_float" = Some q ∧
       (Qc_of_Z 1 < q)%Qc ∧ (q ≤ Qc_of_Z 1 + 1)%Qc.
Proof.
  intros logged.
  apply (epoch_float_range (H := Toy.torch) 2 (Qc_of_Z 2) (Qc_of_Z 4) (1 / 2)%Qc
           {| param_group := G |} {| param_group := F |}
           {| param_group := DX |} {| param_group := DY |} 1 Toy.loader2
           ToyMore.training0 logged).
  - lia.
  - reflexivity.
  - vm_compute. apply list_elem_of_here.
Defined.

(** ** The end of a run *)

Section Calls.

Variable P : event → Prop.

Lemma never_calls_ret {A} (a : A) : never_calls P (mret a).
Proof.
  intros r. exists []. rewrite app_nil_r. split; [done |].
  intros e He. by apply elem_of_nil in He.
Qed.

Lemma never_calls_liftR {A} (x : result A) : never_calls P (liftR x).
Proof.
  intros r. exists []. rewrite app_nil_r. split; [done |].
  intros e He. by apply elem_of_nil in He.
Qed.

Lemma never_calls_bind {A B} (m : M run A) (k : A → M run B) :
  never_calls P m → (∀ a, never_calls P (k a)) → never_calls P (m ≫= k).
Proof.
  intros Hm Hk r. destruct (Hm r) as (evs1 & Ht1 & Hn1).
  unfold mbind, M_bind. destruct (m r) as [[a | e] r1]; simpl in *.
  - destruct (Hk a r1) as (evs2 & Ht2 & Hn2). exists (evs1 ++ evs2).
    rewrite Ht2, Ht1, app_assoc. split; [done |].
    intros e He. apply elem_of_app in He as [He | He]; [by apply Hn1 | by apply Hn2].
  - exists evs1. done.
Qed.

Lemma never_calls_emit e : ¬ P e → never_calls P (emit e).
Proof.
  intros He r. exists [e]. split; [done |].
  intros e' He'. apply list_elem_of_singleton in He'. by subst e'.
Qed.

Lemma never_calls_when b (m : M run ()) :
  (b = true → never_calls P m) → never_calls P (when b m).
Proof. intros Hm. destruct b; [by apply Hm | apply never_calls_ret]. Qed.

Lemma never_calls_for_each {A B} (body : A → B → M run A) (l : list B) :
  (∀ a b, never_calls P (body a b)) → ∀ a, never_calls P (for_each body l a).
Proof.
  intros Hbody. induction l as [| b l IH]; intros a.
  - apply never_calls_ret.
  - cbn [for_each]. apply never_calls_bind; [apply Hbody | apply IH].
Qed.

(** From here on [P] holds of calls to the instance only, and of
    [archive_ec2] only when the configuration does not ask for it. *)
Variable cfg : Config.
Hypothesis P_ec2 : ∀ e, P e → e = ArchiveEc2 ∨ e = TerminateEc2.
Hypothesis P_archive : archive_and_terminate_ec2 cfg = true → ¬ P ArchiveEc2.

Lemma never_calls_save_checkpoint epoch kind : never_calls P (save_checkpoint epoch kind).
Proof.
  intros r. exists [SaveCheckpoint epoch kind]. split; [done |].
  intros e He HP. apply list_elem_of_singleton in He. subst e.
  by destruct (P_ec2 _ HP).
Qed.

Lemma never_calls_load_checkpoint kind : never_calls P (load_checkpoint kind).
Proof.
  intros r. unfold load_checkpoint. destruct (checkpoints r !! kind).
  - exists [LoadCheckpoint kind]. split; [done |].
    intros e He HP. apply list_elem_of_singleton in He. subst e.
    by destruct (P_ec2 _ HP).
  - exists []. rewrite app_nil_r. split; [done |].
    intros e He. by apply elem_of_nil in He.
Qed.

Lemma never_calls_other e :
  e ≠ ArchiveEc2 → e ≠ TerminateEc2 → never_calls P (emit e).
Proof.
  intros Ha Ht. apply never_calls_emit. intros HP. by destruct (P_ec2 _ HP).
Qed.

Lemma never_calls_archive :
  never_calls P (when (archive_and_terminate_ec2 cfg) (emit ArchiveEc2)).
Proof. apply never_calls_when. intros Hflag. by apply never_calls_emit, P_archive. Qed.

Lemma never_calls_epoch_body vm best_fid epoch :
  never_calls P (epoch_body cfg vm best_fid epoch).
Proof.
  unfold epoch_body.
  apply never_calls_bind; [by apply never_calls_other | intros _].
  apply never_calls_bind; [apply never_calls_liftR | intros fid].
  apply never_calls_bind.
  - destruct (fid_lt fid best_fid); [| apply never_calls_ret].
    apply never_calls_bind; [apply never_calls_save_checkpoint | intros _].
    apply never_calls_bind; [apply never_calls_archive | intros _; apply never_calls_ret].
  - intros best_fid'.
    apply never_calls_bind; [| intros _; apply never_calls_ret].
    apply never_calls_when. intros _.
    apply never_calls_bind; [apply never_calls_save_checkpoint | intros _].
    apply never_calls_archive.
Qed.

Lemma never_calls_epoch_loop vm : never_calls P (epoch_loop cfg vm).
Proof. apply never_calls_for_each. intros a b. apply never_calls_epoch_body. Qed.

Lemma never_calls_test_phase :
  never_calls P
    (when (do_test cfg)
       (_ ← load_checkpoint "best";
        _ ← emit EvaluateTest;
        _ ← emit WriteTestMetrics;
        when (archive_and_terminate_ec2 cfg) (emit ArchiveEc2))).
Proof.
  apply never_calls_when. intros _.
  apply never_calls_bind; [apply never_calls_load_checkpoint | intros _].
  apply never_calls_bind; [by apply never_calls_other | intros _].
  apply never_calls_bind; [by apply never_calls_other | intros _].
  apply never_calls_archive.
Qed.

End Calls.

Lemma terminates_last_bind {A} flag (m : M run A) (k : A → M run ()) :
  never_calls (λ e, e = TerminateEc2) m →
  (∀ a, terminates_last flag (k a)) →
  terminates_last flag (m ≫= k).
Proof.
  intros Hm Hk r. destruct (Hm r) as (evs1 & Ht1 & Hn1).
  assert (Hn1' : TerminateEc2 ∉ evs1) by (intros Hin; by apply (Hn1 _ Hin)).
  unfold mbind, M_bind. destruct (m r) as [[a | e] r1]; simpl in *.
  - destruct (Hk a r1) as (evs2 & Ht2 & Hiff & Hlast). exists (evs1 ++ evs2).
    rewrite Ht2, Ht1, app_assoc. split_and!; [done | |].
    + rewrite elem_of_app, <- Hiff. tauto.
    + rewrite elem_of_app. intros [Hin | Hin]; [done |].
      destruct (Hlast Hin) as (evs' & -> & Hn'). exists (evs1 ++ evs').
      rewrite app_assoc. split; [done |]. rewrite elem_of_app. tauto.
  - exists evs1. split_and!; [done | | done].
    split; [done | intros [Hok _]; discriminate].
Qed.

Lemma terminates_last_final flag : terminates_last flag (when flag (emit TerminateEc2)).
Proof.
  intros r. destruct flag; simpl.
  - exists [TerminateEc2]. split_and!; [done | | ].
    + split; [done | intros _; apply list_elem_of_here].
    + intros _. exists []. split; [done | apply not_elem_of_nil].
  - exists []. rewrite app_nil_r. split_and!; [done | |].
    + split; [intros Hin; by apply elem_of_nil in Hin | intros [_ Hf]; discriminate].
    + intros Hin. by apply elem_of_nil in Hin.
Qed.

(** X22. In a run of at least one epoch [terminate_ec2] is called only as
    the very last call of a [main] that has completed, and then exactly when
    [archive_and_terminate_ec2] is set: a run that raises, at whatever point,
    has not called it. *)
Theorem terminate_only_after_success `{Data.Runtime} cfg listing vm r :
  1 ≤ num_train_epochs cfg →
  ∃ evs,
    trace (main cfg listing vm r).2 = trace r ++ evs ∧
    (TerminateEc2 ∈ evs ↔
       (main cfg listing vm r).1 = Ok () ∧ archive_and_terminate_ec2 cfg = true) ∧
    (TerminateEc2 ∈ evs →
       ∃ evs', evs = evs' ++ [TerminateEc2] ∧ TerminateEc2 ∉ evs').
Proof.
  intros _. revert r.
  change (terminates_last (archive_and_terminate_ec2 cfg) (main cfg listing vm)).
  assert (HP : ∀ e, e = TerminateEc2 → e = ArchiveEc2 ∨ e = TerminateEc2) by tauto.
  assert (Harch : archive_and_terminate_ec2 cfg = true → ArchiveEc2 ≠ TerminateEc2)
    by done.
  unfold main.
  apply terminates_last_bind; [by apply never_calls_other | intros _].
  apply terminates_last_bind;
    [apply never_calls_when; intros _; by apply never_calls_other | intros _].
  apply terminates_last_bind; [by apply never_calls_other | intros _].
  apply terminates_last_bind; [apply never_calls_liftR | intros loaders].
  apply terminates_last_bind; [by apply never_calls_other | intros _].
  apply terminates_last_bind; [by apply never_calls_other | intros _].
  apply terminates_last_bind; [by apply never_calls_other | intros _].
  apply terminates_last_bind; [by apply never_calls_other | intros _].
  apply terminates_last_bind; [by apply never_calls_other | intros _].
  apply terminates_last_bind; [apply never_calls_liftR | intros schedulers].
  apply terminates_last_bind; [by apply never_calls_other | intros _].
  apply terminates_last_bind; [by apply never_calls_epoch_loop | intros _].
  apply terminates_last_bind; [| intros _; apply terminates_last_final].
  by apply never_calls_test_phase.
Qed.

(** X23. Without [archive_and_terminate_ec2] a run makes no call to
    [archive_ec2] and none to [terminate_ec2], whether it completes or
    raises. *)
Theorem no_ec2_call_without_flag `{Data.Runtime} cfg listing vm r :
  archive_and_terminate_ec2 cfg = false →
  ∃ evs,
    trace (main cfg listing vm r).2 = trace r ++ evs ∧
    (ArchiveEc2 ∉ evs) ∧ (TerminateEc2 ∉ evs).
Proof.
  intros Hflag.
  set (P := λ e : event, e = ArchiveEc2 ∨ e = TerminateEc2).
  assert (HP : ∀ e, P e → e = ArchiveEc2 ∨ e = TerminateEc2) by done.
  assert (Harch : archive_and_terminate_ec2 cfg = true → ¬ P ArchiveEc2)
    by (rewrite Hflag; done).
  assert (Hmain : never_calls P (main cfg listing vm)).
  { unfold main.
    apply never_calls_bind; [by apply never_calls_other | intros _].
    apply never_calls_bind;
      [apply never_calls_when; intros _; by apply never_calls_other | intros _].
    apply never_calls_bind; [by apply never_calls_other | intros _].
    apply never_calls_bind; [apply never_calls_liftR | intros loaders].
    apply never_calls_bind; [by apply never_calls_other | intros _].
    apply never_calls_bind; [by apply never_calls_other | intros _].
    apply never_calls_bind; [by apply never_calls_other | intros _].
    apply never_calls_bind; [by apply never_calls_other | intros _].
    apply never_calls_bind; [by apply never_calls_other | intros _].
    apply never_calls_bind; [apply never_calls_liftR | intros schedulers].
    apply never_calls_bind; [by apply never_calls_other | intros _].
    apply never_calls_bind; [by apply never_calls_epoch_loop | intros _].
    apply never_calls_bind; [by apply never_calls_test_phase | intros _].
    apply never_calls_when. rewrite Hflag. done. }
  destruct (Hmain r) as (evs & Htrace & Hnone).
  exists evs. split_and!; [done | |].
  - intros Hin. apply (Hnone _ Hin). by left.
  - intros Hin. apply (Hnone _ Hin). by right.
Qed.

Lemma terminate_only_after_success_witness :
  ∃ evs,
    trace (main (H := Toy.runtime) (ToyMore.cfg_ec2 2) ToyMore.listing12 Toy.val_metrics4
             Toy.fresh).2 = trace Toy.fresh ++ evs ∧
    (TerminateEc2 ∈ evs ↔
       (main (H := Toy.runtime) (ToyMore.cfg_ec2 2) ToyMore.listing12 Toy.val_metrics4
          Toy.fresh).1 = Ok () ∧
       archive_and_terminate_ec2 (ToyMore.cfg_ec2 2) = true) ∧
    (TerminateEc2 ∈ evs →
       ∃ evs', evs = evs' ++ [TerminateEc2] ∧ TerminateEc2 ∉ evs').
Proof.
  apply (terminate_only_after_success (H := Toy.runtime) (ToyMore.cfg_ec2 2)
           ToyMore.listing12 Toy.val_metrics4 Toy.fresh).
  simpl. lia.
Defined.

Lemma no_ec2_call_without_flag_witness :
  ∃ evs,
    trace (main (H := Toy.runtime) (Toy.cfg 2) ToyMore.listing12 Toy.val_metrics4
             Toy.fresh).2 = trace Toy.fresh ++ evs ∧
    (ArchiveEc2 ∉ evs) ∧ (TerminateEc2 ∉ evs).
Proof.
  apply (no_ec2_call_without_flag (H := Toy.runtime) (Toy.cfg 2)
           ToyMore.listing12 Toy.val_metrics4 Toy.fresh).
  reflexivity.
Defined.

End TrainExtra.
